(** * SlackGhost: the ghost record, its profile cache and the relays

    A shallow embedding of [src/SlackGhost.ts].

    - JS values: an optional field ([x?: T], possibly [undefined]) is an
      [option]; strings are [string]s of code units in the Latin-1 range.
      Truthiness of an optional string follows JS: [undefined] and the
      empty string are falsy.
    - An [async] method is a program of the monad [Prog]: synchronous
      steps on the [World], and the points where it awaits.  A call runs
      synchronously up to its first [await] and is then parked in the
      [pool], whether what it awaits is settled or not; the event loop
      ([Event]) settles promises, lets a parked call go on once what it
      awaits is settled, advances the clock and fires timers.  The
      parked calls may go on in any order.
    - Every call that leaves the class (the [rp] HTTP client, the puppet
      [intent], [Main]'s store) is recorded as a [Request]; the i-th
      request of a run is the promise number i.
    - Logging ([log.debug], [log.info], [log.error]) writes to an external
      logger and is not part of the state. *)

From Stdlib Require Import ZArith SpecFloat Ascii String.
From stdpp Require Import base option list gmap strings.

Open Scope string_scope.
Open Scope list_scope.

(** ** JS values *)

Module JS.

(** [!!s] for an optional string. *)
Definition truthy (s : option string) : bool :=
  match s with
  | None => false
  | Some "" => false
  | Some _ => true
  end.

(** [a || b]. *)
Definition or (a b : option string) : option string :=
  if truthy a then a else b.

(** [a === b] on optional strings. *)
Definition eq (a b : option string) : bool := bool_decide (a = b).

End JS.

Infix "|||" := JS.or (at level 50, left associativity).

(** ** Data model *)

(** [ISlackUser.profile]. *)
Record Profile := mkProfile {
  display_name : option string;
  real_name : option string;
  image_original : option string;
  image_1024 : option string;
  image_512 : option string;
  image_192 : option string;
  image_72 : option string;
  image_48 : option string
}.

Record ISlackUser := mkUser { profile : option Profile }.

(** The JSON body of [users.info]: [{user?: ISlackUser}]. *)
Record UserInfo := mkUserInfo { user : option ISlackUser }.

(** The entry of the user store: [{ id, display_name, avatar_url }]. *)
Module Entry.
Record t := mk {
  id : option string;
  display_name : option string;
  avatar_url : option string
}.
End Entry.

(** The inbound Slack event, as far as the class reads it. *)
Record Message := mkMessage {
  user_id : string;
  user_name : option string
}.

Record BridgedRoom := mkRoom { AccessToken : option string }.

(** The content handed to [intent.sendMessage].  [Slackdown.parse] is an
    external formatter: the formatted body records the text it was given. *)
Inductive Html := Slackdown_parse (text : string).

Record Content := mkContent {
  body : string;
  msgtype : string;
  formatted_body : Html;
  format : string
}.

(** The upload request of [uploadContent]; [new Buffer(content, "binary")]
    is kept as the content it wraps. *)
Record File := mkFile {
  _content : string;
  title : option string;
  mimetype : option string
}.

(** [new StoreEvent(roomId, eventId, slackRoomID, slackEventTS)]. *)
Record StoreEvent := mkStoreEvent {
  se_roomId : string;
  se_eventId : option string;
  se_slackRoomID : string;
  se_slackEventTS : Z
}.

(** ** Promises and the outside world *)

(** What a call out of the class asks for. *)
Inductive Request :=
| UsersInfo (token user : string)          (* rp users.info, json *)
| HttpGet (uri : string) (bearer : option string) (full : bool)
| UploadContent (f : File)                 (* intent.getClient().uploadContent *)
| SetDisplayName (name : option string)    (* intent.setDisplayName *)
| SetAvatarUrl (uri : option string)       (* intent.setAvatarUrl *)
| SendMessage (roomId : string) (msg : Content)
| PutUserToStore (e : Entry.t)              (* main.putUserToStore *)
| UpsertEvent (e : StoreEvent).            (* main.eventStore.upsertEvent *)

(** What a promise resolves with. *)
Inductive Value :=
| VUserInfo (r : UserInfo)
| VFull (body : string) (content_type : option string)
| VBuffer (body : string)
| VUploaded (content_uri : option string)  (* the JSON text, parsed *)
| VBadJson                                 (* a text JSON.parse rejects *)
| VEvent (event_id : string)
| VUndefined.

Definition Err := string.

Inductive Outcome :=
| Resolved (v : Value)
| Rejected (e : Err).

Record Promise := mkPromise {
  request : Request;
  state : option Outcome
}.

(** ** The ghost *)

(** A JavaScript number is an IEEE 754 double: 53 bits of mantissa,
    infinities at the exponent 1024. *)
Definition number : Type := spec_float.

(** An integer as a number.  [Date.now ()] is a whole number of
    milliseconds, of at most 8.64e15 in magnitude, which a double holds
    exactly. *)
Definition number_of_Z (z : Z) : number := binary_normalize 53 1024 z 0 false.

(** [x / y] on numbers, rounded to the nearest double, ties to even. *)
Definition number_div (x y : number) : number := SFdiv 53 1024 x y.

Record SlackGhost := mkGhost {
  atime : option number;
  userInfoCache : option ISlackUser;
  userInfoLoading : option nat;
  userId : option string;
  displayName : option string;
  avatarUrl : option string
}.

(** How long in milliseconds to cache user info lookups. *)
Definition USER_CACHE_TIMEOUT : Z := 10 * 60 * 1000.

(** [Main] is not part of the class: the counters it keeps. *)
Record Main := mkMain {
  remoteCalls : gmap string nat;
  counters : gmap (string * string) nat
}.

Record World := mkWorld {
  ghost : SlackGhost;
  main : Main;
  now : Z;                      (* Date.now(), milliseconds *)
  timers : list Z;              (* due times of the pending cache evictions *)
  promises : list Promise
}.

(** ** Async methods as programs *)

(** A program does synchronous steps on the world, awaits promises, and
    returns or throws.  [Pause] is an await of what is there already: the
    program gives way and goes on in a later turn. *)
Inductive Prog (A : Type) : Type :=
| Ret (a : A)
| Throw (e : Err)
| Do {X : Type} (op : World -> World * X) (k : X -> Prog A)
| Await (p : nat) (k : Outcome -> Prog A)
| Pause (k : Prog A).

Arguments Ret {A} a.
Arguments Throw {A} e.
Arguments Do {A X} op k.
Arguments Await {A} p k.
Arguments Pause {A} k.

Fixpoint bind {A B : Type} (m : Prog A) (f : A -> Prog B) : Prog B :=
  match m with
  | Ret a => f a
  | Throw e => Throw e
  | Do op k => Do op (fun x => bind (k x) f)
  | Await p k => Await p (fun o => bind (k o) f)
  | Pause k => Pause (bind k f)
  end.

(** [m.catch(h)], and [try { m } catch (e) { h e }]. *)
Fixpoint catch {A : Type} (m : Prog A) (h : Err -> Prog A) : Prog A :=
  match m with
  | Ret a => Ret a
  | Throw e => h e
  | Do op k => Do op (fun x => catch (k x) h)
  | Await p k => Await p (fun o => catch (k o) h)
  | Pause k => Pause (catch k h)
  end.

#[export] Instance Prog_ret : MRet Prog := fun _ a => Ret a.
#[export] Instance Prog_bind : MBind Prog := fun _ _ f m => bind m f.

(** [await p]: the value of a fulfilled promise; a rejection is thrown. *)
Definition await (p : nat) : Prog Value :=
  Await p (fun o => match o with
                    | Resolved v => Ret v
                    | Rejected e => Throw e
                    end).

(** [await m] for a call [m] of an async method of the class: [m] runs
    up to its end, and the caller gets its result, or its failure, in a
    later turn of the event loop. *)
Definition await_call {A : Type} (m : Prog A) : Prog A :=
  catch (m ≫= fun x => Pause (Ret x)) (fun e => Pause (Throw e)).

(** Reading [this]. *)
Definition this {X : Type} (f : SlackGhost -> X) : Prog X :=
  Do (fun w => (w, f (ghost w))) Ret.

Definition with_ghost (f : SlackGhost -> SlackGhost) (w : World) : World :=
  mkWorld (f (ghost w)) (main w) (now w) (timers w) (promises w).

Definition with_main (f : Main -> Main) (w : World) : World :=
  mkWorld (ghost w) (f (main w)) (now w) (timers w) (promises w).

(** Assignments to the fields of [this]. *)
Definition set_atime (v : option number) (g : SlackGhost) : SlackGhost :=
  mkGhost v (userInfoCache g) (userInfoLoading g) (userId g) (displayName g) (avatarUrl g).
Definition set_userInfoCache (v : option ISlackUser) (g : SlackGhost) : SlackGhost :=
  mkGhost (atime g) v (userInfoLoading g) (userId g) (displayName g) (avatarUrl g).
Definition set_userInfoLoading (v : option nat) (g : SlackGhost) : SlackGhost :=
  mkGhost (atime g) (userInfoCache g) v (userId g) (displayName g) (avatarUrl g).
Definition set_displayName (v : option string) (g : SlackGhost) : SlackGhost :=
  mkGhost (atime g) (userInfoCache g) (userInfoLoading g) (userId g) v (avatarUrl g).
Definition set_avatarUrl (v : option string) (g : SlackGhost) : SlackGhost :=
  mkGhost (atime g) (userInfoCache g) (userInfoLoading g) (userId g) (displayName g) v.

Definition assign (f : SlackGhost -> SlackGhost) : Prog unit :=
  Do (fun w => (with_ghost f w, tt)) Ret.

(** A call out of the class: the request is recorded and its promise is
    returned. *)
Definition issue (r : Request) (w : World) : World * nat :=
  (mkWorld (ghost w) (main w) (now w) (timers w)
           (promises w ++ [mkPromise r None]),
   length (promises w)).

Definition call (r : Request) : Prog nat := Do (issue r) Ret.

(** [setTimeout(() => this.userInfoCache = undefined, delay)]. *)
Definition setTimeout_evict (delay : Z) : Prog unit :=
  Do (fun w => (mkWorld (ghost w) (main w) (now w)
                        (timers w ++ [(now w + delay)%Z]) (promises w), tt)) Ret.

(** Modelled from the spec: [Main.incRemoteCallCounter(api)], which is not
    in the class file, increments the remote-call counter named [api]. *)
Definition incRemoteCallCounter (api : string) : Prog unit :=
  Do (fun w => (with_main (fun m =>
        mkMain (<[api := S (default 0 (remoteCalls m !! api))]> (remoteCalls m))
               (counters m)) w, tt)) Ret.

(** Modelled from the spec: [Main.incCounter(name, {side})], which is not
    in the class file, increments the counter [name] for that side. *)
Definition incCounter (name side : string) : Prog unit :=
  Do (fun w => (with_main (fun m =>
        mkMain (remoteCalls m)
               (<[(name, side) := S (default 0 (counters m !! (name, side)))]>
                  (counters m))) w, tt)) Ret.

(** ** The class *)

(** [static fromEntry(main, entry, intent)]: [main] and [intent] are
    references to the collaborators and carry no state of the ghost. *)
Definition fromEntry (entry : Entry.t) : SlackGhost :=
  mkGhost None None None
          (Entry.id entry) (Entry.display_name entry) (Entry.avatar_url entry).

Definition toEntry (g : SlackGhost) : Entry.t :=
  Entry.mk (userId g) (displayName g) (avatarUrl g).

(** [response.user] on the body of [users.info].  Another non-nullish body
    has no such property; on [undefined] the access throws. *)
Definition response_user (v : Value) : Prog (option ISlackUser) :=
  match v with
  | VUserInfo r => Ret (user r)
  | VUndefined => Throw "TypeError"
  | _ => Ret None
  end.

Definition lookupUserInfo (slackUserId slackAccessToken : string)
  : Prog (option ISlackUser) :=
  cache ← this userInfoCache;
  match cache with
  | Some u => Ret (Some u)
  | None =>
    loading ← this userInfoLoading;
    match loading with
    | Some p =>
      response ← await p;
      u ← response_user response;
      match u with
      | Some u => Ret (Some u)
      | None => Ret None
      end
    | None =>
      incRemoteCallCounter "users.info";;
      p ← call (UsersInfo slackAccessToken slackUserId);
      assign (set_userInfoLoading (Some p));;
      response ← await p;
      u ← response_user response;
      match u with
      | None => Ret None
      | Some u =>
        match profile u with
        | None => Ret None
        | Some _ =>
          assign (set_userInfoCache (Some u));;
          setTimeout_evict USER_CACHE_TIMEOUT;;
          assign (set_userInfoLoading None);;
          Ret (Some u)
        end
      end
    end
  end.

Definition getDisplayname (slackUserId slackAccessToken : string)
  : Prog (option string) :=
  u ← await_call (lookupUserInfo slackUserId slackAccessToken);
  match u with
  | Some u =>
    match profile u with
    | Some p => Ret (display_name p ||| real_name p)
    | None => Ret None
    end
  | None => Ret None
  end.

(** Modelled from the spec: [Main.putUserToStore(ghost)], which is not in
    the class file, persists the ghost record as its entry. *)
Definition putUserToStore : Prog nat :=
  g ← this (fun g => g);
  call (PutUserToStore (toEntry g)).

Definition updateDisplayname (message : Message) (room : BridgedRoom)
  : Prog Value :=
  let token := AccessToken room in
  if negb (JS.truthy token) then Ret VUndefined
  else
    let name := user_name message in
    name ← (if negb (JS.truthy name)
            then await_call (getDisplayname (user_id message) (default "" token))
            else Ret name);
    stored ← this displayName;
    if negb (JS.truthy name) || JS.eq stored name
    then Ret VUndefined (* Nothing to do. *)
    else
      p ← call (SetDisplayName name);
      _ ← await p;
      assign (set_displayName name);;
      p ← putUserToStore;
      await p.

Definition lookupAvatarUrl (slackUserId slackAccessToken : string)
  : Prog (option string) :=
  u ← await_call (lookupUserInfo slackUserId slackAccessToken);
  match u with
  | None => Ret None
  | Some u =>
    match profile u with
    | None => Ret None
    | Some profile =>
      Ret (image_original profile |||
           image_1024 profile ||| image_512 profile ||| image_192 profile |||
           image_72 profile ||| image_48 profile)
    end
  end.

(** [JSON.parse(response).content_uri]. *)
Definition parse_content_uri (v : Value) : Prog (option string) :=
  match v with
  | VUploaded content_uri => Ret content_uri
  | _ => Throw "SyntaxError"
  end.

Definition uploadContent (file : File) : Prog (option string) :=
  p ← call (UploadContent file);
  response ← await p;
  parse_content_uri response.

(** [url.match(/\/([^\/]+)$/)]: the first slash that is followed, up to
    the end of the string, by one or more characters other than a slash;
    the result is the group, [match[1]]. *)
Fixpoint no_slash (s : string) : bool :=
  match s with
  | EmptyString => true
  | String c s' => negb (Ascii.eqb c "/"%char) && no_slash s'
  end.

Fixpoint match_last_segment (s : string) : option string :=
  match s with
  | EmptyString => None
  | String c s' =>
    if Ascii.eqb c "/"%char && negb (String.eqb s' "") && no_slash s'
    then Some s'
    else match_last_segment s'
  end.

(** [response.body] and [response.headers["content-type"]] of a full
    response. *)
Definition full_response (v : Value) : Prog (string * option string) :=
  match v with
  | VFull b ct => Ret (b, ct)
  | _ => Throw "TypeError"
  end.

Definition updateAvatar (message : Message) (room : BridgedRoom)
  : Prog unit :=
  let token := AccessToken room in
  if negb (JS.truthy token) then Ret tt
  else
    url ← await_call (lookupAvatarUrl (user_id message) (default "" token));
    stored ← this avatarUrl;
    if negb (JS.truthy url) || JS.eq stored url
    then Ret tt
    else
      match url ≫= match_last_segment with
      | None => Ret tt
      | Some shortname =>
        p ← call (HttpGet (default "" url) None true);
        response ← await p;
        '(content, content_type) ← full_response response;
        contentUri ← await_call
                       (uploadContent (mkFile content (Some shortname) content_type));
        p ← call (SetAvatarUrl contentUri);
        _ ← await p;
        assign (set_avatarUrl url);;
        _ ← putUserToStore;
        Ret tt
      end.

(** *** The mention rewrite of [sendText]

    The pattern [/<https:\/\/matrix\.to\/#\/@.+:.+\|(.+)>/g] is a
    sequence of literal runs and greedy [.+], one of them captured.  The
    matcher backtracks as the JS engine does: a [.+] first takes every
    character up to the line end and gives them back one by one. *)
Inductive Re :=
| Chars (s : string)       (* a run of literal characters *)
| AnyPlus                  (* .+ *)
| Cap (r : Re)             (* ( r ), the group $1 *)
| Seq (r1 r2 : Re).

(** The line terminators, which [.] does not match. *)
Definition line_terminator (c : ascii) : bool :=
  Ascii.eqb c "010"%char || Ascii.eqb c "013"%char.

Fixpoint strip_prefix (l s : string) : option string :=
  match l, s with
  | EmptyString, _ => Some s
  | String a l', String b s' => if Ascii.eqb a b then strip_prefix l' s' else None
  | String _ _, EmptyString => None
  end.

Fixpoint any_plus {R : Type} (s : string) (k : string -> option R) : option R :=
  match s with
  | EmptyString => None
  | String c s' =>
    if line_terminator c then None
    else match any_plus s' k with
         | Some r => Some r
         | None => k s'
         end
  end.

Fixpoint take_string (n : nat) (s : string) : string :=
  match n, s with
  | S n', String c s' => String c (take_string n' s')
  | _, _ => EmptyString
  end.

(** [rmatch r s cap k]: match [r] at the start of [s], then go on with [k]
    on the rest and the group captured so far. *)
Fixpoint rmatch {R : Type} (r : Re) (s : string) (cap : option string)
         (k : string -> option string -> option R) : option R :=
  match r with
  | Chars l =>
    match strip_prefix l s with
    | Some rest => k rest cap
    | None => None
    end
  | AnyPlus => any_plus s (fun rest => k rest cap)
  | Cap r' =>
    rmatch r' s cap (fun rest _ =>
      k rest (Some (take_string (String.length s - String.length rest) s)))
  | Seq r1 r2 => rmatch r1 s cap (fun rest cap' => rmatch r2 rest cap' k)
  end.

Definition mention : Re :=
  Seq (Chars "<https://matrix.to/#/@")
 (Seq AnyPlus (Seq (Chars ":")
 (Seq AnyPlus (Seq (Chars "|")
 (Seq (Cap AnyPlus) (Chars ">")))))).

(** A match of the pattern at the start of [s]: the number of characters
    matched, and [$1]. *)
Definition match_at (r : Re) (s : string) : option (nat * string) :=
  rmatch r s None (fun rest cap =>
    Some (String.length s - String.length rest, default "" cap)).

(** [s.replace(/r/g, "$1")]: the matches are looked for from left to
    right, each after the end of the one before; [skip] counts the
    characters of the current match still to pass over. *)
Fixpoint replace_from (r : Re) (skip : nat) (s : string) : string :=
  match s with
  | EmptyString => EmptyString
  | String c s' =>
    match skip with
    | S n => replace_from r n s'
    | O =>
      match match_at r s with
      | Some (n, group) => (group ++ replace_from r (Nat.pred n) s')%string
      | None => String c (replace_from r 0 s')
      end
    end
  end.

Definition replace_all (r : Re) (s : string) : string := replace_from r 0 s.

(** [matrixEvent.event_id]. *)
Definition event_id_of (v : Value) : Prog (option string) :=
  match v with
  | VEvent i => Ret (Some i)
  | VUndefined => Throw "TypeError"
  | _ => Ret None
  end.

Definition sendMessage (roomId : string) (msg : Content)
           (slackRoomID : string) (slackEventTS : Z) : Prog Value :=
  p ← call (SendMessage roomId msg);
  matrixEvent ← await p;
  incCounter "sent_messages" "matrix";;
  event_id ← event_id_of matrixEvent;
  p ← call (UpsertEvent (mkStoreEvent roomId event_id slackRoomID slackEventTS));
  _ ← await p;
  Ret matrixEvent.

Definition sendText (roomId text slackRoomID : string) (slackEventTS : Z)
  : Prog Value :=
  let body := replace_all mention text in
  let content := mkContent body "m.text" (Slackdown_parse text)
                           "org.matrix.custom.html" in
  sendMessage roomId content slackRoomID slackEventTS.

(** [buffer] of a plain (body only) response. *)
Definition buffer_of (v : Value) : Prog string :=
  match v with
  | VBuffer b => Ret b
  | _ => Throw "TypeError"
  end.

Definition uploadContentFromURI (file : File) (uri slackAccessToken : string)
  : Prog (option string) :=
  catch (p ← call (HttpGet uri (Some slackAccessToken) false);
         v ← await p;
         buffer ← buffer_of v;
         await_call (uploadContent (mkFile buffer (title file) (mimetype file))))
        (fun reason => Throw reason).

(** [Date.now ()]: the clock, in milliseconds. *)
Definition Date_now (w : World) : number := number_of_Z (now w).

Definition bumpATime : Prog unit :=
  Do (fun w => (with_ghost
                  (set_atime (Some (number_div (Date_now w) (number_of_Z 1000))))
                  w, tt)) Ret.

Definition aTime : Prog (option number) := this atime.

(** ** Running programs: the event loop *)

(** Where a call stands: it has returned or thrown, or it is parked,
    on a promise or (at the await of a call of the class) on nothing but
    the next turn of the event loop. *)
Inductive Susp (A : Type) : Type :=
| Finished (r : Err + A)
| Parked (on : option nat) (k : Outcome -> Prog A).

Arguments Finished {A} r.
Arguments Parked {A} on k.

Definition outcome_of (w : World) (p : nat) : option Outcome :=
  promises w !! p ≫= state.

(** Run a program up to its end or its first await. *)
Fixpoint run {A : Type} (m : Prog A) (w : World) : World * Susp A :=
  match m with
  | Ret a => (w, Finished (inr a))
  | Throw e => (w, Finished (inl e))
  | Do op k => let '(w', x) := op w in run (k x) w'
  | Await p k => (w, Parked (Some p) k)
  | Pause k => (w, Parked None (fun _ => k))
  end.

(** What a call of the public interface returns. *)
Inductive Result :=
| RUser (u : option ISlackUser)
| RString (s : option string)
| RValue (v : Value)
| RTime (t : option number)
| RVoid
| RFailed (e : Err).   (* undefined, after the failure was caught and logged *)

Record Task := mkTask {
  tid : nat;
  waits : option nat;
  cont : Outcome -> Prog Result
}.

Record Sys := mkSys {
  world : World;
  pool : list Task;                       (* the parked calls *)
  spawned : nat;                          (* calls started so far *)
  finished : list (nat * (Err + Result))  (* the calls that have ended *)
}.

(** The call number [t] runs up to its end or its next await. *)
Definition advance (t : nat) (m : Prog Result) (s : Sys) : Sys :=
  match run m (world s) with
  | (w, Finished r) => mkSys w (pool s) (spawned s) (finished s ++ [(t, r)])
  | (w, Parked p k) => mkSys w (pool s ++ [mkTask t p k]) (spawned s) (finished s)
  end.

Definition spawn (m : Prog Result) (s : Sys) : Sys :=
  advance (spawned s) m
          (mkSys (world s) (pool s) (S (spawned s)) (finished s)).

(** The public interface. *)
Inductive Call :=
| call_lookupUserInfo (slackUserId slackAccessToken : string)
| call_getDisplayname (slackUserId slackAccessToken : string)
| call_lookupAvatarUrl (slackUserId slackAccessToken : string)
| call_updateDisplayname (message : Message) (room : BridgedRoom)
| call_updateAvatar (message : Message) (room : BridgedRoom)
| call_update (message : Message) (room : BridgedRoom)
| call_sendText (roomId text slackRoomID : string) (slackEventTS : Z)
| call_sendMessage (roomId : string) (msg : Content)
                   (slackRoomID : string) (slackEventTS : Z)
| call_uploadContentFromURI (file : File) (uri slackAccessToken : string)
| call_uploadContent (file : File)
| call_bumpATime
| call_aTime.

(** [update] starts both synchronisations, each with its failure caught
    (and logged); [Promise.all] waits for the two. *)
Definition sync_name (message : Message) (room : BridgedRoom) : Prog Result :=
  catch (updateDisplayname message room ≫= fun v => Ret (RValue v))
        (fun e => Ret (RFailed e)).

Definition sync_avatar (message : Message) (room : BridgedRoom) : Prog Result :=
  catch (updateAvatar message room ≫= fun _ => Ret RVoid)
        (fun e => Ret (RFailed e)).

Definition update (message : Message) (room : BridgedRoom) : list (Prog Result) :=
  [sync_name message room; sync_avatar message room].

Definition programs (c : Call) : list (Prog Result) :=
  match c with
  | call_lookupUserInfo i t => [lookupUserInfo i t ≫= fun u => Ret (RUser u)]
  | call_getDisplayname i t => [getDisplayname i t ≫= fun n => Ret (RString n)]
  | call_lookupAvatarUrl i t => [lookupAvatarUrl i t ≫= fun n => Ret (RString n)]
  | call_updateDisplayname m r => [updateDisplayname m r ≫= fun v => Ret (RValue v)]
  | call_updateAvatar m r => [updateAvatar m r ≫= fun _ => Ret RVoid]
  | call_update m r => update m r
  | call_sendText r t s ts => [sendText r t s ts ≫= fun v => Ret (RValue v)]
  | call_sendMessage r m s ts => [sendMessage r m s ts ≫= fun v => Ret (RValue v)]
  | call_uploadContentFromURI f u t =>
    [uploadContentFromURI f u t ≫= fun n => Ret (RString n)]
  | call_uploadContent f => [uploadContent f ≫= fun n => Ret (RString n)]
  | call_bumpATime => [bumpATime ≫= fun _ => Ret RVoid]
  | call_aTime => [aTime ≫= fun t => Ret (RTime t)]
  end.

Definition invoke (c : Call) (s : Sys) : Sys :=
  foldl (fun s m => spawn m s) s (programs c).

(** Settling the promise [p]: its outcome is stored. *)
Definition store_outcome (p : nat) (o : Outcome) (w : World) : World :=
  mkWorld (ghost w) (main w) (now w) (timers w)
          (alter (fun pr => mkPromise (request pr) (Some o)) p (promises w)).

Definition settle (p : nat) (o : Outcome) (w : World) : World :=
  match promises w !! p with
  | Some (mkPromise _ None) => store_outcome p o w
  | _ => w
  end.

(** What a parked call goes on with, once it may go on. *)
Definition ready (w : World) (t : Task) : option Outcome :=
  match waits t with
  | Some p => outcome_of w p
  | None => Some (Resolved VUndefined)
  end.

(** The parked call number [i] goes on, if what it awaits is settled. *)
Definition continue (i : nat) (s : Sys) : Sys :=
  match list_find (fun t => tid t = i) (pool s) with
  | Some (n, t) =>
    match ready (world s) t with
    | Some o =>
      advance (tid t) (cont t o)
              (mkSys (world s) (delete n (pool s)) (spawned s) (finished s))
    | None => s
    end
  | None => s
  end.

(** The eviction callback of the oldest pending timer, once it is due. *)
Definition fire (w : World) : World :=
  match timers w with
  | due :: rest =>
    if (due <=? now w)%Z
    then mkWorld (set_userInfoCache None (ghost w)) (main w) (now w) rest
                 (promises w)
    else w
  | [] => w
  end.

Definition tick (dt : Z) (w : World) : World :=
  mkWorld (ghost w) (main w) (now w + Z.max 0 dt)%Z (timers w) (promises w).

Definition on_world (f : World -> World) (s : Sys) : Sys :=
  mkSys (f (world s)) (pool s) (spawned s) (finished s).

Inductive Event :=
| Invoke (c : Call)                 (* a call of the public interface *)
| Settle (p : nat) (o : Outcome)    (* a promise is fulfilled or rejected *)
| Continue (i : nat)                (* a parked call goes on *)
| Tick (dt : Z)                     (* time passes *)
| Fire.                             (* a due timer runs its callback *)

Definition step (s : Sys) (e : Event) : Sys :=
  match e with
  | Invoke c => invoke c s
  | Settle p o => on_world (settle p o) s
  | Continue i => continue i s
  | Tick dt => on_world (tick dt) s
  | Fire => on_world fire s
  end.

Definition steps (es : list Event) (s : Sys) : Sys := foldl step s es.

(** A ghost as the store hands it out, in an idle world. *)
Definition new_world (g : SlackGhost) (t : Z) : World :=
  mkWorld g (mkMain ∅ ∅) t [] [].

Definition idle (w : World) : Sys := mkSys w [] 0 [].

(** The number of [users.info] calls counted so far. *)
Definition remote_calls (w : World) : nat :=
  default 0 (remoteCalls (main w) !! "users.info").

(** The result of the call number [t], once it has ended. *)
Definition result_of (t : nat) (s : Sys) : option (Err + Result) :=
  snd <$> (snd <$> list_find (fun r => fst r = t) (finished s)).

(** One call run on its own to its end: it goes on at once where it
    awaits a call of the class or a settled promise, and when it parks on
    an unsettled promise, the environment [env] settles that promise. *)
Fixpoint exec {A : Type} (env : nat -> Outcome) (m : Prog A) (w : World)
  : World * (Err + A) :=
  match m with
  | Ret a => (w, inr a)
  | Throw e => (w, inl e)
  | Do op k => let '(w', x) := op w in exec env (k x) w'
  | Await p k =>
    match outcome_of w p with
    | Some o => exec env (k o) w
    | None => exec env (k (env p)) (store_outcome p (env p) w)
    end
  | Pause k => exec env k w
  end.

(** The requests issued so far, oldest first. *)
Definition requests (w : World) : list Request := request <$> promises w.

(** The writes to the puppet, and the writes to the store. *)
Definition puppet_write (r : Request) : bool :=
  match r with
  | SetDisplayName _ | SetAvatarUrl _ => true
  | _ => false
  end.

Definition store_write (r : Request) : bool :=
  match r with
  | PutUserToStore _ => true
  | _ => false
  end.

(** ** Spec-side definitions, to compare the code with *)

(** The avatar candidates of a profile, in the order of preference. *)
Definition candidates (p : Profile) : list (option string) :=
  [image_original p; image_1024 p; image_512 p; image_192 p; image_72 p; image_48 p].

(** The first candidate that is not absent. *)
Fixpoint first_present (l : list (option string)) : option string :=
  match l with
  | [] => None
  | Some s :: _ => Some s
  | None :: l' => first_present l'
  end.

(** The first candidate that is neither absent nor empty; when there is
    none, the last candidate as it is. *)
Fixpoint first_nonempty (l : list (option string)) : option string :=
  match l with
  | [] => None
  | [x] => x
  | x :: l' => if JS.truthy x then x else first_nonempty l'
  end.

(** ** The three ways through [lookupUserInfo], as functions

    What the method does to the world and what it returns, on each of its
    paths; the lemmas [run_lookupUserInfo_*] below prove that the method
    does exactly this. *)

(** What a caller that joined the fetch in flight gets from its outcome. *)
Definition joined_result (o : Outcome) : Err + option ISlackUser :=
  match o with
  | Rejected e => inl e
  | Resolved (VUserInfo r) => inr (user r)
  | Resolved VUndefined => inl "TypeError"
  | Resolved _ => inr None
  end.

(** The user that the caller which started the fetch caches: the response
    is well formed, it has a user and the user has a profile. *)
Definition cached_user (o : Outcome) : option ISlackUser :=
  match o with
  | Resolved (VUserInfo r) =>
    match user r with
    | Some u => match profile u with Some _ => Some u | None => None end
    | None => None
    end
  | _ => None
  end.

(** What the caller that started the fetch gets from its outcome. *)
Definition fetched_result (o : Outcome) : Err + option ISlackUser :=
  match o with
  | Rejected e => inl e
  | Resolved VUndefined => inl "TypeError"
  | Resolved _ => inr (cached_user o)
  end.

(** The world after the synchronous start of a fetch. *)
Definition start_fetch (slackUserId slackAccessToken : string) (w : World) : World :=
  mkWorld (set_userInfoLoading (Some (length (promises w))) (ghost w))
          (mkMain (<["users.info" := S (remote_calls w)]> (remoteCalls (main w)))
                  (counters (main w)))
          (now w) (timers w)
          (promises w ++ [mkPromise (UsersInfo slackAccessToken slackUserId) None]).

(** The world after the fetched user [u] is put in the cache. *)
Definition commit (u : ISlackUser) (w : World) : World :=
  mkWorld (set_userInfoLoading None (set_userInfoCache (Some u) (ghost w)))
          (main w) (now w)
          (timers w ++ [(now w + USER_CACHE_TIMEOUT)%Z]) (promises w).

Definition after_fetch (o : Outcome) (w : World) : World :=
  match cached_user o with
  | Some u => commit u w
  | None => w
  end.

(** [lookupUserInfo] run on its own, as a function of the world. *)
Definition lookup_alone (env : nat -> Outcome) (slackUserId slackAccessToken : string)
           (w : World) : World * (Err + option ISlackUser) :=
  match userInfoCache (ghost w) with
  | Some u => (w, inr (Some u))
  | None =>
    match userInfoLoading (ghost w) with
    | Some p =>
      match outcome_of w p with
      | Some o => (w, joined_result o)
      | None => (store_outcome p (env p) w, joined_result (env p))
      end
    | None =>
      let p := length (promises w) in
      (after_fetch (env p)
                   (store_outcome p (env p) (start_fetch slackUserId slackAccessToken w)),
       fetched_result (env p))
    end
  end.

(** The world after the request [r] is issued and its promise is settled
    with [o]. *)
Definition answered (r : Request) (o : Outcome) (w : World) : World :=
  store_outcome (length (promises w)) o (fst (issue r w)).

(** The name [getDisplayname] makes of a looked-up user. *)
Definition name_of (u : option ISlackUser) : option string :=
  p ← u ≫= profile; display_name p ||| real_name p.

(** What [updateDisplayname] does, run on its own, once the name is
    resolved to [n] (lines 86 to 92). *)
Definition push_name (env : nat -> Outcome) (n : option string) (w : World)
  : World * (Err + Value) :=
  if negb (JS.truthy n) || JS.eq (displayName (ghost w)) n
  then (w, inr VUndefined)
  else
    let o := env (length (promises w)) in
    let w1 := answered (SetDisplayName n) o w in
    match o with
    | Rejected e => (w1, inl e)
    | Resolved _ =>
      let w2 := with_ghost (set_displayName n) w1 in
      let o2 := env (length (promises w2)) in
      (answered (PutUserToStore (toEntry (ghost w2))) o2 w2,
       match o2 with
       | Resolved v => inr v
       | Rejected e => inl e
       end)
    end.

(** ** The cache entry and who may change it

    The cache entry is made of [userInfoCache], [userInfoLoading] and the
    pending evictions; with the clock, this is what the lookups depend
    on. *)
Definition cache_view (w : World)
  : option ISlackUser * option nat * list Z * Z :=
  (userInfoCache (ghost w), userInfoLoading (ghost w), timers w, now w).

(** A program that leaves the cache entry and the clock alone. *)
Fixpoint neutral {A : Type} (m : Prog A) : Prop :=
  match m with
  | Ret _ => True
  | Throw _ => True
  | Do op k => (∀ w, cache_view (fst (op w)) = cache_view w) ∧ ∀ x, neutral (k x)
  | Await _ k => ∀ o, neutral (k o)
  | Pause k => neutral k
  end.

Definition neutral_susp {A : Type} (r : Susp A) : Prop :=
  match r with
  | Finished _ => True
  | Parked _ k => ∀ o, neutral (k o)
  end.

(** What the caller that started the fetch may do to the entry when it
    goes on: nothing, or put a user in the cache, clear the handle and
    schedule the eviction. *)
Definition commits (w w' : World) : Prop :=
  cache_view w' = cache_view w ∨
  ∃ u, cache_view w' = (Some u, None, [(now w + USER_CACHE_TIMEOUT)%Z], now w).

Definition fetching {A : Type} (k : Outcome -> Prog A) : Prop :=
  ∀ o w, userInfoCache (ghost w) = None → timers w = [] →
         commits w (fst (run (k o) w)) ∧ neutral_susp (snd (run (k o) w)).

(** A program that, up to its first await, either leaves the entry
    alone, or (the entry being empty) starts the fetch and parks on it. *)
Definition starter {A : Type} (m : Prog A) : Prop :=
  ∀ w,
    (cache_view (fst (run m w)) = cache_view w ∧ neutral_susp (snd (run m w))) ∨
    (userInfoCache (ghost w) = None ∧ userInfoLoading (ghost w) = None ∧
     ∃ w' p k, run m w = (w', Parked (Some p) k) ∧
               cache_view w' = (None, Some p, timers w, now w) ∧
               remote_calls w' = S (remote_calls w) ∧
               fetching k).

Definition neutral_task (t : Task) : Prop := ∀ o, neutral (cont t o).

(** The parked calls: all leave the entry alone, but at most one, the call
    that started the fetch in flight; [userInfoLoading] is then the
    promise it waits for, and nothing is cached. *)
Inductive pool_ok (w : World) : list Task -> bool -> Prop :=
| pool_ok_nil : pool_ok w [] false
| pool_ok_neutral t ts b :
    neutral_task t → pool_ok w ts b → pool_ok w (t :: ts) b
| pool_ok_fetcher t ts p :
    fetching (cont t) →
    waits t = Some p →
    userInfoCache (ghost w) = None →
    userInfoLoading (ghost w) = Some p →
    pool_ok w ts false → pool_ok w (t :: ts) true.

(** The entry is [Empty] (nothing cached, no eviction pending), or it is
    [Cached]: then no fetch is in flight and exactly one eviction is
    pending. *)
Definition entry_ok (w : World) : Prop :=
  match userInfoCache (ghost w) with
  | None => timers w = []
  | Some _ => userInfoLoading (ghost w) = None ∧ ∃ due, timers w = [due]
  end.

Definition cache_inv (s : Sys) : Prop :=
  entry_ok (world s) ∧ ∃ b, pool_ok (world s) (pool s) b.

(** What a call, or a parked call that goes on, may do to the entry: the clock stands
    still; a cached user stays as it is; and when a user gets cached, its
    eviction is the only one pending, due one timeout from now. *)
Definition quiet (w w' : World) : Prop :=
  now w' = now w ∧
  (is_Some (userInfoCache (ghost w)) → cache_view w' = cache_view w) ∧
  (userInfoCache (ghost w) = None → is_Some (userInfoCache (ghost w')) →
   timers w' = [(now w + USER_CACHE_TIMEOUT)%Z]).

(** ** Calls side by side: rely and guarantee

    [wp St G m Φ w0 w]: the program [m], at the world [w] of a synchronous
    stretch that began at [w0], keeps to its contract.  Each stretch,
    from its beginning to the point where the call parks or ends, is
    within [G]; while the call is parked the world may change within
    [St]; and when the call ends with [r] in the stretch from [w0'] to
    [w'], [Φ r w0' w'] holds. *)
Fixpoint wp {A : Type} (St G : World -> World -> Prop) (m : Prog A)
         (Φ : Err + A -> World -> World -> Prop) (w0 w : World) : Prop :=
  match m with
  | Ret a => Φ (inr a) w0 w
  | Throw e => Φ (inl e) w0 w
  | Do op k => wp St G (k (snd (op w))) Φ w0 (fst (op w))
  | Await p k =>
    G w0 w ∧
    ∀ w' o, St w w' → outcome_of w' p = Some o → wp St G (k o) Φ w' w'
  | Pause k => G w0 w ∧ ∀ w', St w w' → wp St G k Φ w' w'
  end.

(** A settled promise stays settled, with the same outcome. *)
Definition persist (w w' : World) : Prop :=
  ∀ p o, outcome_of w p = Some o → outcome_of w' p = Some o.

(** The contract of the call number [i] is made of what it relies on
    ([St i]), what it guarantees ([G i]) and what holds once it has ended
    ([Q i]). *)
Definition post (G : nat → World → World → Prop)
           (Q : nat → Err + Result → World → Prop)
           (i : nat) (r : Err + Result) (w0 w : World) : Prop :=
  G i w0 w ∧ Q i r w.

Definition parked_ok (St G : nat → World → World → Prop)
           (Q : nat → Err + Result → World → Prop)
           (t : Task) (w : World) : Prop :=
  ∀ w' o, St (tid t) w w' → ready w' t = Some o →
          wp (St (tid t)) (G (tid t)) (cont t o) (post G Q (tid t)) w' w'.

(** The calls in [ts] are parked and those in [fin] have ended, in the
    world [w], each within its contract; no two of them have the same
    number, and all numbers are below [n]. *)
Definition calls_ok (St G : nat → World → World → Prop)
           (Q : nat → Err + Result → World → Prop)
           (w : World) (ts : list Task)
           (fin : list (nat * (Err + Result))) (n : nat) : Prop :=
  NoDup ((tid <$> ts) ++ (fst <$> fin)) ∧
  (∀ i, i ∈ (tid <$> ts) ++ (fst <$> fin) → i < n) ∧
  (∀ t, t ∈ ts → parked_ok St G Q t w) ∧
  (∀ i r, (i, r) ∈ fin → Q i r w).

Definition sys_ok (St G : nat → World → World → Prop)
           (Q : nat → Err + Result → World → Prop) (s : Sys) : Prop :=
  calls_ok St G Q (world s) (pool s) (finished s) (spawned s).

(** The numbers of the calls of a system. *)
Definition numbers (s : Sys) : list nat :=
  (tid <$> pool s) ++ (fst <$> finished s).

(** ** The contracts of the two synchronisations of [update] *)

(** What a lookup delivers without a fetch: the cached user, or what
    the settled promise in [userInfoLoading] delivers to a caller that
    joins it. *)
Definition answer (w : World) : option (Err + option ISlackUser) :=
  match userInfoCache (ghost w) with
  | Some u => Some (inr (Some u))
  | None =>
    match userInfoLoading (ghost w) with
    | Some p => joined_result <$> outcome_of w p
    | None => None
    end
  end.

Definition profile_of (a : Err + option ISlackUser) : Err + option Profile :=
  match a with
  | inl e => inl e
  | inr u => inr (u ≫= profile)
  end.

Definition known_profile (w : World) : option (Err + option Profile) :=
  profile_of <$> answer w.

Definition name_of_profile (pr : option Profile) : option string :=
  p ← pr; display_name p ||| real_name p.

Definition avatar_of_profile (pr : option Profile) : option string :=
  p ← pr;
  image_original p ||| image_1024 p ||| image_512 p ||| image_192 p |||
  image_72 p ||| image_48 p.

Definition name_write (r : Request) : bool :=
  match r with
  | SetDisplayName _ => true
  | _ => false
  end.

Definition avatar_write (r : Request) : bool :=
  match r with
  | SetAvatarUrl _ => true
  | _ => false
  end.

(** What belongs to the display-name synchronisation, and what belongs to
    the avatar synchronisation. *)
Definition name_view (w : World) : option string * list Request :=
  (displayName (ghost w), filter name_write (requests w)).

Definition avatar_view (w : World) : option string * list Request :=
  (avatarUrl (ghost w), filter avatar_write (requests w)).

(** How the cache entry may change while no eviction runs: the profile a
    lookup delivers, once known, stays the same; and a fetch in flight
    stays in flight until its promise is settled, and then determines the
    profile. *)
Definition base (w w' : World) : Prop :=
  persist w w' ∧
  (∀ x, known_profile w = Some x → known_profile w' = Some x) ∧
  (∀ p, userInfoCache (ghost w) = None → userInfoLoading (ghost w) = Some p →
        match outcome_of w' p with
        | None => userInfoCache (ghost w') = None ∧
                  userInfoLoading (ghost w') = Some p
        | Some o => known_profile w' = Some (profile_of (joined_result o))
        end).

(** The call number 0 is the display-name synchronisation, the call
    number 1 the avatar synchronisation: each relies on the other (and on
    everything else) to leave its view alone. *)
Definition rely (i : nat) (w w' : World) : Prop :=
  base w w' ∧
  (i = 0 → name_view w' = name_view w) ∧
  (i = 1 → avatar_view w' = avatar_view w).

Definition guar (i : nat) (w w' : World) : Prop :=
  base w w' ∧
  (i ≠ 0 → name_view w' = name_view w) ∧
  (i ≠ 1 → avatar_view w' = avatar_view w).

(** A step that touches neither view. *)
Definition own (w w' : World) : Prop :=
  base w w' ∧ name_view w' = name_view w ∧ avatar_view w' = avatar_view w.

(** The call ended without a failure caught and logged. *)
Definition succeeded (r : Err + Result) : bool :=
  match r with
  | inl _ => false
  | inr (RFailed _) => false
  | inr _ => true
  end.

(** The stored name is the one [updateDisplayname] resolves: a further
    call has nothing to do. *)
Definition name_settled (message : Message) (room : BridgedRoom) (w : World) : Prop :=
  JS.truthy (AccessToken room) = false ∨
  ∃ n, (if JS.truthy (user_name message) then n = user_name message
        else ∃ pr, known_profile w = Some (inr pr) ∧ n = name_of_profile pr) ∧
       (JS.truthy n = false ∨ displayName (ghost w) = n).

(** The stored avatar is the one [updateAvatar] resolves (or that one has
    no file name to upload under): a further call has nothing to do. *)
Definition avatar_settled (room : BridgedRoom) (w : World) : Prop :=
  JS.truthy (AccessToken room) = false ∨
  ∃ pr, known_profile w = Some (inr pr) ∧
        (JS.truthy (avatar_of_profile pr) = false ∨
         avatarUrl (ghost w) = avatar_of_profile pr ∨
         avatar_of_profile pr ≫= match_last_segment = None).

(** The name that [updateDisplayname] resolves in the world [w]: the
    inline name if there is one, and the name of the looked-up profile
    otherwise. *)
Definition resolved_name (message : Message) (w : World) (n : option string) : Prop :=
  if JS.truthy (user_name message) then n = user_name message
  else ∃ pr, known_profile w = Some (inr pr) ∧ n = name_of_profile pr.

(** The puppet writes of one synchronisation since [w0]: none, and the
    stored value is as it was; or exactly one, and the stored value is as
    it was or the value written. *)
Definition name_log (w0 w : World) : Prop :=
  name_view w = name_view w0 ∨
  ∃ n, filter name_write (requests w)
       = filter name_write (requests w0) ++ [SetDisplayName n] ∧
       (displayName (ghost w) = displayName (ghost w0) ∨
        displayName (ghost w) = n).

Definition avatar_log (w0 w : World) : Prop :=
  avatar_view w = avatar_view w0 ∨
  ∃ uri, filter avatar_write (requests w)
         = filter avatar_write (requests w0) ++ [SetAvatarUrl uri].

Definition update_post (message : Message) (room : BridgedRoom) (w0 : World)
           (i : nat) (r : Err + Result) (w : World) : Prop :=
  match i with
  | 0 => name_log w0 w ∧ (succeeded r = true → name_settled message room w)
  | 1 => avatar_log w0 w ∧ (succeeded r = true → avatar_settled room w)
  | _ => True
  end.

(** The turns of the event loop while no call comes in and no timer
    runs: a promise is settled, or a parked call goes on. *)
Inductive Turn :=
| Settles (p : nat) (o : Outcome)
| Continues (i : nat).

Definition turn_event (t : Turn) : Event :=
  match t with
  | Settles p o => Settle p o
  | Continues i => Continue i
  end.

Definition turns (l : list Turn) : list Event := turn_event <$> l.

(** ** A second update

    What the calls of a second update rely on and guarantee: settled
    promises stay settled, no request is issued and the ghost is as it
    was. *)
Definition still (w w' : World) : Prop :=
  persist w w' ∧ requests w' = requests w ∧ ghost w' = ghost w.

Definition ended_well (i : nat) (r : Err + Result) (w : World) : Prop :=
  succeeded r = true.

(** A call run on its own with what is settled: where it ends, if it
    awaits nothing that is still unsettled. *)
Fixpoint finish {A : Type} (m : Prog A) (w : World) : option (World * (Err + A)) :=
  match m with
  | Ret a => Some (w, inr a)
  | Throw e => Some (w, inl e)
  | Do op k => let '(w', x) := op w in finish (k x) w'
  | Await p k => o ← outcome_of w p; finish (k o) w
  | Pause k => finish k w
  end.

(** ** The mention link, written out

    The text the regular expression of [sendText] is there for: a Slack
    link to a matrix.to permalink of a user, with its display text. *)
Definition mention_link (user host display : string) : string :=
  ("<https://matrix.to/#/@" ++ user ++ ":" ++ host ++ "|" ++ display ++ ">")%string.

(** Whether the character [c] is in [s]. *)
Fixpoint has_char (c : ascii) (s : string) : bool :=
  match s with
  | EmptyString => false
  | String d s' => Ascii.eqb d c || has_char c s'
  end.

(** A text without line terminators, which [.] consumes whole. *)
Fixpoint one_line (s : string) : bool :=
  match s with
  | EmptyString => true
  | String c s' => negb (line_terminator c) && one_line s'
  end.

(** ** What the relays leave behind *)

(** The count of messages sent to Matrix. *)
Definition sent_messages (w : World) : nat :=
  default 0 (counters (main w) !! ("sent_messages", "matrix")).

(** The request [r] was issued and its promise was fulfilled. *)
Definition fulfilled (w : World) (r : Request) : Prop :=
  ∃ p v, promises w !! p = Some (mkPromise r (Some (Resolved v))).

(** What [updateAvatar] does, run on its own, once the avatar is resolved
    to [url] (lines 148 to 171). *)
Definition push_avatar (env : nat -> Outcome) (url : option string) (w : World)
  : World * (Err + unit) :=
  if negb (JS.truthy url) || JS.eq (avatarUrl (ghost w)) url
  then (w, inr tt)
  else
    match url ≫= match_last_segment with
    | None => (w, inr tt)
    | Some shortname =>
      let o1 := env (length (promises w)) in
      let w1 := answered (HttpGet (default "" url) None true) o1 w in
      match o1 with
      | Rejected e => (w1, inl e)
      | Resolved (VFull content content_type) =>
        let o2 := env (length (promises w1)) in
        let w2 := answered (UploadContent
                              (mkFile content (Some shortname) content_type))
                           o2 w1 in
        match o2 with
        | Rejected e => (w2, inl e)
        | Resolved (VUploaded contentUri) =>
          let o3 := env (length (promises w2)) in
          let w3 := answered (SetAvatarUrl contentUri) o3 w2 in
          match o3 with
          | Rejected e => (w3, inl e)
          | Resolved _ =>
            let w4 := with_ghost (set_avatarUrl url) w3 in
            (fst (issue (PutUserToStore (toEntry (ghost w4))) w4), inr tt)
          end
        | Resolved _ => (w2, inl "SyntaxError")
        end
      | Resolved _ => (w1, inl "TypeError")
      end
    end.

(** ** Invariants of the state, under all calls and events *)

(** A state invariant as a contract: once it holds, it holds on. *)
Definition since (I : World → Prop) (w w' : World) : Prop := I w → I w'.

(** A program each of whose steps keeps [I]. *)
Fixpoint steady {A : Type} (I : World → Prop) (m : Prog A) : Prop :=
  match m with
  | Ret _ => True
  | Throw _ => True
  | Do op k => (∀ w, I w → I (fst (op w))) ∧ ∀ x, steady I (k x)
  | Await _ k => ∀ o, steady I (k o)
  | Pause k => steady I k
  end.

(** A program that, started where [I] holds and run side by side with
    calls that keep [I], has [I] wherever it parks and where it ends. *)
Definition stays {A : Type} (I : World → Prop) (m : Prog A) : Prop :=
  ∀ w0 w, I w0 → I w →
          wp (since I) (since I) m (fun _ w0' w' => I w0' ∧ I w') w0 w.

(** The events that bring in allowed calls only. *)
Definition event_ok (allowed : Call → Prop) (e : Event) : Prop :=
  match e with
  | Invoke c => allowed c
  | _ => True
  end.

(** Every call but [bumpATime]. *)
Definition other_than_bumpATime (c : Call) : Prop :=
  match c with
  | call_bumpATime => False
  | _ => True
  end.

(** Every call but [update] and the two synchronisations. *)
Definition leaves_entry (c : Call) : Prop :=
  match c with
  | call_update _ _ | call_updateDisplayname _ _ | call_updateAvatar _ _ => False
  | _ => True
  end.

(** The contract of a call of [update]: its first two calls, the
    synchronisations, end with a value. *)
Definition caught (i : nat) (r : Err + Result) (w : World) : Prop :=
  i < 2 → ∃ v, r = inr v.

(** The contract that allows any change of the state. *)
Definition any_change (i : nat) (w w' : World) : Prop := True.

(** The lookups of the Slack profile. *)
Definition is_users_info (r : Request) : bool :=
  match r with
  | UsersInfo _ _ => true
  | _ => false
  end.

(** What the lookups are about: the cache entry, the handle of the fetch
    under way, the timers, the remote-call counter and the [users.info]
    requests. *)
Definition fetch_view (w : World)
  : option ISlackUser * option nat * list Z * option nat * list Request :=
  (userInfoCache (ghost w), userInfoLoading (ghost w), timers w,
   remoteCalls (main w) !! "users.info", filter is_users_info (requests w)).

(** A program that leaves all of that as it is. *)
Definition frames {A : Type} (m : Prog A) : Prop :=
  ∀ c, steady (fun w => fetch_view w = c) m.

(** Every [users.info] request has been counted, once. *)
Definition users_info_counted (w : World) : Prop :=
  remote_calls w = length (filter is_users_info (requests w)).

(** The contract of a call that leaves [view] as it is, in each of its
    stretches. *)
Definition keeps {X : Type} (view : World → X) (i : nat) (w w' : World) : Prop :=
  view w' = view w.

(** The contract that asks nothing of the result. *)
Definition any_result (i : nat) (r : Err + Result) (w : World) : Prop := True.

(** The activity time, as the record has it. *)
Definition atime_of (w : World) : option number := atime (ghost w).

(** * Properties *)

(** ** The monad and the two ways of running it *)

Lemma run_bind {A B : Type} (m : Prog A) (f : A -> Prog B) (w : World) :
  run (m ≫= f) w =
  match run m w with
  | (w', Finished (inr a)) => run (f a) w'
  | (w', Finished (inl e)) => (w', Finished (inl e))
  | (w', Parked p k) => (w', Parked p (fun o => k o ≫= f))
  end.
Proof.
  revert w. induction m as [a|e|X op k IH|p k IH|k IH]; intros w; simpl; try done.
  destruct (op w) as [w' x]. apply IH.
Qed.

Lemma exec_bind {A B : Type} env (m : Prog A) (f : A -> Prog B) (w : World) :
  exec env (m ≫= f) w =
  match exec env m w with
  | (w', inr a) => exec env (f a) w'
  | (w', inl e) => (w', inl e)
  end.
Proof.
  revert w. induction m as [a|e|X op k IH|p k IH|k IH]; intros w; simpl; try done.
  - destruct (op w) as [w' x]. apply IH.
  - destruct (outcome_of w p) as [o|]; apply IH.
Qed.

Lemma exec_catch {A : Type} env (m : Prog A) (h : Err -> Prog A) (w : World) :
  exec env (catch m h) w =
  match exec env m w with
  | (w', inr a) => (w', inr a)
  | (w', inl e) => exec env (h e) w'
  end.
Proof.
  revert w. induction m as [a|e|X op k IH|p k IH|k IH]; intros w; simpl; try done.
  - destruct (op w) as [w' x]. apply IH.
  - destruct (outcome_of w p) as [o|]; apply IH.
Qed.

(** Run on its own, a call of the class that is awaited is the call. *)
Lemma exec_await_call {A : Type} env (m : Prog A) (w : World) :
  exec env (await_call m) w = exec env m w.
Proof.
  unfold await_call. rewrite exec_catch. change (m ≫= _) with (bind m (fun x => Pause (Ret x))).
  change (exec env (bind m ?f) w) with (exec env (m ≫= f) w).
  rewrite exec_bind. by destruct (exec env m w) as [w' [e|a]].
Qed.

(** [exec] is [run], gone on with by the environment each time it parks. *)
Lemma exec_run {A : Type} env (m : Prog A) (w : World) :
  exec env m w =
  match run m w with
  | (w', Finished r) => (w', r)
  | (w', Parked (Some p) k) =>
    match outcome_of w' p with
    | Some o => exec env (k o) w'
    | None => exec env (k (env p)) (store_outcome p (env p) w')
    end
  | (w', Parked None k) => exec env (k (Resolved VUndefined)) w'
  end.
Proof.
  revert w. induction m as [a|e|X op k IH|p k IH|k IH]; intros w; simpl; try done.
  destruct (op w) as [w' x]. apply IH.
Qed.

(** ** The entry round trip *)

(** C8: [toEntry (fromEntry entry)] gives back the three fields of every
    entry, and the entry of a ghost is made of [userId], [displayName] and
    [avatarUrl] alone: whatever the activity time, the user-info cache and
    the in-flight handle hold, the entry is the same. *)
Theorem toEntry_fromEntry :
  (∀ entry : Entry.t, toEntry (fromEntry entry) = entry) ∧
  (∀ (g : SlackGhost) a c l,
      toEntry (mkGhost a c l (userId g) (displayName g) (avatarUrl g))
      = toEntry g) ∧
  (∀ (es : list Event) (s : Sys),
      let g := ghost (world (steps es s)) in
      toEntry g = Entry.mk (userId g) (displayName g) (avatarUrl g)).
Proof.
  split; [|split].
  - by intros [i d a].
  - done.
  - done.
Qed.

(** ** The avatar choice *)

Lemma or_chain_first_nonempty (a b c d e f : option string) :
  a ||| b ||| c ||| d ||| e ||| f = first_nonempty [a; b; c; d; e; f].
Proof.
  unfold JS.or; simpl.
  repeat match goal with
         | |- context [JS.truthy ?x] =>
           is_var x; let H := fresh in
           destruct (JS.truthy x) eqn:H; simpl; rewrite ?H; simpl
         end; done.
Qed.

Lemma or_first_nonempty (p : Profile) :
  image_original p ||| image_1024 p ||| image_512 p ||| image_192 p |||
  image_72 p ||| image_48 p = first_nonempty (candidates p).
Proof. apply or_chain_first_nonempty. Qed.

(** C5, as stated, fails: with [image_original] the empty string and
    [image_1024 = "a"], the first candidate that is not absent is the empty
    string, and [lookupAvatarUrl] returns ["a"]. *)
Lemma lookupAvatarUrl_skips_empty_candidate :
  let p := mkProfile None None (Some "") (Some "a") None None None None in
  let w := new_world (mkGhost None (Some (mkUser (Some p))) None None None None) 0 in
  let s := steps [Invoke (call_lookupAvatarUrl "U1" "xoxb"); Continue 0] (idle w) in
  first_present (candidates p) = Some "" ∧
  result_of 0 s = Some (inr (RString (Some "a"))) ∧
  RString (Some "a") ≠ RString (first_present (candidates p)).
Proof. split; [done|split; [by vm_compute|by simpl]]. Qed.

(** C5, amended: [lookupAvatarUrl] returns, for the profile that
    [lookupUserInfo] delivers, the first candidate in the order
    [image_original], [image_1024], [image_512], [image_192], [image_72],
    [image_48] that is neither absent nor the empty string (and
    [image_48] as it is when there is none); a lookup without a user or
    without a profile gives no avatar.  With only [image_512 = "b"] and
    [image_192 = "c"] the result is ["b"]. *)
Theorem lookupAvatarUrl_first_nonempty :
  (∀ env (i t : string) (w : World),
      exec env (lookupAvatarUrl i t) w =
      match exec env (lookupUserInfo i t) w with
      | (w', inr u) =>
        (w', inr (p ← u ≫= profile; first_nonempty (candidates p)))
      | (w', inl e) => (w', inl e)
      end) ∧
  (∀ (i t : string) (g : SlackGhost) (t0 : Z),
      let p := mkProfile None None None None (Some "b") (Some "c") None None in
      let w := new_world (set_userInfoCache (Some (mkUser (Some p))) g) t0 in
      let s := steps [Invoke (call_lookupAvatarUrl i t); Continue 0] (idle w) in
      world s = w ∧ pool s = [] ∧ result_of 0 s = Some (inr (RString (Some "b")))).
Proof.
  split.
  - intros env i t w. unfold lookupAvatarUrl. rewrite exec_bind, exec_await_call.
    destruct (exec env (lookupUserInfo i t) w) as [w' [e|[[[p|]]|]]]; simpl; try done.
    by rewrite or_first_nonempty.
  - done.
Qed.

(** ** The paths of [lookupUserInfo] *)

Lemma outcome_of_new r (w : World) :
  outcome_of (fst (issue r w)) (length (promises w)) = None.
Proof.
  unfold outcome_of; simpl.
  by rewrite lookup_app_r, Nat.sub_diag by lia.
Qed.

Lemma outcome_of_fresh g m n t l r :
  outcome_of (mkWorld g m n t (l ++ [mkPromise r None])) (length l) = None.
Proof.
  unfold outcome_of; simpl.
  by rewrite lookup_app_r, Nat.sub_diag by lia.
Qed.

Lemma requests_store_outcome p o (w : World) :
  requests (store_outcome p o w) = requests w.
Proof.
  unfold requests, store_outcome; simpl.
  apply list_eq; intros j. rewrite !list_lookup_fmap.
  destruct (decide (j = p)) as [->|Hne].
  - rewrite list_lookup_alter_eq. by destruct (promises w !! p).
  - by rewrite list_lookup_alter_ne.
Qed.

Lemma outcome_of_store_outcome p o (w : World) :
  p < length (promises w) → outcome_of (store_outcome p o w) p = Some o.
Proof.
  intros Hp. unfold outcome_of, store_outcome; simpl.
  rewrite list_lookup_alter_eq.
  destruct (lookup_lt_is_Some_2 (promises w) p Hp) as [pr ->]. done.
Qed.

(** The cache holds a user: it is returned at once, the world is as it
    was. *)
Lemma run_lookupUserInfo_cached (i t : string) (w : World) u :
  userInfoCache (ghost w) = Some u →
  run (lookupUserInfo i t) w = (w, Finished (inr (Some u))).
Proof. intros H. unfold lookupUserInfo; simpl. by rewrite H. Qed.

(** A fetch is in flight (or was left behind): the call awaits it. *)
Lemma run_lookupUserInfo_loading (i t : string) (w : World) p :
  userInfoCache (ghost w) = None →
  userInfoLoading (ghost w) = Some p →
  ∃ k, run (lookupUserInfo i t) w = (w, Parked (Some p) k) ∧
       ∀ o w', run (k o) w' = (w', Finished (joined_result o)).
Proof.
  intros Hc Hl. unfold lookupUserInfo; simpl. rewrite Hc; simpl. rewrite Hl; simpl.
  eexists; split; [done|].
  intros o w'. by destruct o as [[[[u|]]| | | | | |]|e].
Qed.

(** Nothing cached, nothing in flight: the call counts a remote call,
    issues the request and parks on it; when it goes on, a well-formed
    user goes to the cache. *)
Lemma run_lookupUserInfo_fresh (i t : string) (w : World) :
  userInfoCache (ghost w) = None →
  userInfoLoading (ghost w) = None →
  ∃ k, run (lookupUserInfo i t) w
       = (start_fetch i t w, Parked (Some (length (promises w))) k) ∧
       ∀ o w', run (k o) w' = (after_fetch o w', Finished (fetched_result o)).
Proof.
  intros Hc Hl. unfold lookupUserInfo; simpl. rewrite Hc; simpl. rewrite Hl; simpl.
  eexists; split; [done|].
  intros o w'. unfold after_fetch.
  by destruct o as [[[[[[pr|]]|]]| | | | | |]|e].
Qed.

Lemma exec_lookupUserInfo env (i t : string) (w : World) :
  exec env (lookupUserInfo i t) w = lookup_alone env i t w.
Proof.
  rewrite exec_run. unfold lookup_alone.
  destruct (userInfoCache (ghost w)) as [u|] eqn:Hc.
  { by rewrite (run_lookupUserInfo_cached i t w u Hc). }
  destruct (userInfoLoading (ghost w)) as [p|] eqn:Hl.
  - destruct (run_lookupUserInfo_loading i t w p Hc Hl) as (k & -> & Hk).
    destruct (outcome_of w p) as [o|]; by rewrite exec_run, Hk.
  - destruct (run_lookupUserInfo_fresh i t w Hc Hl) as (k & -> & Hk).
    unfold start_fetch at 1. rewrite outcome_of_fresh.
    by rewrite exec_run, Hk.
Qed.

(** ** The cache is the ghost's, not the subject's *)

(** C9: once [userInfoCache] holds a user, or a fetch is in flight,
    [lookupUserInfo] does the same for every [slackUserId] and
    [slackAccessToken]: it returns the cached user at once, or awaits the
    promise in flight and returns what that promise delivers; it counts no
    remote call and issues no request.

    With the cache empty and the handle [p] set, the call parks on the
    promise [p], in the world as it was; and when it goes on with the
    outcome [o] of [p], it ends at once, the world as it is then, with
    what [o] delivers: the error of a rejection, the [user] of a
    [users.info] response (or [undefined] when there is none).  Run on
    its own, it returns what the outcome of [p] delivers, be that outcome
    known already or still to come. *)
Theorem lookupUserInfo_ignores_arguments
        (w : World) (i t i' t' : string) :
  is_Some (userInfoCache (ghost w)) ∨ is_Some (userInfoLoading (ghost w)) →
  run (lookupUserInfo i t) w = run (lookupUserInfo i' t') w ∧
  fst (run (lookupUserInfo i t) w) = w ∧
  (∀ u, userInfoCache (ghost w) = Some u →
        run (lookupUserInfo i t) w = (w, Finished (inr (Some u)))) ∧
  (∀ p, userInfoCache (ghost w) = None → userInfoLoading (ghost w) = Some p →
        (∃ k, run (lookupUserInfo i t) w = (w, Parked (Some p) k) ∧
              (∀ e w', run (k (Rejected e)) w' = (w', Finished (inl e))) ∧
              (∀ r w', run (k (Resolved (VUserInfo r))) w'
                       = (w', Finished (inr (user r)))) ∧
              (∀ o w', run (k o) w' = (w', Finished (joined_result o)))) ∧
        (∀ env, snd (exec env (lookupUserInfo i t) w)
                = joined_result (default (env p) (outcome_of w p)))) ∧
  (∀ env, exec env (lookupUserInfo i t) w = exec env (lookupUserInfo i' t') w ∧
          remote_calls (fst (exec env (lookupUserInfo i t) w)) = remote_calls w ∧
          requests (fst (exec env (lookupUserInfo i t) w)) = requests w).
Proof.
  intros H.
  assert (run (lookupUserInfo i t) w = run (lookupUserInfo i' t') w ∧
          fst (run (lookupUserInfo i t) w) = w) as [Hrun Hw].
  { unfold lookupUserInfo; simpl.
    destruct (userInfoCache (ghost w)) as [u|]; simpl; [done|].
    destruct (userInfoLoading (ghost w)) as [p|]; simpl.
    - destruct (outcome_of w p) as [[[[[u|]]| | | | | |]|e]|]; done.
    - destruct H as [[? [=]]|[? [=]]]. }
  split; [done|]. split; [done|]. split; [|split; [|intros env; repeat split]].
  - intros u Hu. by apply run_lookupUserInfo_cached.
  - intros p Hc Hl. split.
    + destruct (run_lookupUserInfo_loading i t w p Hc Hl) as (k & Hk & Hgo).
      exists k. split; [done|]. split; [|split; [|done]].
      * intros e w'. by rewrite Hgo.
      * intros r w'. by rewrite Hgo.
    + intros env. rewrite exec_lookupUserInfo. unfold lookup_alone.
      rewrite Hc, Hl. by destruct (outcome_of w p).
  - rewrite !exec_lookupUserInfo. unfold lookup_alone.
    destruct (userInfoCache (ghost w)); [done|].
    destruct (userInfoLoading (ghost w)); [done|].
    destruct H as [[? [=]]|[? [=]]].
  - rewrite exec_lookupUserInfo. unfold lookup_alone.
    destruct (userInfoCache (ghost w)); [done|].
    destruct (userInfoLoading (ghost w)) as [p|].
    + by destruct (outcome_of w p).
    + destruct H as [[? [=]]|[? [=]]].
  - rewrite exec_lookupUserInfo. unfold lookup_alone.
    destruct (userInfoCache (ghost w)); [done|].
    destruct (userInfoLoading (ghost w)) as [p|].
    + destruct (outcome_of w p); [done|]. apply requests_store_outcome.
    + destruct H as [[? [=]]|[? [=]]].
Qed.

Lemma lookupUserInfo_ignores_arguments_witness :
  let w0 := new_world (fromEntry (Entry.mk (Some "U1") (Some "Bob") None)) 0 in
  let w := world (invoke (call_lookupUserInfo "U1" "xoxb-1") (idle w0)) in
  let u := mkUser (Some (mkProfile (Some "Bobby") None None None None None None None)) in
  let env := fun _ : nat => Resolved (VUserInfo (mkUserInfo (Some u))) in
  userInfoLoading (ghost w) = Some 0 ∧
  run (lookupUserInfo "U1" "xoxb-1") w = run (lookupUserInfo "U2" "xoxb-2") w ∧
  snd (exec env (lookupUserInfo "U2" "xoxb-2") w) = inr (Some u).
Proof.
  intros w0 w u env.
  pose proof (lookupUserInfo_ignores_arguments w "U1" "xoxb-1" "U2" "xoxb-2"
                (or_intror (ex_intro _ 0 eq_refl))) as (H1 & _ & _ & _ & H5).
  pose proof (lookupUserInfo_ignores_arguments w "U2" "xoxb-2" "U1" "xoxb-1"
                (or_intror (ex_intro _ 0 eq_refl))) as (_ & _ & _ & H4 & _).
  split; [reflexivity|]. split; [exact H1|].
  destruct (H4 0 eq_refl eq_refl) as [_ H6]. exact (H6 env).
Defined.

(** ** Calls run on their own *)

Lemma exec_call_await {A : Type} env (r : Request) (f : Value -> Prog A) (w : World) :
  exec env (p ← call r; v ← await p; f v) w =
  let o := env (length (promises w)) in
  match o with
  | Resolved v => exec env (f v) (answered r o w)
  | Rejected e => (answered r o w, inl e)
  end.
Proof.
  simpl. pose proof (outcome_of_new r w) as Hnew. simpl in Hnew. rewrite Hnew.
  unfold answered. simpl. by destruct (env (length (promises w))).
Qed.

Lemma requests_answered r o (w : World) :
  requests (answered r o w) = requests w ++ [r].
Proof.
  unfold answered. rewrite requests_store_outcome.
  unfold requests; simpl. by rewrite fmap_app.
Qed.

Lemma exec_getDisplayname env (i t : string) (w : World) :
  exec env (getDisplayname i t) w =
  match lookup_alone env i t w with
  | (w', inr u) => (w', inr (name_of u))
  | (w', inl e) => (w', inl e)
  end.
Proof.
  unfold getDisplayname. rewrite exec_bind, exec_await_call, exec_lookupUserInfo.
  by destruct (lookup_alone env i t w) as [w' [e|[[[p|]]|]]].
Qed.

Lemma requests_after_fetch o (w : World) :
  requests (after_fetch o w) = requests w.
Proof. unfold after_fetch. by destruct (cached_user o). Qed.

Lemma entry_after_fetch o (w : World) :
  toEntry (ghost (after_fetch o w)) = toEntry (ghost w).
Proof. unfold after_fetch. by destruct (cached_user o). Qed.

Lemma requests_start_fetch (i t : string) (w : World) :
  requests (start_fetch i t w) = requests w ++ [UsersInfo t i].
Proof. unfold requests; simpl. by rewrite fmap_app. Qed.

(** A lookup leaves the stored record and the writes alone. *)
Lemma lookup_alone_frame env (i t : string) (w : World) :
  let w' := fst (lookup_alone env i t w) in
  toEntry (ghost w') = toEntry (ghost w) ∧
  filter puppet_write (requests w') = filter puppet_write (requests w) ∧
  filter store_write (requests w') = filter store_write (requests w).
Proof.
  unfold lookup_alone.
  destruct (userInfoCache (ghost w)) as [u|]; [done|].
  destruct (userInfoLoading (ghost w)) as [p|].
  { destruct (outcome_of w p); [done|]. simpl.
    by rewrite requests_store_outcome. }
  cbv zeta. unfold fst.
  rewrite entry_after_fetch, requests_after_fetch, requests_store_outcome,
    requests_start_fetch, !filter_app.
  split; [done|]. simpl. by rewrite !app_nil_r.
Qed.

(** ** Display-name synchronisation *)

Lemma exec_updateDisplayname env (m : Message) (room : BridgedRoom) (w : World) :
  JS.truthy (AccessToken room) = true →
  exec env (updateDisplayname m room) w =
  if JS.truthy (user_name m) then push_name env (user_name m) w
  else match exec env (getDisplayname (user_id m) (default "" (AccessToken room))) w with
       | (w1, inr n) => push_name env n w1
       | (w1, inl e) => (w1, inl e)
       end.
Proof.
  intros Ht. unfold updateDisplayname. rewrite Ht. cbn [negb].
  rewrite exec_bind.
  assert (∀ n w1,
    exec env (stored ← this displayName;
              if negb (JS.truthy n) || JS.eq stored n then Ret VUndefined
              else p ← call (SetDisplayName n);
                   _ ← await p;
                   assign (set_displayName n);;
                   p ← putUserToStore;
                   await p) w1 = push_name env n w1) as Hpush.
  { intros n w1. unfold push_name, answered. simpl.
    destruct (negb (JS.truthy n) || JS.eq (displayName (ghost w1)) n); [done|].
    simpl. rewrite outcome_of_fresh.
    destruct (env (length (promises w1))) as [v|e]; [|done].
    simpl. rewrite outcome_of_fresh.
    match goal with |- context [env ?p] => by destruct (env p) end. }
  destruct (JS.truthy (user_name m)); cbn [negb].
  - cbn [exec]. apply Hpush.
  - rewrite exec_await_call.
    destruct (exec env (getDisplayname _ _) w) as [w1 [e|n]]; [done|]. apply Hpush.
Qed.

(** C6, as stated, fails: an inline name that is present but empty is not
    used; the call falls back to the lookup (it issues the [users.info]
    request), although [user_name] is not absent. *)
Lemma updateDisplayname_empty_inline_name_falls_back :
  let m := mkMessage "U1" (Some "") in
  let w := new_world (fromEntry (Entry.mk (Some "U1") (Some "Bob") None)) 0 in
  user_name m ≠ None ∧
  requests (world (invoke (call_updateDisplayname m (mkRoom (Some "xoxb"))) (idle w)))
  = [UsersInfo "xoxb" "U1"].
Proof. split; [discriminate|reflexivity]. Qed.

(** C6, amended: in a room with an access token, the name that
    [updateDisplayname] applies is the inline [user_name] when that is
    present and not empty, without any lookup; otherwise it is the name of
    [getDisplayname], which is [display_name] when that is present and not
    empty and [real_name] otherwise.  When the resolved name is absent,
    empty or equal to the stored [displayName], nothing happens after the
    resolution: no puppet call, no record update, no persistence.
    Otherwise the next request is [setDisplayName] of that name. *)
Theorem updateDisplayname_name_choice
        env (m : Message) (room : BridgedRoom) (w : World) :
  JS.truthy (AccessToken room) = true →
  exec env (updateDisplayname m room) w =
    (if JS.truthy (user_name m) then push_name env (user_name m) w
     else match exec env (getDisplayname (user_id m)
                            (default "" (AccessToken room))) w with
          | (w1, inr n) => push_name env n w1
          | (w1, inl e) => (w1, inl e)
          end) ∧
  (∀ (i t : string) (w0 : World),
      exec env (getDisplayname i t) w0 =
      match exec env (lookupUserInfo i t) w0 with
      | (w', inr u) =>
        (w', inr (p ← u ≫= profile;
                  if JS.truthy (display_name p) then display_name p
                  else real_name p))
      | (w', inl e) => (w', inl e)
      end) ∧
  (∀ n (w0 : World),
      JS.truthy n = false ∨ displayName (ghost w0) = n →
      push_name env n w0 = (w0, inr VUndefined)) ∧
  (∀ n (w0 : World),
      JS.truthy n = true → displayName (ghost w0) ≠ n →
      ∃ rest, requests (fst (push_name env n w0))
              = requests w0 ++ SetDisplayName n :: rest).
Proof.
  intros Ht. split; [by apply exec_updateDisplayname|]. split; [|split].
  - intros i t w0. by rewrite exec_getDisplayname, exec_lookupUserInfo.
  - intros n w0 H. unfold push_name.
    destruct H as [->| <-]; [done|].
    unfold JS.eq. rewrite bool_decide_eq_true_2 by done.
    by rewrite orb_true_r.
  - intros n w0 Hn Hne. unfold push_name. rewrite Hn. unfold JS.eq.
    rewrite bool_decide_eq_false_2 by done. cbn [negb orb]. cbv zeta.
    destruct (env (length (promises w0))) as [v|e].
    + eexists. cbn [fst]. rewrite requests_answered.
      unfold requests at 1. cbn [promises with_ghost].
      fold (requests (answered (SetDisplayName n) (Resolved v) w0)).
      rewrite requests_answered, <- app_assoc. done.
    + exists []. cbn [fst]. by rewrite requests_answered.
Qed.

Lemma updateDisplayname_name_choice_witness :
  let env := fun _ : nat => Resolved VUndefined in
  let m := mkMessage "U1" (Some "Alice") in
  let room := mkRoom (Some "xoxb") in
  let w := new_world (fromEntry (Entry.mk (Some "U1") (Some "Bob") None)) 0 in
  JS.truthy (AccessToken room) = true ∧
  exec env (updateDisplayname m room) w = push_name env (Some "Alice") w.
Proof.
  intros env m room w. split; [reflexivity|].
  apply (updateDisplayname_name_choice env m room w). reflexivity.
Defined.

(** C10: the empty string counts as no name.  [getDisplayname] gives
    [real_name] when [display_name] is the empty string, and
    [updateDisplayname], when the name it resolves is the empty string,
    does nothing after the lookup: no puppet call, no record update, no
    persistence. *)
Theorem empty_name_is_absent env :
  (∀ (i t : string) (w w' : World) u p,
      exec env (lookupUserInfo i t) w = (w', inr (Some u)) →
      profile u = Some p →
      display_name p = Some "" →
      exec env (getDisplayname i t) w = (w', inr (real_name p))) ∧
  (∀ (m : Message) (room : BridgedRoom) (w w1 : World),
      JS.truthy (AccessToken room) = true →
      JS.truthy (user_name m) = false →
      exec env (getDisplayname (user_id m) (default "" (AccessToken room))) w
      = (w1, inr (Some "")) →
      exec env (updateDisplayname m room) w = (w1, inr VUndefined) ∧
      toEntry (ghost w1) = toEntry (ghost w) ∧
      filter puppet_write (requests w1) = filter puppet_write (requests w) ∧
      filter store_write (requests w1) = filter store_write (requests w)).
Proof.
  split.
  - intros i t w w' u p Hl Hp Hd.
    rewrite exec_getDisplayname, <- exec_lookupUserInfo, Hl.
    unfold name_of; simpl. rewrite Hp; simpl. by rewrite Hd.
  - intros m room w w1 Ht Hn Hg.
    rewrite exec_updateDisplayname, Hn, Hg by done.
    split; [done|].
    rewrite exec_getDisplayname in Hg.
    pose proof (lookup_alone_frame env (user_id m)
                  (default "" (AccessToken room)) w) as Hf.
    destruct (lookup_alone _ _ _ w) as [w2 [e|u]]; [done|].
    by injection Hg as -> _.
Qed.

Lemma empty_name_is_absent_witness :
  let env := fun _ : nat => Resolved VUndefined in
  let p := mkProfile (Some "") (Some "Al") None None None None None None in
  let q := mkProfile None (Some "") None None None None None None in
  let w u := new_world (mkGhost None (Some (mkUser (Some u))) None
                                (Some "U1") (Some "Bob") None) 0 in
  exec env (getDisplayname "U1" "xoxb") (w p) = (w p, inr (Some "Al")) ∧
  exec env (updateDisplayname (mkMessage "U1" None) (mkRoom (Some "xoxb"))) (w q)
  = (w q, inr VUndefined).
Proof.
  intros env p q w. split.
  - apply (proj1 (empty_name_is_absent env) "U1" "xoxb" (w p) (w p)
                 (mkUser (Some p)) p); reflexivity.
  - apply (proj2 (empty_name_is_absent env) (mkMessage "U1" None)
                 (mkRoom (Some "xoxb")) (w q) (w q)); reflexivity.
Defined.

(** ** Failed fetches *)

(** After a fetch that did not deliver a user with a profile, run on its
    own from an empty cache entry, the in-flight handle is still set, and
    a lookup that follows counts no remote call. *)
Lemma failed_fetch_leaves_handle env (i t i' t' : string) (w : World) :
  userInfoCache (ghost w) = None →
  userInfoLoading (ghost w) = None →
  cached_user (env (length (promises w))) = None →
  let w1 := fst (exec env (lookupUserInfo i t) w) in
  userInfoCache (ghost w1) = None ∧
  userInfoLoading (ghost w1) = Some (length (promises w)) ∧
  remote_calls w1 = S (remote_calls w) ∧
  remote_calls (fst (exec env (lookupUserInfo i' t') w1)) = remote_calls w1.
Proof.
  intros Hc Hl Hbad w1.
  assert (w1 = store_outcome (length (promises w)) (env (length (promises w)))
                             (start_fetch i t w)) as ->.
  { subst w1. rewrite exec_lookupUserInfo. unfold lookup_alone.
    rewrite Hc, Hl. cbv zeta. cbn [fst]. unfold after_fetch. by rewrite Hbad. }
  set (w1 := store_outcome _ _ _).
  assert (userInfoCache (ghost w1) = None) as Hc1 by done.
  assert (userInfoLoading (ghost w1) = Some (length (promises w))) as Hl1 by done.
  assert (remote_calls w1 = S (remote_calls w)) as Hr1.
  { unfold remote_calls at 1. subst w1.
    cbn [main store_outcome start_fetch remoteCalls].
    by rewrite lookup_insert_eq. }
  repeat split; try done.
  rewrite exec_lookupUserInfo. unfold lookup_alone. rewrite Hc1, Hl1.
  by destruct (outcome_of w1 (length (promises w))).
Qed.

(** C1 fails on the code: after a fetch that resolves without a user,
    resolves with a user without a profile, or is rejected, the in-flight
    handle [userInfoLoading] is still set (the entry is not empty), and
    the lookup that follows joins the settled promise: it gets the same
    outcome again, the remote-call counter stays at 1 and no second
    request is issued. *)
Theorem failed_fetch_is_not_retried :
  let w0 := new_world (fromEntry (Entry.mk (Some "U1") (Some "Bob") None)) 0 in
  let retry o := steps [Invoke (call_lookupUserInfo "U1" "xoxb");
                        Settle 0 o;
                        Continue 0;
                        Invoke (call_lookupUserInfo "U1" "xoxb");
                        Continue 1] (idle w0) in
  let after o := (userInfoLoading (ghost (world (retry o))),
                  remote_calls (world (retry o)),
                  requests (world (retry o)),
                  finished (retry o)) in
  after (Resolved (VUserInfo (mkUserInfo None)))
  = (Some 0, 1, [UsersInfo "xoxb" "U1"],
     [(0, inr (RUser None)); (1, inr (RUser None))]) ∧
  after (Resolved (VUserInfo (mkUserInfo (Some (mkUser None)))))
  = (Some 0, 1, [UsersInfo "xoxb" "U1"],
     [(0, inr (RUser None)); (1, inr (RUser (Some (mkUser None))))]) ∧
  after (Rejected "ETIMEDOUT")
  = (Some 0, 1, [UsersInfo "xoxb" "U1"],
     [(0, inl "ETIMEDOUT"); (1, inl "ETIMEDOUT")]).
Proof. repeat split; vm_compute; reflexivity. Qed.

(** ** Concurrent lookups *)

(** C2 fails on the code: two lookups are issued before the fetch
    resolves, and the fetch resolves with a user that has no profile.  One
    remote call is made, but the two callers do not get the same result,
    in whichever order they go on: the caller that started the fetch gets
    nothing, the caller that joined gets the user without a profile. *)
Theorem joined_lookup_skips_profile_check :
  let w0 := new_world (fromEntry (Entry.mk (Some "U1") (Some "Bob") None)) 0 in
  let after order :=
    steps ([Invoke (call_lookupUserInfo "U1" "xoxb");
            Invoke (call_lookupUserInfo "U1" "xoxb");
            Settle 0 (Resolved (VUserInfo (mkUserInfo (Some (mkUser None)))))]
           ++ (Continue <$> order))
          (idle w0) in
  let seen order :=
    (pool (after order), remote_calls (world (after order)),
     result_of 0 (after order), result_of 1 (after order)) in
  seen [0; 1] = ([], 1, Some (inr (RUser None)),
                 Some (inr (RUser (Some (mkUser None))))) ∧
  seen [1; 0] = seen [0; 1] ∧
  result_of 0 (after [0; 1]) ≠ result_of 1 (after [0; 1]).
Proof.
  repeat split; try (vm_compute; reflexivity). vm_compute. discriminate.
Qed.

(** ** The mention rewrite *)

(** Where the pattern matches nowhere, the text is unchanged. *)
Lemma replace_from_no_match (r : Re) (s : string) :
  (∀ n, match_at r (String.substring n (String.length s - n) s) = None) →
  replace_from r 0 s = s.
Proof.
  induction s as [|c s IH]; intros Hno; [done|].
  simpl. pose proof (Hno 0) as H0. simpl in H0.
  assert (substring 0 (String.length s) s = s) as Hid.
  { clear. induction s; simpl; [done|]. by rewrite IHs. }
  rewrite Hid in H0. rewrite H0. f_equal. apply IH.
  intros n. specialize (Hno (S n)). simpl in Hno. done.
Qed.

(** C7 fails on the code: with two mentions on one line, the greedy [.+]
    of the pattern run from the first mention to the end of the last one;
    the whole span is replaced by the display text of the last mention,
    and the first display text and the words in between are lost.  (The
    formatted body is made from the text as it came.) *)
Theorem sendText_two_mentions :
  let text := "<https://matrix.to/#/@alice:example.org|Alice> and <https://matrix.to/#/@bob:example.org|Bob>" in
  let w0 := new_world (fromEntry (Entry.mk (Some "U1") (Some "Carol") None)) 0 in
  requests (world (invoke (call_sendText "!room:example.org" text "C024BE91L" 1) (idle w0)))
  = [SendMessage "!room:example.org"
       (mkContent "Bob" "m.text" (Slackdown_parse text) "org.matrix.custom.html")] ∧
  replace_all mention "<https://matrix.to/#/@alice:example.org|Alice>" = "Alice" ∧
  replace_all mention "no mention here" = "no mention here".
Proof. repeat split; vm_compute; reflexivity. Qed.

(** ** The cache entry under all calls and events *)

Lemma run_catch {A : Type} (m : Prog A) (h : Err -> Prog A) (w : World) :
  run (catch m h) w =
  match run m w with
  | (w', Finished (inr a)) => (w', Finished (inr a))
  | (w', Finished (inl e)) => run (h e) w'
  | (w', Parked p k) => (w', Parked p (fun o => catch (k o) h))
  end.
Proof.
  revert w. induction m as [a|e|X op k IH|p k IH|k IH]; intros w; simpl; try done.
  destruct (op w) as [w' x]. apply IH.
Qed.

Lemma run_neutral {A : Type} (m : Prog A) (w : World) :
  neutral m →
  cache_view (fst (run m w)) = cache_view w ∧ neutral_susp (snd (run m w)).
Proof.
  revert w. induction m as [a|e|X op k IH|p k IH|k IH]; intros w Hn; simpl in *; try done.
  destruct Hn as [Hop Hk]. specialize (Hop w).
  destruct (op w) as [w' x]; simpl in *.
  destruct (IH x w' (Hk x)) as [H1 H2]. split; [congruence|done].
Qed.

Lemma neutral_bind {A B : Type} (m : Prog A) (f : A -> Prog B) :
  neutral m → (∀ a, neutral (f a)) → neutral (m ≫= f).
Proof.
  intros Hm Hf. induction m as [a|e|X op k IH|p k IH|k IH]; simpl in *.
  - apply Hf.
  - done.
  - destruct Hm as [Hop Hk]. split; [done|]. intros x. by apply IH.
  - intros o. by apply IH.
  - by apply IH.
Qed.

Lemma neutral_catch {A : Type} (m : Prog A) (h : Err -> Prog A) :
  neutral m → (∀ e, neutral (h e)) → neutral (catch m h).
Proof.
  intros Hm Hh. induction m as [a|e|X op k IH|p k IH|k IH]; simpl in *.
  - done.
  - apply Hh.
  - destruct Hm as [Hop Hk]. split; [done|]. intros x. by apply IH.
  - intros o. by apply IH.
  - by apply IH.
Qed.

Lemma neutral_await_call {A : Type} (m : Prog A) :
  neutral m → neutral (await_call m).
Proof.
  intros Hm. apply neutral_catch; [|done]. by apply (neutral_bind m).
Qed.

Lemma commits_neutral (w w' w'' : World) :
  commits w w' → cache_view w'' = cache_view w' → commits w w''.
Proof. intros [H|[u H]] E; [left|right; exists u]; congruence. Qed.

Lemma fetching_bind {A B : Type} (k : Outcome -> Prog A) (f : A -> Prog B) :
  fetching k → (∀ a, neutral (f a)) → fetching (fun o => k o ≫= f).
Proof.
  intros Hk Hf o w Hc Ht. destruct (Hk o w Hc Ht) as [H1 H2].
  rewrite run_bind. destruct (run (k o) w) as [w' [[e|a]|p k']]; simpl in *.
  - done.
  - destruct (run_neutral (f a) w' (Hf a)) as [H3 H4].
    split; [by eapply commits_neutral|done].
  - split; [done|]. intros o'. by apply neutral_bind.
Qed.

Lemma fetching_catch {A : Type} (k : Outcome -> Prog A) (h : Err -> Prog A) :
  fetching k → (∀ e, neutral (h e)) → fetching (fun o => catch (k o) h).
Proof.
  intros Hk Hh o w Hc Ht. destruct (Hk o w Hc Ht) as [H1 H2].
  rewrite run_catch. destruct (run (k o) w) as [w' [[e|a]|p k']]; simpl in *.
  - destruct (run_neutral (h e) w' (Hh e)) as [H3 H4].
    split; [by eapply commits_neutral|done].
  - done.
  - split; [done|]. intros o'. by apply neutral_catch.
Qed.

Lemma starter_neutral {A : Type} (m : Prog A) : neutral m → starter m.
Proof. intros Hn w. left. by apply run_neutral. Qed.

Lemma starter_bind {A B : Type} (m : Prog A) (f : A -> Prog B) :
  starter m → (∀ a, neutral (f a)) → starter (m ≫= f).
Proof.
  intros Hm Hf w. rewrite run_bind.
  destruct (Hm w) as [[H1 H2]|(Hc & Hl & w' & p & k & Hrun & Hv & Hr & Hk)].
  - left. destruct (run m w) as [w' [[e|a]|p k']]; simpl in *.
    + done.
    + destruct (run_neutral (f a) w' (Hf a)) as [H3 H4].
      split; [congruence|done].
    + split; [done|]. intros o. by apply neutral_bind.
  - right. rewrite Hrun. repeat (split; [done|]).
    eexists _, _, _. repeat (split; [done|]). by apply fetching_bind.
Qed.

Lemma starter_catch {A : Type} (m : Prog A) (h : Err -> Prog A) :
  starter m → (∀ e, neutral (h e)) → starter (catch m h).
Proof.
  intros Hm Hh w. rewrite run_catch.
  destruct (Hm w) as [[H1 H2]|(Hc & Hl & w' & p & k & Hrun & Hv & Hr & Hk)].
  - left. destruct (run m w) as [w' [[e|a]|p k']]; simpl in *.
    + destruct (run_neutral (h e) w' (Hh e)) as [H3 H4].
      split; [congruence|done].
    + done.
    + split; [done|]. intros o. by apply neutral_catch.
  - right. rewrite Hrun. repeat (split; [done|]).
    eexists _, _, _. repeat (split; [done|]). by apply fetching_catch.
Qed.

Lemma starter_await_call {A : Type} (m : Prog A) :
  starter m → starter (await_call m).
Proof.
  intros Hm. apply starter_catch; [|done]. by apply (starter_bind m).
Qed.

Lemma starter_lookupUserInfo (i t : string) : starter (lookupUserInfo i t).
Proof.
  intros w. unfold lookupUserInfo; simpl.
  destruct (userInfoCache (ghost w)) as [u|] eqn:Hc; simpl.
  { by left. }
  destruct (userInfoLoading (ghost w)) as [p|] eqn:Hl; simpl.
  { left. split; [done|]. intros o. by destruct o as [[[[u|]]| | | | | |]|e]. }
  right. unfold with_ghost, with_main; simpl. repeat (split; [done|]).
  eexists _, _, _. split; [done|]. split.
  { unfold cache_view; simpl. by rewrite Hc. }
  split.
  { unfold remote_calls; simpl. by rewrite lookup_insert_eq. }
  intros o w' Hc' Ht'.
  destruct o as [[[[[[pr|]]|]]| | | | | |]|e]; simpl; try (split; [by left|done]).
  split; [|done]. right. eexists. unfold cache_view; simpl. by rewrite Ht'.
Qed.

Ltac neutral_tac :=
  repeat first
    [ done
    | progress (simpl; intros)
    | progress unfold parse_content_uri, full_response, buffer_of,
        event_id_of, response_user
    | split
    | match goal with
      | |- context [match ?x with _ => _ end] => destruct x
      end ].

Lemma starter_getDisplayname (i t : string) : starter (getDisplayname i t).
Proof.
  apply starter_bind; [apply starter_await_call, starter_lookupUserInfo|].
  neutral_tac.
Qed.

Lemma starter_lookupAvatarUrl (i t : string) : starter (lookupAvatarUrl i t).
Proof.
  apply starter_bind; [apply starter_await_call, starter_lookupUserInfo|].
  neutral_tac.
Qed.

Lemma starter_updateDisplayname (m : Message) (room : BridgedRoom) :
  starter (updateDisplayname m room).
Proof.
  unfold updateDisplayname.
  destruct (negb (JS.truthy (AccessToken room))); [by apply starter_neutral|].
  apply starter_bind.
  - destruct (negb (JS.truthy (user_name m)));
      [apply starter_await_call, starter_getDisplayname|by apply starter_neutral].
  - neutral_tac.
Qed.

Lemma neutral_uploadContent (f : File) : neutral (uploadContent f).
Proof. neutral_tac. Qed.

Lemma starter_updateAvatar (m : Message) (room : BridgedRoom) :
  starter (updateAvatar m room).
Proof.
  unfold updateAvatar.
  destruct (negb (JS.truthy (AccessToken room))); [by apply starter_neutral|].
  apply starter_bind; [apply starter_await_call, starter_lookupAvatarUrl|].
  neutral_tac.
Qed.

Lemma starter_programs (c : Call) : Forall starter (programs c).
Proof.
  destruct c; unfold programs, update, sync_name, sync_avatar;
    repeat apply Forall_cons_2; try apply Forall_nil_2;
    try (apply starter_catch; [|by neutral_tac]);
    (apply starter_bind; [|by neutral_tac]);
    first [ apply starter_lookupUserInfo
          | apply starter_getDisplayname
          | apply starter_lookupAvatarUrl
          | apply starter_updateDisplayname
          | apply starter_updateAvatar
          | apply starter_neutral; unfold uploadContentFromURI; neutral_tac ].
Qed.

Lemma pool_ok_neutral_any (w w' : World) ts :
  pool_ok w ts false → pool_ok w' ts false.
Proof.
  intros H. remember false as b eqn:Hb.
  induction H; try discriminate; constructor; auto.
Qed.

Lemma pool_ok_owner (w : World) ts :
  pool_ok w ts true →
  userInfoCache (ghost w) = None ∧ is_Some (userInfoLoading (ghost w)).
Proof.
  intros H. remember true as b eqn:Hb.
  induction H as [|t ts b Ht Hts IH|t ts p Hf Hw Hc Hl Hts IH]; try discriminate.
  - by apply IH.
  - split; [done|]. by eexists.
Qed.

Lemma pool_ok_view (w w' : World) ts b :
  cache_view w' = cache_view w → pool_ok w ts b → pool_ok w' ts b.
Proof.
  intros Hv H. unfold cache_view in Hv. injection Hv as Hc Hl Ht Hn.
  induction H; econstructor; eauto; congruence.
Qed.

Lemma pool_ok_snoc_neutral (w : World) ts t b :
  pool_ok w ts b → neutral_task t → pool_ok w (ts ++ [t]) b.
Proof.
  intros H Ht.
  induction H as [|t' ts b Ht' Hts IH|t' ts p Hf Hw Hc Hl Hts IH]; simpl.
  - apply pool_ok_neutral; [done|constructor].
  - by apply pool_ok_neutral.
  - by eapply pool_ok_fetcher.
Qed.

Lemma pool_ok_snoc_fetcher (w : World) ts t p :
  pool_ok w ts false → fetching (cont t) →
  waits t = Some p →
  userInfoCache (ghost w) = None →
  userInfoLoading (ghost w) = Some p →
  pool_ok w (ts ++ [t]) true.
Proof.
  intros H Hf Hw Hc Hl. remember false as b eqn:Hb.
  induction H as [|t' ts b Ht' Hts IH|t' ts p' Hf' Hw' Hc' Hl' Hts IH];
    try discriminate; simpl.
  - eapply pool_ok_fetcher; eauto. constructor.
  - apply pool_ok_neutral; auto.
Qed.

(** Taking one call out of the parked ones: it is one that leaves the
    entry alone, or it is the call that started the fetch, and the others
    leave the entry alone. *)
Lemma pool_ok_delete (w : World) ts b : ∀ n t,
  pool_ok w ts b → ts !! n = Some t →
  (neutral_task t ∧ pool_ok w (delete n ts) b) ∨
  (b = true ∧ fetching (cont t) ∧ userInfoCache (ghost w) = None ∧
   pool_ok w (delete n ts) false).
Proof.
  intros n t H. revert n.
  induction H as [|t' ts b Ht' Hts IH|t' ts p Hf Hw Hc Hl Hts IH];
    intros [|n] Hn; simpl in *; try done.
  - injection Hn as ->. by left.
  - destruct (IH n Hn) as [[H1 H2]|(H0 & H1 & H2 & H3)].
    + left. split; [done|]. by apply pool_ok_neutral.
    + right. split; [done|]. split; [done|]. split; [done|].
      by apply pool_ok_neutral.
  - injection Hn as ->. by right.
  - destruct (IH n Hn) as [[H1 H2]|(H0 & _)]; [|done].
    left. split; [done|]. by eapply pool_ok_fetcher.
Qed.

Lemma entry_ok_view (w w' : World) :
  cache_view w' = cache_view w → entry_ok w → entry_ok w'.
Proof.
  unfold cache_view, entry_ok. intros Hv. injection Hv as -> -> -> _. done.
Qed.

Lemma quiet_view (w w' : World) : cache_view w' = cache_view w → quiet w w'.
Proof.
  intros Hv. split; [|split]; try done.
  - unfold cache_view in Hv. by injection Hv.
  - unfold cache_view in Hv. injection Hv as Hc _ _ _.
    intros Hn [u Hu]. congruence.
Qed.

Lemma quiet_trans (w1 w2 w3 : World) : quiet w1 w2 → quiet w2 w3 → quiet w1 w3.
Proof.
  intros (Hn1 & Hk1 & Hc1) (Hn2 & Hk2 & Hc2). split; [congruence|split].
  - intros Hs. rewrite <- (Hk1 Hs). apply Hk2.
    specialize (Hk1 Hs). unfold cache_view in Hk1. injection Hk1 as -> _ _ _. done.
  - intros Hnone Hsome.
    destruct (decide (is_Some (userInfoCache (ghost w2)))) as [Hs|Hs].
    + pose proof (Hk2 Hs) as Hv. unfold cache_view in Hv.
      injection Hv as _ _ -> _. by apply Hc1.
    + rewrite Hc2, Hn1; [done| |done].
      destruct (userInfoCache (ghost w2)); [|done]. destruct Hs. by eexists.
Qed.

(** A parked call that goes on keeps the invariant. *)
Lemma continue_ok (s : Sys) (i : nat) :
  cache_inv s →
  cache_inv (continue i s) ∧ quiet (world s) (world (continue i s)).
Proof.
  intros [He [b Hp]]. unfold continue.
  destruct (list_find _ (pool s)) as [[n t]|] eqn:Hfind;
    [|split; [by split; [|eexists]|by apply quiet_view]].
  destruct (ready (world s) t) as [o|];
    [|split; [by split; [|eexists]|by apply quiet_view]].
  apply list_find_Some in Hfind as (Hn & _ & _).
  unfold advance. cbn [world pool spawned finished].
  destruct (pool_ok_delete _ _ _ _ _ Hp Hn) as [[Ht Hd]|(-> & Hf & Hc & Hd)].
  - destruct (run_neutral (cont t o) (world s) (Ht o)) as [Hv Hs].
    destruct (run (cont t o) (world s)) as [w' [r|p k]]; simpl in *.
    + split; [|by apply quiet_view]. split; [by eapply entry_ok_view|].
      exists b. by eapply pool_ok_view.
    + split; [|by apply quiet_view]. split; [by eapply entry_ok_view|].
      exists b. apply pool_ok_snoc_neutral; [by eapply pool_ok_view|done].
  - assert (timers (world s) = []) as Ht.
    { unfold entry_ok in He. by rewrite Hc in He. }
    destruct (Hf o (world s) Hc Ht) as [Hcm Hs].
    destruct (run (cont t o) (world s)) as [w' r]; simpl in *.
    assert (entry_ok w' ∧ quiet (world s) w') as [He' Hq].
    { destruct Hcm as [Hv|[u Hv]].
      - split; [by eapply entry_ok_view|by apply quiet_view].
      - unfold cache_view in Hv. injection Hv as Hc' Hl' Ht' Hn'.
        split.
        + unfold entry_ok. rewrite Hc'. split; [done|by eexists].
        + split; [done|]. split; [|done].
          intros [? ?]. congruence. }
    destruct r as [r|p k]; simpl.
    + split; [|done]. split; [done|].
      exists false. eauto using pool_ok_neutral_any.
    + split; [|done]. split; [done|].
      exists false.
      apply pool_ok_snoc_neutral; [by eapply pool_ok_neutral_any|done].
Qed.

Lemma spawn_ok {s : Sys} (m : Prog Result) :
  cache_inv s → starter m →
  cache_inv (spawn m s) ∧ quiet (world s) (world (spawn m s)).
Proof.
  intros [He [b Hp]] Hm. unfold spawn, advance; simpl.
  destruct (Hm (world s)) as [[Hv Hs]|(Hc & Hl & w' & p & k & Hrun & Hv & _ & Hk)].
  - destruct (run m (world s)) as [w' [r|p k]]; simpl in *.
    + split; [|by apply quiet_view]. split; [by eapply entry_ok_view|].
      exists b. by eapply pool_ok_view.
    + split; [|by apply quiet_view]. split; [by eapply entry_ok_view|].
      exists b. apply pool_ok_snoc_neutral; [by eapply pool_ok_view|done].
  - rewrite Hrun; simpl.
    unfold cache_view in Hv. injection Hv as Hc' Hl' Ht' Hn'.
    assert (b = false) as ->.
    { destruct b; [|done]. apply pool_ok_owner in Hp as [_ [? ?]]. congruence. }
    split.
    + split.
      * unfold entry_ok in *. rewrite Hc in He. simpl. by rewrite Hc', Ht'.
      * exists true. eapply pool_ok_snoc_fetcher; eauto using pool_ok_neutral_any.
    + split; [done|]. split.
      * intros [? ?]. congruence.
      * intros _ [? ?]. congruence.
Qed.

Lemma spawn_all_ok ms : ∀ s : Sys,
  cache_inv s → Forall starter ms →
  let s' := foldl (fun s m => spawn m s) s ms in
  cache_inv s' ∧ quiet (world s) (world s').
Proof.
  induction ms as [|m ms IH]; intros s Hs Hms; simpl.
  - split; [done|by apply quiet_view].
  - apply Forall_cons in Hms as [Hm Hms].
    destruct (spawn_ok m Hs Hm) as [H1 Hq1].
    destruct (IH _ H1 Hms) as [H2 Hq2]. split; [done|by eapply quiet_trans].
Qed.

Lemma settle_view p o (w : World) : cache_view (settle p o w) = cache_view w.
Proof. unfold settle. by destruct (promises w !! p) as [[r [o'|]]|]. Qed.

Lemma settle_ok (s : Sys) p o :
  cache_inv s →
  cache_inv (on_world (settle p o) s) ∧
  quiet (world s) (world (on_world (settle p o) s)).
Proof.
  intros [He [b Hp]]. pose proof (settle_view p o (world s)) as Hv.
  split; [|by apply quiet_view].
  split; [by eapply entry_ok_view|]. exists b. by eapply pool_ok_view.
Qed.

Lemma pool_ok_entry (w w' : World) ts b :
  userInfoCache (ghost w') = userInfoCache (ghost w) →
  userInfoLoading (ghost w') = userInfoLoading (ghost w) →
  pool_ok w ts b → pool_ok w' ts b.
Proof. intros Hc Hl H. induction H; econstructor; eauto; congruence. Qed.

(** Each event keeps the invariant of the cache entry; the clock does not
    go back; a cached user stays until its eviction is due; and a user is
    cached together with an eviction one timeout ahead. *)
Lemma step_ok (s : Sys) (e : Event) :
  cache_inv s →
  let s' := step s e in
  cache_inv s' ∧
  (now (world s) ≤ now (world s'))%Z ∧
  (∀ u d, userInfoCache (ghost (world s)) = Some u → timers (world s) = [d] →
          (userInfoCache (ghost (world s')) = Some u ∧ timers (world s') = [d]) ∨
          (d ≤ now (world s'))%Z) ∧
  (∀ u, userInfoCache (ghost (world s)) = None →
        userInfoCache (ghost (world s')) = Some u →
        timers (world s') = [(now (world s') + USER_CACHE_TIMEOUT)%Z]).
Proof.
  intros Hs.
  assert (∀ s' : Sys, cache_inv s' ∧ quiet (world s) (world s') →
    cache_inv s' ∧
    (now (world s) ≤ now (world s'))%Z ∧
    (∀ u d, userInfoCache (ghost (world s)) = Some u → timers (world s) = [d] →
            (userInfoCache (ghost (world s')) = Some u ∧ timers (world s') = [d]) ∨
            (d ≤ now (world s'))%Z) ∧
    (∀ u, userInfoCache (ghost (world s)) = None →
          userInfoCache (ghost (world s')) = Some u →
          timers (world s') = [(now (world s') + USER_CACHE_TIMEOUT)%Z])) as Hquiet.
  { intros s' [Hi (Hn & Hk & Hc)]. split; [done|]. split; [lia|]. split.
    - intros u d Hu Hd. left.
      assert (is_Some (userInfoCache (ghost (world s)))) as Hsome
          by (rewrite Hu; by eexists).
      specialize (Hk Hsome). unfold cache_view in Hk.
      injection Hk as -> _ -> _. done.
    - intros u Hnone Hu. rewrite Hn. apply Hc; [done|]. rewrite Hu. by eexists. }
  destruct e as [c|p o|i|dt|]; simpl.
  - apply Hquiet. apply spawn_all_ok; [done|apply starter_programs].
  - apply Hquiet. by apply settle_ok.
  - apply Hquiet. by apply continue_ok.
  - destruct Hs as [He [b Hp]]. split; [|split; [|split]].
    + split; [exact He|]. exists b. by apply (pool_ok_entry (world s)).
    + simpl. lia.
    + intros u d Hu Hd. by left.
    + intros u Hn Hu. simpl in Hu. congruence.
  - destruct Hs as [He [b Hp]]. unfold cache_inv, on_world. cbn [world pool].
    unfold fire.
    destruct (timers (world s)) as [|due rest] eqn:Ht.
    { split; [by split; [|eexists]|]. split; [done|]. split.
      - intros u d Hu Hd. by left.
      - intros u Hn Hu. congruence. }
    destruct (Z.leb_spec due (now (world s))) as [Hdue|Hdue].
    + unfold entry_ok in He.
      destruct (userInfoCache (ghost (world s))) as [u|] eqn:Hc; [|congruence].
      destruct He as [Hl [d Hd]]. rewrite Ht in Hd. injection Hd as -> ->.
      assert (b = false) as ->.
      { destruct b; [|done]. apply pool_ok_owner in Hp as [? _]. congruence. }
      split; [|split; [done|split]].
      * split; [done|]. exists false. by eapply pool_ok_neutral_any.
      * intros u' d' _ [= ->]. by right.
      * intros u' Hn. done.
    + split; [by split; [|eexists]|]. split; [done|]. split.
      * intros u d Hu Hd. left. by rewrite Ht.
      * intros u Hn Hu. congruence.
Qed.

Lemma cache_inv_idle (g : SlackGhost) (t0 : Z) :
  userInfoCache g = None → cache_inv (idle (new_world g t0)).
Proof.
  intros Hc. split.
  - unfold entry_ok; simpl. by rewrite Hc.
  - exists false. constructor.
Qed.

Lemma steps_ok (es : list Event) : ∀ s : Sys,
  cache_inv s →
  cache_inv (steps es s) ∧ (now (world s) ≤ now (world (steps es s)))%Z.
Proof.
  induction es as [|e es IH]; intros s Hs; simpl; [done|].
  destruct (step_ok s e Hs) as (H1 & Hn & _).
  destruct (IH _ H1) as [H2 Hn2]. split; [done|lia].
Qed.

(** A cached user stays in the cache until its eviction is due. *)
Lemma cached_until_due (es : list Event) : ∀ (s : Sys) u d,
  cache_inv s →
  userInfoCache (ghost (world s)) = Some u → timers (world s) = [d] →
  (userInfoCache (ghost (world (steps es s))) = Some u ∧
   timers (world (steps es s)) = [d]) ∨
  (d ≤ now (world (steps es s)))%Z.
Proof.
  induction es as [|e es IH]; intros s u d Hs Hu Hd; simpl; [by left|].
  destruct (step_ok s e Hs) as (H1 & Hn & Hk & _).
  destruct (Hk u d Hu Hd) as [[Hu' Hd']|Hdue].
  - by apply IH.
  - right. destruct (steps_ok es _ H1) as [_ Hn']. lia.
Qed.

(** C3: a profile is cached by an event [ev] (the call that fetched it
    going on, once the fetch is settled), at a time [now]; the eviction is
    then scheduled for [now + USER_CACHE_TIMEOUT] (10 minutes).  Whatever
    calls, settlements, continuations, clock ticks and timer callbacks
    follow, a lookup made while the clock is before that time returns the
    cached user at once and leaves the world as it is (no remote call).
    Once the time is reached and the scheduled eviction has run, nothing
    is cached and no fetch is in flight: the lookup counts a remote call,
    issues the [users.info] request and parks on it. *)
Theorem cache_ttl (e : Entry.t) (t0 : Z) (es1 es2 : list Event)
        (ev : Event) (u : ISlackUser) (i t : string) :
  let s1 := steps es1 (idle (new_world (fromEntry e) t0)) in
  let s2 := step s1 ev in
  let s3 := steps es2 s2 in
  let due := (now (world s2) + USER_CACHE_TIMEOUT)%Z in
  userInfoCache (ghost (world s1)) = None →
  userInfoCache (ghost (world s2)) = Some u →
  timers (world s2) = [due] ∧
  ((now (world s3) < due)%Z →
   run (lookupUserInfo i t) (world s3) = (world s3, Finished (inr (Some u)))) ∧
  (timers (world s3) = [due] → (due ≤ now (world s3))%Z →
   let w4 := world (step s3 Fire) in
   userInfoCache (ghost w4) = None ∧
   ∃ k, run (lookupUserInfo i t) w4
        = (start_fetch i t w4, Parked (Some (length (promises w4))) k) ∧
        remote_calls (start_fetch i t w4) = S (remote_calls w4)).
Proof.
  intros s1 s2 s3 due Hnone Hsome.
  assert (cache_inv s1) as H1.
  { apply steps_ok. by apply cache_inv_idle. }
  destruct (step_ok s1 ev H1) as (H2 & _ & _ & Hdue).
  specialize (Hdue u Hnone Hsome). fold s2 in H2, Hdue. fold due in Hdue.
  split; [done|]. split.
  - intros Hnow.
    destruct (cached_until_due es2 s2 u due H2 Hsome Hdue) as [[Hu _]|Hlate].
    + by apply run_lookupUserInfo_cached.
    + fold s3 in Hlate. lia.
  - intros Htimers Hlate w4.
    destruct (steps_ok es2 s2 H2) as [[He3 _] _]. fold s3 in He3.
    unfold entry_ok in He3.
    destruct (userInfoCache (ghost (world s3))) as [u3|] eqn:Hc3; [|congruence].
    destruct He3 as [Hl3 _].
    assert (userInfoCache (ghost w4) = None ∧ userInfoLoading (ghost w4) = None)
      as [Hc4 Hl4].
    { subst w4. simpl. unfold fire. rewrite Htimers.
      destruct (Z.leb_spec due (now (world s3))); [done|lia]. }
    split; [done|].
    destruct (run_lookupUserInfo_fresh i t w4 Hc4 Hl4) as (k & Hk & _).
    exists k. split; [done|].
    unfold remote_calls at 1. simpl. by rewrite lookup_insert_eq.
Qed.

Lemma cache_ttl_witness :
  let e := Entry.mk (Some "U1") (Some "Bob") None in
  let u := mkUser (Some (mkProfile (Some "Al") None None None None None None None)) in
  let o := Resolved (VUserInfo (mkUserInfo (Some u))) in
  let es1 := [Invoke (call_lookupUserInfo "U1" "xoxb"); Tick 250; Settle 0 o] in
  let s2 := step (steps es1 (idle (new_world (fromEntry e) 1000))) (Continue 0) in
  timers (world s2) = [601250%Z] ∧
  run (lookupUserInfo "U1" "xoxb") (world (steps [Tick 599999] s2))
  = (world (steps [Tick 599999] s2), Finished (inr (Some u))) ∧
  userInfoCache (ghost (world (step (steps [Tick 600000] s2) Fire))) = None.
Proof.
  intros e u o es1 s2.
  pose proof (cache_ttl e 1000 es1 [Tick 599999] (Continue 0) u "U1" "xoxb"
                        eq_refl eq_refl) as (H1 & H2 & _).
  pose proof (cache_ttl e 1000 es1 [Tick 600000] (Continue 0) u "U1" "xoxb"
                        eq_refl eq_refl) as (_ & _ & H3).
  split; [exact H1|]. split.
  - apply H2. vm_compute. reflexivity.
  - apply H3; vm_compute; [reflexivity|discriminate].
Defined.

(** ** Calls side by side *)

Lemma wp_bind {A B : Type} St G (m : Prog A) (f : A -> Prog B) Φ w0 w :
  wp St G m (fun r w0' w' =>
               match r with
               | inr a => wp St G (f a) Φ w0' w'
               | inl e => Φ (inl e) w0' w'
               end) w0 w →
  wp St G (m ≫= f) Φ w0 w.
Proof.
  revert w0 w. induction m as [a|e|X op k IH|p k IH|k IH]; intros w0 w; simpl.
  - done.
  - done.
  - apply IH.
  - intros [HG Hk]. split; [done|]. intros w' o HSt Ho. apply IH. by apply Hk.
  - intros [HG Hk]. split; [done|]. intros w' HSt. apply IH. by apply Hk.
Qed.

Lemma wp_catch {A : Type} St G (m : Prog A) (h : Err -> Prog A) Φ w0 w :
  wp St G m (fun r w0' w' =>
               match r with
               | inr a => Φ (inr a) w0' w'
               | inl e => wp St G (h e) Φ w0' w'
               end) w0 w →
  wp St G (catch m h) Φ w0 w.
Proof.
  revert w0 w. induction m as [a|e|X op k IH|p k IH|k IH]; intros w0 w; simpl.
  - done.
  - done.
  - apply IH.
  - intros [HG Hk]. split; [done|]. intros w' o HSt Ho. apply IH. by apply Hk.
  - intros [HG Hk]. split; [done|]. intros w' HSt. apply IH. by apply Hk.
Qed.

(** The rule of [await] on a call of the class: the call is run to its
    end, and what follows starts in a later turn. *)
Lemma wp_await_call {A : Type} (St G : World → World → Prop) (m : Prog A)
      Φ (w0 w : World) :
  wp St G m (fun r w0' w' => G w0' w' ∧ ∀ w'', St w' w'' → Φ r w'' w'') w0 w →
  wp St G (await_call m) Φ w0 w.
Proof.
  intros H. unfold await_call. apply wp_catch, wp_bind.
  revert w0 w H.
  induction m as [a|e|X op k IH|p k IH|k IH]; intros w0 w; simpl.
  - done.
  - done.
  - apply IH.
  - intros [HG Hk]. split; [done|]. intros w' o HSt Ho. apply IH. by apply Hk.
  - intros [HG Hk]. split; [done|]. intros w' HSt. apply IH. by apply Hk.
Qed.

Lemma wp_mono {A : Type} St G (m : Prog A) (Φ Ψ : Err + A → World → World → Prop) w0 w :
  (∀ r w0' w', Φ r w0' w' → Ψ r w0' w') →
  wp St G m Φ w0 w → wp St G m Ψ w0 w.
Proof.
  intros HΦ. revert w0 w.
  induction m as [a|e|X op k IH|p k IH|k IH]; intros w0 w; simpl.
  - apply HΦ.
  - apply HΦ.
  - apply IH.
  - intros [HG Hk]. split; [done|]. intros w' o HSt Ho. apply IH. by apply Hk.
  - intros [HG Hk]. split; [done|]. intros w' HSt. apply IH. by apply Hk.
Qed.

Section contracts.

(** The contract of the call number [i]: what it relies on, what it
    guarantees, and what holds once it has ended. *)
Variables St G : nat → World → World → Prop.
Variable Q : nat → Err + Result → World → Prop.

Hypothesis St_refl : ∀ i w, St i w w.
Hypothesis St_trans : ∀ i w1 w2 w3, St i w1 w2 → St i w2 w3 → St i w1 w3.
Hypothesis G_refl : ∀ i w, G i w w.
Hypothesis G_trans : ∀ i w1 w2 w3, G i w1 w2 → G i w2 w3 → G i w1 w3.
Hypothesis G_St : ∀ i j w w', i ≠ j → G i w w' → St j w w'.
Hypothesis Q_stable : ∀ i r w w', Q i r w → St i w w' → Q i r w'.
Hypothesis env_St :
  ∀ i p o w, p < length (promises w) → outcome_of w p = None →
             St i w (store_outcome p o w).

Local Abbreviation post := (post G Q).
Local Abbreviation parked_ok := (parked_ok St G Q).
Local Abbreviation calls_ok := (calls_ok St G Q).
Local Abbreviation sys_ok := (sys_ok St G Q).

Lemma wp_run (i : nat) (m : Prog Result) : ∀ worig w0 w,
  G i worig w0 →
  wp (St i) (G i) m (post i) w0 w →
  G i worig (fst (run m w)) ∧
  match snd (run m w) with
  | Finished r => Q i r (fst (run m w))
  | Parked p k => parked_ok (mkTask i p k) (fst (run m w))
  end.
Proof.
  induction m as [a|e|X op k IH|p k IH|k IH]; intros worig w0 w Horig Hwp;
    simpl in *.
  - destruct Hwp as [HG HQ]. split; [by eapply G_trans|done].
  - destruct Hwp as [HG HQ]. split; [by eapply G_trans|done].
  - destruct (op w) as [w1 x]; simpl in *. by eapply IH.
  - destruct Hwp as [HG Hk]. split; [by eapply G_trans|].
    intros w' o HSt Hr. by apply Hk.
  - destruct Hwp as [HG Hk]. split; [by eapply G_trans|].
    intros w' o HSt Hr. by apply Hk.
Qed.

Lemma parked_ok_mono (t : Task) (w w' : World) :
  parked_ok t w → St (tid t) w w' → parked_ok t w'.
Proof. intros Ht HSt w'' o HSt' Ho. apply Ht; [by eapply St_trans|done]. Qed.

(** One call goes on by one stretch: it ends within its contract or
    parks again, and the others keep to theirs. *)
Lemma advance_ok (s : Sys) (i : nat) (m : Prog Result) :
  wp (St i) (G i) m (post i) (world s) (world s) →
  let s' := advance i m s in
  G i (world s) (world s') ∧
  spawned s' = spawned s ∧
  (∀ t, tid t ≠ i → parked_ok t (world s) → parked_ok t (world s')) ∧
  (∀ j r, j ≠ i → Q j r (world s) → Q j r (world s')) ∧
  ((pool s' = pool s ∧
    ∃ r, finished s' = finished s ++ [(i, r)] ∧ Q i r (world s')) ∨
   (finished s' = finished s ∧
    ∃ t, pool s' = pool s ++ [t] ∧ tid t = i ∧ parked_ok t (world s'))).
Proof.
  intros Hwp s'. subst s'. unfold advance.
  pose proof (wp_run i m (world s) (world s) (world s) (G_refl _ _) Hwp)
    as [HG Hres].
  assert (∀ t, tid t ≠ i → parked_ok t (world s) →
               parked_ok t (fst (run m (world s)))) as Hothers.
  { intros t Hne Ht. eapply parked_ok_mono; [done|]. eapply G_St; [|done]. done. }
  assert (∀ j r, j ≠ i → Q j r (world s) → Q j r (fst (run m (world s))))
    as Hfin.
  { intros j r Hne Hj. eapply Q_stable; [done|]. eapply G_St; [|done]. done. }
  destruct (run m (world s)) as [w' [r|p k]]; simpl in *.
  - repeat (split; [done|]). left. split; [done|]. by exists r.
  - repeat (split; [done|]). right. split; [done|].
    eexists. split; [done|]. split; [done|]. exact Hres.
Qed.

(** The same, for the calls of a system: a call with a new number goes
    on within its contract, and all calls are within theirs after it. *)
Lemma advance_calls_ok (s : Sys) (i n : nat) (m : Prog Result) :
  calls_ok (world s) (pool s) (finished s) n →
  i ∉ (tid <$> pool s) ++ (fst <$> finished s) → i < n →
  wp (St i) (G i) m (post i) (world s) (world s) →
  let s' := advance i m s in
  calls_ok (world s') (pool s') (finished s') n ∧
  spawned s' = spawned s ∧ G i (world s) (world s').
Proof.
  intros (Hnd & Hlt & Hpool & Hfin) Hfresh Hi Hwp.
  pose proof (advance_ok s i m Hwp) as (HG & Hsp & Hothers & Hfin' & Hcase).
  intros s'. fold s' in HG, Hsp, Hothers, Hfin', Hcase.
  split; [|by split]. unfold calls_ok.
  destruct Hcase as [[-> (r & -> & HQ)]|[-> (t & -> & Hid & Ht)]].
  - rewrite fmap_app. simpl. split; [|split; [|split]].
    + rewrite app_assoc. rewrite <- Permutation_cons_append.
      by apply NoDup_cons.
    + intros j Hj. rewrite app_assoc in Hj.
      apply elem_of_app in Hj as [Hj|Hj]; [by apply Hlt|].
      by apply list_elem_of_singleton in Hj as ->.
    + intros t Ht. apply Hothers; [|by apply Hpool]. intros E.
      apply Hfresh, elem_of_app. left. rewrite <- E.
      by apply list_elem_of_fmap_2.
    + intros j r' Hj. apply elem_of_app in Hj as [Hj|Hj].
      * apply Hfin'; [|by apply Hfin]. intros E.
        apply Hfresh, elem_of_app. right. rewrite <- E.
        by apply (list_elem_of_fmap_2 fst _ (j, r')).
      * apply list_elem_of_singleton in Hj as [= -> ->]. done.
  - rewrite fmap_app. simpl. rewrite Hid. split; [|split; [|split]].
    + rewrite <- app_assoc. simpl. rewrite <- Permutation_middle.
      by apply NoDup_cons.
    + intros j Hj. rewrite <- app_assoc in Hj. simpl in Hj.
      apply elem_of_app in Hj as [Hj|Hj].
      { apply Hlt, elem_of_app. by left. }
      apply elem_of_cons in Hj as [->|Hj]; [done|].
      apply Hlt, elem_of_app. by right.
    + intros t1 Ht1. apply elem_of_app in Ht1 as [Ht1|Ht1].
      * apply Hothers; [|by apply Hpool]. intros E.
        apply Hfresh, elem_of_app. left. rewrite <- E.
        by apply list_elem_of_fmap_2.
      * apply list_elem_of_singleton in Ht1 as ->. done.
    + intros j r' Hj. apply Hfin'; [|by apply Hfin]. intros E.
      apply Hfresh, elem_of_app. right. rewrite <- E.
      by apply (list_elem_of_fmap_2 fst _ (j, r')).
Qed.

Lemma spawn_sys_ok (s : Sys) (m : Prog Result) :
  sys_ok s →
  wp (St (spawned s)) (G (spawned s)) m (post (spawned s)) (world s) (world s) →
  sys_ok (spawn m s) ∧ spawned (spawn m s) = S (spawned s) ∧
  G (spawned s) (world s) (world (spawn m s)).
Proof.
  intros (Hnd & Hlt & Hpool & Hfin) Hwp. unfold spawn.
  set (s0 := mkSys (world s) (pool s) (S (spawned s)) (finished s)).
  destruct (advance_calls_ok s0 (spawned s) (S (spawned s)) m)
    as (Hok & Hsp & HG); try done.
  - split; [done|]. split; [|done].
    intros j Hj. apply Hlt in Hj. lia.
  - intros Hin. apply Hlt in Hin. lia.
  - lia.
  - split; [|by split]. unfold sys_ok. by rewrite Hsp.
Qed.

(** A promise is settled: the calls stay parked, within their
    contracts. *)
Lemma settle_sys_ok (s : Sys) p o : sys_ok s → sys_ok (on_world (settle p o) s).
Proof.
  intros (Hnd & Hlt & Hpool & Hfin). unfold on_world, settle.
  destruct (promises (world s) !! p) as [[r [o'|]]|] eqn:Hp;
    try by repeat split.
  assert (p < length (promises (world s))) as Hlen.
  { apply lookup_lt_is_Some. by eexists. }
  assert (outcome_of (world s) p = None) as Hnone.
  { unfold outcome_of. by rewrite Hp. }
  split; [done|]. split; [done|]. split.
  - intros t Ht. eapply parked_ok_mono; [by apply Hpool|]. by apply env_St.
  - intros j r' Hj. eapply Q_stable; [by apply Hfin|]. by apply env_St.
Qed.

(** A parked call goes on: it keeps to its contract, and the others to
    theirs. *)
Lemma continue_sys_ok (s : Sys) (i : nat) :
  sys_ok s →
  sys_ok (continue i s) ∧ spawned (continue i s) = spawned s ∧
  G i (world s) (world (continue i s)).
Proof.
  intros (Hnd & Hlt & Hpool & Hfin). unfold continue.
  destruct (list_find _ (pool s)) as [[n t]|] eqn:Hfind;
    [|by repeat split].
  destruct (ready (world s) t) as [o|] eqn:Hready; [|by repeat split].
  apply list_find_Some in Hfind as (Hn & Hid & _).
  pose proof (delete_Permutation _ _ _ Hn) as Hperm.
  assert (tid <$> pool s ≡ₚ tid t :: (tid <$> delete n (pool s))) as Hperm'.
  { by rewrite Hperm at 1. }
  rewrite Hperm' in Hnd. simpl in Hnd. apply NoDup_cons in Hnd as [Hfresh Hnd].
  set (s0 := mkSys (world s) (delete n (pool s)) (spawned s) (finished s)).
  destruct (advance_calls_ok s0 (tid t) (spawned s) (cont t o))
    as (Hok & Hsp & HG); try done.
  - split; [done|]. split; [|split; [|done]].
    + intros j Hj. apply Hlt. rewrite Hperm'. simpl. by apply elem_of_cons; right.
    + intros t' Ht'. apply Hpool. rewrite Hperm. by apply elem_of_cons; right.
  - apply Hlt. rewrite Hperm'. simpl. apply list_elem_of_here.
  - apply (Hpool t); [|apply St_refl|done].
    by eapply list_elem_of_lookup_2.
  - subst i. split; [|by split]. unfold sys_ok. by rewrite Hsp.
Qed.

End contracts.

(** ** The contracts of [update] *)

Lemma persist_refl (w : World) : persist w w.
Proof. by intros p o. Qed.

Lemma persist_trans (w1 w2 w3 : World) :
  persist w1 w2 → persist w2 w3 → persist w1 w3.
Proof. intros H1 H2 p o Ho. by apply H2, H1. Qed.

Lemma known_profile_loading (w : World) p :
  userInfoCache (ghost w) = None → userInfoLoading (ghost w) = Some p →
  known_profile w = profile_of <$> (joined_result <$> outcome_of w p).
Proof. intros Hc Hl. unfold known_profile, answer. by rewrite Hc, Hl. Qed.

Lemma base_refl (w : World) : base w w.
Proof.
  split; [apply persist_refl|]. split; [done|].
  intros p Hc Hl. rewrite (known_profile_loading w p Hc Hl).
  by destruct (outcome_of w p).
Qed.

Lemma base_trans (w1 w2 w3 : World) : base w1 w2 → base w2 w3 → base w1 w3.
Proof.
  intros (Hp1 & Hk1 & Hl1) (Hp2 & Hk2 & Hl2).
  split; [by eapply persist_trans|]. split; [by auto|].
  intros p Hc Hl. specialize (Hl1 p Hc Hl).
  destruct (outcome_of w2 p) as [o2|] eqn:Ho2.
  - rewrite (Hp2 p o2 Ho2). by apply Hk2.
  - destruct Hl1 as [Hc2 Hl2']. by apply Hl2.
Qed.

(** Issuing requests, and writing fields other than the cache and the
    handle, is within [base]. *)
Lemma base_extend (w w' : World) l :
  userInfoCache (ghost w') = userInfoCache (ghost w) →
  userInfoLoading (ghost w') = userInfoLoading (ghost w) →
  promises w' = promises w ++ l →
  Forall (fun pr => state pr = None) l →
  base w w'.
Proof.
  intros Hc Hl Hp Hnew.
  assert (∀ p, outcome_of w' p = outcome_of w p) as Hout.
  { intros p. unfold outcome_of. rewrite Hp.
    destruct (decide (p < length (promises w))) as [Hlt|Hge].
    - by rewrite lookup_app_l.
    - rewrite lookup_app_r by lia.
      rewrite (lookup_ge_None_2 (promises w) p) by lia. simpl.
      destruct (l !! (p - length (promises w))) as [pr|] eqn:E; [|done].
      simpl. eapply Forall_lookup_1 in Hnew; [|done]. done. }
  assert (known_profile w' = known_profile w) as Hk.
  { unfold known_profile, answer. rewrite Hc, Hl.
    destruct (userInfoCache (ghost w)); [done|].
    destruct (userInfoLoading (ghost w)); [|done]. by rewrite Hout. }
  split; [|split].
  - intros p o. by rewrite Hout.
  - intros x. by rewrite Hk.
  - intros p Hc0 Hl0. rewrite Hout, Hk.
    rewrite (known_profile_loading w p Hc0 Hl0).
    destruct (outcome_of w p); [done|]. split; congruence.
Qed.

Lemma rely_refl i (w : World) : rely i w w.
Proof. split; [apply base_refl|done]. Qed.

Lemma rely_trans i (w1 w2 w3 : World) : rely i w1 w2 → rely i w2 w3 → rely i w1 w3.
Proof.
  intros (Hb1 & Hn1 & Ha1) (Hb2 & Hn2 & Ha2).
  split; [by eapply base_trans|]. split; intros Hi.
  - rewrite Hn2, Hn1; done.
  - rewrite Ha2, Ha1; done.
Qed.

Lemma guar_refl i (w : World) : guar i w w.
Proof. split; [apply base_refl|done]. Qed.

Lemma guar_trans i (w1 w2 w3 : World) : guar i w1 w2 → guar i w2 w3 → guar i w1 w3.
Proof.
  intros (Hb1 & Hn1 & Ha1) (Hb2 & Hn2 & Ha2).
  split; [by eapply base_trans|]. split; intros Hi.
  - rewrite Hn2, Hn1; done.
  - rewrite Ha2, Ha1; done.
Qed.

Lemma guar_rely i j (w w' : World) : i ≠ j → guar i w w' → rely j w w'.
Proof.
  intros Hij (Hb & Hn & Ha). split; [done|].
  split; intros ->; [apply Hn|apply Ha]; done.
Qed.

Lemma guar_persist i (w w' : World) : guar i w w' → persist w w'.
Proof. by intros [[Hp _] _]. Qed.

Lemma own_rely i (w w' : World) : own w w' → rely i w w'.
Proof. intros (Hb & Hn & Ha). by split. Qed.

Lemma own_guar i (w w' : World) : own w w' → guar i w w'.
Proof. intros (Hb & Hn & Ha). by split. Qed.

Lemma rely_store_outcome i p o (w : World) :
  p < length (promises w) → outcome_of w p = None →
  rely i w (store_outcome p o w).
Proof.
  intros Hlt Hnone.
  assert (∀ q, q ≠ p → outcome_of (store_outcome p o w) q = outcome_of w q) as Hne.
  { intros q Hq. unfold outcome_of, store_outcome; simpl.
    by rewrite list_lookup_alter_ne. }
  pose proof (outcome_of_store_outcome p o w Hlt) as Heq.
  split; [|split].
  - split; [|split].
    + intros q o' Hq. destruct (decide (q = p)) as [->|Hqp]; [congruence|].
      by rewrite Hne.
    + intros x. unfold known_profile, answer. simpl.
      destruct (userInfoCache (ghost w)); [done|].
      destruct (userInfoLoading (ghost w)) as [q|]; [|done].
      destruct (decide (q = p)) as [->|Hqp]; [by rewrite Hnone|].
      by rewrite Hne.
    + intros q Hc Hl.
      rewrite (known_profile_loading (store_outcome p o w) q Hc Hl).
      destruct (outcome_of (store_outcome p o w) q); done.
  - intros _. unfold name_view. by rewrite requests_store_outcome.
  - intros _. unfold avatar_view. by rewrite requests_store_outcome.
Qed.

Lemma name_log_rely (w0 w w' : World) :
  name_log w0 w → name_view w' = name_view w → name_log w0 w'.
Proof.
  unfold name_log, name_view. intros H [= Hd Hf]. rewrite Hd, Hf. done.
Qed.

Lemma avatar_log_rely (w0 w w' : World) :
  avatar_log w0 w → avatar_view w' = avatar_view w → avatar_log w0 w'.
Proof.
  unfold avatar_log, avatar_view. intros H [= Hd Hf]. rewrite Hd, Hf. done.
Qed.

Lemma update_post_stable message room w0 i r (w w' : World) :
  update_post message room w0 i r w → rely i w w' →
  update_post message room w0 i r w'.
Proof.
  intros HQ ((Hp & Hk & Hl) & Hn & Ha).
  destruct i as [|[|i]]; simpl in *; [| |done].
  - destruct HQ as [Hlog Hs]. specialize (Hn eq_refl).
    split; [by eapply name_log_rely|].
    intros Hr. destruct (Hs Hr) as [Ht|(n & Hres & Hst)]; [by left|right].
    exists n. unfold name_view in Hn. injection Hn as Hd _. rewrite Hd.
    split; [|done].
    destruct (JS.truthy (user_name message)); [done|].
    destruct Hres as (pr & Hpr & ->). exists pr. auto.
  - destruct HQ as [Hlog Hs]. specialize (Ha eq_refl).
    split; [by eapply avatar_log_rely|].
    intros Hr. destruct (Hs Hr) as [Ht|(pr & Hpr & Hst)]; [by left|right].
    exists pr. unfold avatar_view in Ha. injection Ha as Hd _. rewrite Hd. auto.
Qed.

Lemma profile_of_fetched o :
  profile_of (fetched_result o) = profile_of (joined_result o).
Proof. by destruct o as [[[[[[pr|]]|]]| | | | | |]|e]. Qed.

Lemma cached_user_joined o u :
  cached_user o = Some u → joined_result o = inr (Some u).
Proof.
  destruct o as [[[[[[pr|]]|]]| | | | | |]|e]; simpl; try done.
  by intros [= <-].
Qed.

Lemma cached_user_fetched o u :
  cached_user o = Some u → fetched_result o = inr (Some u).
Proof.
  destruct o as [[[[[[pr|]]|]]| | | | | |]|e]; simpl; try done.
  intros H. by rewrite <- H.
Qed.

(** Putting the fetched user in the cache keeps the profile that the
    settled promise determined. *)
Lemma own_commit (w : World) o u :
  cached_user o = Some u →
  known_profile w = Some (profile_of (joined_result o)) →
  own w (commit u w).
Proof.
  intros Hu Hk.
  assert (known_profile (commit u w) = known_profile w) as Hk'.
  { rewrite Hk, (cached_user_joined o u Hu). reflexivity. }
  split; [|done]. split; [by intros p' o'|]. split; [intros x; by rewrite Hk'|].
  intros p Hc Hl. unfold outcome_of at 1. cbn [commit promises].
  fold (outcome_of w p). rewrite Hk'.
  rewrite (known_profile_loading w p Hc Hl) in *.
  destruct (outcome_of w p) as [o'|]; [done|done].
Qed.

Lemma own_refl (w : World) : own w w.
Proof. split; [apply base_refl|done]. Qed.

Lemma own_start_fetch (i t : string) (w : World) :
  userInfoCache (ghost w) = None → userInfoLoading (ghost w) = None →
  own w (start_fetch i t w).
Proof.
  intros Hc Hl. split; [|split].
  - split; [|split].
    + intros p o. unfold outcome_of; simpl.
      intros Ho. rewrite lookup_app_l; [done|].
      apply lookup_lt_is_Some. destruct (promises w !! p); [by eexists|done].
    + intros x. unfold known_profile, answer. by rewrite Hc, Hl.
    + intros p _ Hl'. congruence.
  - unfold name_view. rewrite requests_start_fetch, filter_app. simpl.
    by rewrite app_nil_r.
  - unfold avatar_view. rewrite requests_start_fetch, filter_app. simpl.
    by rewrite app_nil_r.
Qed.

(** The rule of [lookupUserInfo]: whichever way the lookup goes, what
    follows starts in a world that knows the profile of the user
    returned. *)
Lemma wp_lookupUserInfo (i : nat) (id tok : string) Φ (w0 w : World) :
  guar i w0 w →
  (∀ w0' w' e, guar i w0' w' → rely i w w' → Φ (inl e) w0' w') →
  (∀ w0' w' u, guar i w0' w' → rely i w w' →
               known_profile w' = Some (inr (u ≫= profile)) →
               Φ (inr u) w0' w') →
  wp (rely i) (guar i) (lookupUserInfo id tok) Φ w0 w.
Proof.
  intros HG Herr Hok.
  destruct (userInfoCache (ghost w)) as [u|] eqn:Hc.
  { unfold lookupUserInfo; simpl. rewrite Hc; simpl.
    apply Hok; [done|apply rely_refl|].
    unfold known_profile, answer. by rewrite Hc. }
  destruct (userInfoLoading (ghost w)) as [p|] eqn:Hl.
  { unfold lookupUserInfo; simpl. rewrite Hc; simpl. rewrite Hl; simpl.
    split; [done|]. intros w' o Hrely Ho.
    assert (known_profile w' = Some (profile_of (joined_result o))) as Hk.
    { destruct Hrely as [(_ & _ & Hload) _]. specialize (Hload p Hc Hl).
      by rewrite Ho in Hload. }
    destruct o as [[[[u|]]| | | | | |]|e]; simpl;
      first [ apply Hok; [apply guar_refl|done|done]
            | apply Herr; [apply guar_refl|done] ]. }
  pose proof (own_start_fetch id tok w Hc Hl) as Hown.
  assert (wp (rely i) (guar i)
             (Await (length (promises w))
                (fun o => match fetched_result o with
                          | inl e => Throw e
                          | inr u => Do (fun w => (after_fetch o w, tt))
                                        (fun _ => Ret u)
                          end))
             Φ w0 (start_fetch id tok w)) as Hwp.
  { simpl. split; [eapply guar_trans; [done|by apply own_guar]|].
    intros w' o Hrely Ho.
    assert (known_profile w' = Some (profile_of (joined_result o))) as Hk.
    { destruct Hrely as [(_ & _ & Hload) _].
      specialize (Hload (length (promises w)) Hc eq_refl).
      by rewrite Ho in Hload. }
    assert (rely i w w') as Hww'.
    { eapply rely_trans; [by apply own_rely|done]. }
    destruct (fetched_result o) as [e|u] eqn:Hf; simpl.
    { apply Herr; [apply guar_refl|done]. }
    unfold after_fetch.
    destruct (cached_user o) as [u'|] eqn:Hcu.
    - rewrite (cached_user_fetched o u' Hcu) in Hf. injection Hf as <-.
      pose proof (own_commit w' o u' Hcu Hk) as Hcm.
      apply Hok; [by apply own_guar| |].
      + eapply rely_trans; [done|by apply own_rely].
      + unfold known_profile, answer. done.
    - apply Hok; [apply guar_refl|done|].
      rewrite Hk, <- profile_of_fetched, Hf. done. }
  revert Hwp. unfold lookupUserInfo; simpl. rewrite Hc; simpl. rewrite Hl; simpl.
  unfold with_ghost, with_main; simpl.
  intros [HG' Hk]. split; [exact HG'|].
  intros w' o Hrely Ho. specialize (Hk w' o Hrely Ho).
  revert Hk. unfold after_fetch.
  by destruct o as [[[[[[pr|]]|]]| | | | | |]|e].
Qed.

(** The same for a lookup that is awaited: what follows starts in a later
    turn, in a world that knows the profile of the user returned. *)
Lemma wp_lookupUserInfo_call (i : nat) {B : Type} (id tok : string)
      (f : option ISlackUser → Prog B) Φ (w0 w : World) :
  guar i w0 w →
  (∀ w' e, rely i w w' → Φ (inl e) w' w') →
  (∀ w' u, rely i w w' → known_profile w' = Some (inr (u ≫= profile)) →
           wp (rely i) (guar i) (f u) Φ w' w') →
  wp (rely i) (guar i) (await_call (lookupUserInfo id tok) ≫= f) Φ w0 w.
Proof.
  intros HG Herr Hok. apply wp_bind, wp_await_call, wp_lookupUserInfo; [done|..].
  - intros w0' w' e HG' Hr. split; [done|]. intros w'' Hr'.
    apply Herr. by eapply rely_trans.
  - intros w0' w' u HG' Hr Hk. split; [done|]. intros w'' Hr'.
    apply Hok; [by eapply rely_trans|].
    destruct Hr' as [(_ & Hkp & _) _]. by apply Hkp.
Qed.

(** The rules of the primitive steps. *)
Lemma wp_call {A : Type} St G (r : Request) (k : nat → Prog A) Φ (w0 w : World) :
  wp St G (k (length (promises w))) Φ w0 (fst (issue r w)) →
  wp St G (p ← call r; k p) Φ w0 w.
Proof. done. Qed.

Lemma wp_this {A X : Type} St G (f : SlackGhost → X) (k : X → Prog A) Φ (w0 w : World) :
  wp St G (k (f (ghost w))) Φ w0 w →
  wp St G (x ← this f; k x) Φ w0 w.
Proof. done. Qed.

Lemma wp_assign {A : Type} St G (f : SlackGhost → SlackGhost) (k : Prog A) Φ (w0 w : World) :
  wp St G k Φ w0 (with_ghost f w) →
  wp St G (assign f;; k) Φ w0 w.
Proof. done. Qed.

Lemma wp_await {A : Type} (St G : World → World → Prop) (p : nat)
      (k : Value → Prog A) Φ (w0 w : World) :
  G w0 w →
  (∀ w' o, St w w' → outcome_of w' p = Some o →
           match o with
           | Resolved v => wp St G (k v) Φ w' w'
           | Rejected e => Φ (inl e) w' w'
           end) →
  wp St G (v ← await p; k v) Φ w0 w.
Proof.
  intros HG Hk. simpl. split; [done|]. intros w' o HSt Ho.
  specialize (Hk w' o HSt Ho). by destruct o.
Qed.

Lemma requests_issue r (w : World) :
  requests (fst (issue r w)) = requests w ++ [r].
Proof. unfold requests; simpl. by rewrite fmap_app. Qed.

Lemma base_issue r (w : World) : base w (fst (issue r w)).
Proof.
  apply (base_extend _ _ [mkPromise r None]); try done.
  by repeat constructor.
Qed.

Lemma guar_issue i r (w : World) :
  (i ≠ 0 → name_write r = false) → (i ≠ 1 → avatar_write r = false) →
  guar i w (fst (issue r w)).
Proof.
  intros Hn Ha. split; [apply base_issue|]. split; intros Hi.
  - unfold name_view. rewrite requests_issue, filter_app.
    rewrite (filter_cons name_write). rewrite (Hn Hi). simpl.
    by rewrite filter_nil, app_nil_r.
  - unfold avatar_view. rewrite requests_issue, filter_app.
    rewrite (filter_cons avatar_write). rewrite (Ha Hi). simpl.
    by rewrite filter_nil, app_nil_r.
Qed.

Lemma known_profile_rely i (w w' : World) x :
  rely i w w' → known_profile w = Some x → known_profile w' = Some x.
Proof. intros [(_ & Hk & _) _]. apply Hk. Qed.

Lemma known_profile_guar i (w w' : World) x :
  guar i w w' → known_profile w = Some x → known_profile w' = Some x.
Proof. intros [(_ & Hk & _) _]. apply Hk. Qed.

Lemma known_profile_with_ghost (f : SlackGhost → SlackGhost) (w : World) :
  userInfoCache (f (ghost w)) = userInfoCache (ghost w) →
  userInfoLoading (f (ghost w)) = userInfoLoading (ghost w) →
  known_profile (with_ghost f w) = known_profile w.
Proof.
  intros Hc Hl. unfold known_profile, answer, outcome_of. simpl.
  by rewrite Hc, Hl.
Qed.

Lemma guar_with_ghost i (f : SlackGhost → SlackGhost) (w : World) :
  userInfoCache (f (ghost w)) = userInfoCache (ghost w) →
  userInfoLoading (f (ghost w)) = userInfoLoading (ghost w) →
  (i ≠ 0 → displayName (f (ghost w)) = displayName (ghost w)) →
  (i ≠ 1 → avatarUrl (f (ghost w)) = avatarUrl (ghost w)) →
  guar i w (with_ghost f w).
Proof.
  intros Hc Hl Hn Ha. split; [|split].
  - apply (base_extend _ _ []); try done. by rewrite app_nil_r.
  - intros Hi. unfold name_view. simpl. by rewrite (Hn Hi).
  - intros Hi. unfold avatar_view. simpl. by rewrite (Ha Hi).
Qed.

Lemma wp_updateDisplayname (message : Message) (room : BridgedRoom) (winit : World) :
  wp (rely 0) (guar 0)
     (catch (updateDisplayname message room ≫= fun v => Ret (RValue v))
            (fun e => Ret (RFailed e)))
     (post guar (update_post message room winit) 0) winit winit.
Proof.
  apply wp_catch, wp_bind. unfold updateDisplayname.
  destruct (JS.truthy (AccessToken room)) eqn:Ht; cbn [negb].
  2:{ simpl. split; [apply guar_refl|]. split; [by left|]. intros _. by left. }
  apply wp_bind.
  match goal with |- wp _ _ _ ?Φ _ _ => set (Φ1 := Φ) end.
  assert (∀ e w0 w, guar 0 w0 w → rely 0 winit w → Φ1 (inl e) w0 w) as Hfail.
  { intros e w0 w HG (_ & Hn & _). subst Φ1. simpl.
    split; [done|]. split; [left; by apply Hn|done]. }
  assert (∀ n w0 w,
    guar 0 w0 w → rely 0 winit w →
    (if JS.truthy (user_name message) then n = user_name message
     else ∃ pr, known_profile w = Some (inr pr) ∧ n = name_of_profile pr) →
    Φ1 (inr n) w0 w) as Hrest.
  { intros n w0 w HG Hrely Hres. subst Φ1. cbv beta iota.
    pose proof Hrely as (_ & Hn & _). specialize (Hn eq_refl).
    apply wp_this.
    destruct (negb (JS.truthy n) || JS.eq (displayName (ghost w)) n) eqn:Hcond.
    { simpl. split; [done|]. split; [by left|]. intros _. right. exists n.
      split; [done|].
      apply orb_true_iff in Hcond as [Hf|He].
      - left. by apply negb_true_iff.
      - right. unfold JS.eq in He. by apply bool_decide_eq_true in He. }
    apply wp_call, wp_await.
    { eapply guar_trans; [done|]. by apply guar_issue. }
    intros w1 o1 Hr1 Ho1.
    assert (name_view w1
            = (displayName (ghost w),
               filter name_write (requests winit) ++ [SetDisplayName n])) as Hv1.
    { destruct Hr1 as (_ & Hn1 & _). rewrite (Hn1 eq_refl).
      unfold name_view. rewrite requests_issue, filter_app.
      unfold name_view in Hn. injection Hn as _ ->. done. }
    destruct o1 as [v1|e1].
    2:{ simpl. split; [apply guar_refl|]. split; [|done].
        right. exists n. unfold name_view in Hv1. injection Hv1 as Hd ->.
        split; [done|]. left. rewrite Hd.
        unfold name_view in Hn. by injection Hn. }
    apply wp_assign, wp_bind. unfold putUserToStore. apply wp_this.
    cbn [wp call]. cbv beta iota.
    split.
    { eapply (guar_trans _ _ (with_ghost (set_displayName n) w1)).
      - by apply guar_with_ghost.
      - by apply guar_issue. }
    intros w2 o2 Hr2 Ho2.
    set (w1' := fst (issue (PutUserToStore _) (with_ghost (set_displayName n) w1))) in *.
    assert (name_view w2
            = (n, filter name_write (requests winit) ++ [SetDisplayName n])) as Hv2.
    { destruct Hr2 as (_ & Hn2 & _). rewrite (Hn2 eq_refl).
      unfold name_view. subst w1'. rewrite requests_issue, filter_app.
      cbn [fst issue ghost with_ghost set_displayName displayName].
      unfold name_view in Hv1. injection Hv1 as _ Hf.
      unfold requests in *. cbn [promises with_ghost]. rewrite Hf.
      rewrite (filter_cons name_write). simpl. by rewrite filter_nil, app_nil_r. }
    assert (name_log winit w2) as Hlog.
    { right. exists n. unfold name_view in Hv2. injection Hv2 as Hd ->. auto. }
    destruct o2 as [v2|e2]; simpl.
    2:{ split; [apply guar_refl|]. by split. }
    split; [apply guar_refl|]. split; [done|]. intros _. right. exists n.
    split.
    - destruct (JS.truthy (user_name message)); [done|].
      destruct Hres as (pr & Hpr & Hnpr). exists pr. split; [|done].
      eapply known_profile_rely; [exact Hr2|]. subst w1'.
      eapply known_profile_guar; [by apply (guar_issue 0)|].
      rewrite known_profile_with_ghost by done.
      eapply known_profile_rely; [exact Hr1|].
      eapply known_profile_guar; [by apply (guar_issue 0)|]. done.
    - right. unfold name_view in Hv2. by injection Hv2. }
  destruct (JS.truthy (user_name message)) eqn:Hinline; cbn [negb].
  { simpl. apply Hrest; [apply guar_refl|apply rely_refl|]. by rewrite ?Hinline. }
  apply wp_await_call. unfold getDisplayname. apply wp_lookupUserInfo_call.
  - apply guar_refl.
  - intros w' e Hr. split; [apply guar_refl|]. intros w'' Hr'.
    apply Hfail; [apply guar_refl|by eapply rely_trans].
  - intros w' u Hr Hk.
    assert (wp (rely 0) (guar 0) (Ret (name_of_profile (u ≫= profile)))
               (fun r w0' w' => guar 0 w0' w' ∧
                                ∀ w'', rely 0 w' w'' → Φ1 r w'' w'') w' w') as H.
    { simpl. split; [apply guar_refl|]. intros w'' Hr'.
      apply Hrest; [apply guar_refl|by eapply rely_trans|].
      rewrite ?Hinline. eexists. split; [|done].
      by eapply known_profile_rely. }
    by destruct u as [[[p|]]|].
Qed.

Lemma avatar_view_issue r (w : World) :
  avatar_write r = false → avatar_view (fst (issue r w)) = avatar_view w.
Proof.
  intros Hr. unfold avatar_view. rewrite requests_issue, filter_app.
  rewrite (filter_cons avatar_write), Hr. simpl.
  by rewrite filter_nil, app_nil_r.
Qed.

Lemma wp_updateAvatar (message : Message) (room : BridgedRoom) (winit : World) :
  wp (rely 1) (guar 1)
     (catch (updateAvatar message room ≫= fun _ => Ret RVoid)
            (fun e => Ret (RFailed e)))
     (post guar (update_post message room winit) 1) winit winit.
Proof.
  apply wp_catch, wp_bind. unfold updateAvatar.
  destruct (JS.truthy (AccessToken room)) eqn:Ht; cbn [negb].
  2:{ simpl. split; [apply guar_refl|]. split; [by left|]. intros _. by left. }
  apply wp_bind.
  match goal with |- wp _ _ _ ?Φ _ _ => set (Φ1 := Φ) end.
  assert (∀ e w0 w, guar 1 w0 w → avatar_log winit w → Φ1 (inl e) w0 w) as Hfail.
  { intros e w0 w HG Hlog. subst Φ1. simpl. split; [done|]. by split. }
  assert (∀ pr w0 w,
    guar 1 w0 w → rely 1 winit w → known_profile w = Some (inr pr) →
    Φ1 (inr (avatar_of_profile pr)) w0 w) as Hrest.
  { intros pr w0 w HG Hrely Hpr. subst Φ1. cbv beta iota.
    set (url := avatar_of_profile pr).
    pose proof Hrely as (_ & _ & Ha). specialize (Ha eq_refl).
    apply wp_this.
    destruct (negb (JS.truthy url) || JS.eq (avatarUrl (ghost w)) url) eqn:Hcond.
    { simpl. split; [done|]. split; [by left|]. intros _. right. exists pr.
      split; [done|].
      apply orb_true_iff in Hcond as [Hf|He].
      - left. by apply negb_true_iff.
      - right. left. unfold JS.eq in He. by apply bool_decide_eq_true in He. }
    destruct (url ≫= match_last_segment) as [shortname|] eqn:Hshort.
    2:{ simpl. split; [done|]. split; [by left|]. intros _. right. exists pr.
        split; [done|]. by right; right. }
    apply wp_call, wp_await.
    { eapply guar_trans; [done|]. by apply guar_issue. }
    intros w1 o1 Hr1 Ho1.
    assert (avatar_view w1 = avatar_view winit) as Hv1.
    { destruct Hr1 as (_ & _ & Ha1). rewrite (Ha1 eq_refl).
      by rewrite avatar_view_issue. }
    assert (known_profile w1 = Some (inr pr)) as Hk1.
    { eapply known_profile_rely; [exact Hr1|].
      eapply known_profile_guar; [by apply (guar_issue 1)|]. done. }
    destruct o1 as [v1|e1].
    2:{ simpl. split; [apply guar_refl|]. split; [by left|done]. }
    destruct v1 as [r|content content_type|b|c| |ev|];
      try (simpl; split; [apply guar_refl|]; split; [by left|done]).
    cbn [full_response mbind Prog_bind bind]. cbv beta iota.
    apply wp_bind, wp_await_call. unfold uploadContent. apply wp_call, wp_await.
    { by apply guar_issue. }
    intros w2' o2 Hr2' Ho2.
    assert (∀ w2, rely 1 w2' w2 →
                  avatar_view w2 = avatar_view winit ∧
                  known_profile w2 = Some (inr pr)) as Hlater.
    { intros w2 Hr2.
      assert (rely 1 (fst (issue (UploadContent
                (mkFile content (Some shortname) content_type)) w1)) w2) as Hr
        by (by eapply rely_trans).
      split.
      - destruct Hr as (_ & _ & Ha2). rewrite (Ha2 eq_refl).
        by rewrite avatar_view_issue.
      - eapply known_profile_rely; [exact Hr|].
        eapply known_profile_guar; [by apply (guar_issue 1)|]. done. }
    assert (∀ e, (guar 1 w2' w2' ∧
                  ∀ w2, rely 1 w2' w2 →
                        wp (rely 1) (guar 1) (Ret (RFailed e))
                           (post guar (update_post message room winit) 1)
                           w2 w2)) as Hfail2.
    { intros e. split; [apply guar_refl|]. intros w2 Hr2.
      destruct (Hlater w2 Hr2) as [Hv2 _].
      simpl. split; [apply guar_refl|]. split; [by left|done]. }
    destruct o2 as [v2|e2]; [|apply Hfail2].
    destruct v2 as [r|c0 ct0|b|contentUri| |ev|]; try apply Hfail2.
    cbn [parse_content_uri wp]. cbv beta iota.
    split; [apply guar_refl|]. intros w2 Hr2.
    destruct (Hlater w2 Hr2) as [Hv2 Hk2].
    apply wp_call, wp_await.
    { by apply guar_issue. }
    intros w3 o3 Hr3 Ho3.
    assert (avatar_view w3
            = (avatarUrl (ghost w2),
               filter avatar_write (requests winit) ++ [SetAvatarUrl contentUri]))
      as Hv3.
    { destruct Hr3 as (_ & _ & Ha3). rewrite (Ha3 eq_refl).
      unfold avatar_view. rewrite requests_issue, filter_app.
      unfold avatar_view in Hv2. injection Hv2 as _ ->. done. }
    assert (known_profile w3 = Some (inr pr)) as Hk3.
    { eapply known_profile_rely; [exact Hr3|].
      eapply known_profile_guar; [by apply (guar_issue 1)|]. done. }
    assert (∀ w', filter avatar_write (requests w')
                  = filter avatar_write (requests w3) → avatar_log winit w')
      as Hlog.
    { intros w' Hw'. right. exists contentUri. rewrite Hw'.
      unfold avatar_view in Hv3. by injection Hv3. }
    destruct o3 as [v3|e3].
    2:{ simpl. split; [apply guar_refl|]. split; [by apply Hlog|done]. }
    apply wp_assign, wp_bind. unfold putUserToStore. apply wp_this.
    cbn [wp call]. cbv beta iota.
    set (w3' := with_ghost (set_avatarUrl url) w3).
    set (w4 := fst (issue (PutUserToStore (toEntry (ghost w3'))) w3')).
    assert (guar 1 w3 w4) as HG4.
    { eapply (guar_trans _ _ w3').
      - by apply guar_with_ghost.
      - by apply guar_issue. }
    split; [done|]. split.
    - apply Hlog. subst w4. rewrite requests_issue, filter_app.
      rewrite (filter_cons avatar_write). simpl.
      by rewrite filter_nil, app_nil_r.
    - intros _. right. exists pr. split.
      + eapply known_profile_guar; [exact HG4|done].
      + right. left. done. }
  apply wp_await_call. unfold lookupAvatarUrl. apply wp_lookupUserInfo_call.
  - apply guar_refl.
  - intros w' e Hr. split; [apply guar_refl|]. intros w'' Hr'.
    apply Hfail; [apply guar_refl|]. left.
    destruct (rely_trans _ _ _ _ Hr Hr') as (_ & _ & Ha). by apply Ha.
  - intros w' u Hr Hk.
    assert (wp (rely 1) (guar 1) (Ret (avatar_of_profile (u ≫= profile)))
               (fun r w0' w' => guar 1 w0' w' ∧
                                ∀ w'', rely 1 w' w'' → Φ1 r w'' w'') w' w') as H.
    { simpl. split; [apply guar_refl|]. intros w'' Hr'.
      apply Hrest; [apply guar_refl|by eapply rely_trans|].
      by eapply known_profile_rely. }
    by destruct u as [[[p|]]|].
Qed.

(** ** No call is lost *)

Lemma advance_numbers (s : Sys) i (m : Prog Result) :
  numbers (advance i m s) ≡ₚ i :: numbers s.
Proof.
  unfold numbers, advance.
  destruct (run m (world s)) as [w' [r|p k]]; simpl.
  - rewrite fmap_app. simpl.
    rewrite (Permutation_app_comm (fst <$> finished s)). simpl.
    by rewrite <- Permutation_middle.
  - rewrite fmap_app, <- app_assoc. simpl. by rewrite <- Permutation_middle.
Qed.

Lemma spawn_numbers (s : Sys) (m : Prog Result) :
  numbers (spawn m s) ≡ₚ spawned s :: numbers s.
Proof. unfold spawn. by rewrite advance_numbers. Qed.

Lemma advance_spawned (s : Sys) i (m : Prog Result) :
  spawned (advance i m s) = spawned s.
Proof. unfold advance. by destruct (run m (world s)) as [w' [r|p k]]. Qed.

Lemma continue_numbers (s : Sys) i : numbers (continue i s) ≡ₚ numbers s.
Proof.
  unfold continue.
  destruct (list_find _ (pool s)) as [[n t]|] eqn:Hfind; [|done].
  destruct (ready (world s) t) as [o|]; [|done].
  apply list_find_Some in Hfind as (Hn & _ & _).
  rewrite advance_numbers. unfold numbers. cbn [pool finished].
  pose proof (delete_Permutation _ _ _ Hn) as Hperm.
  assert (tid <$> pool s ≡ₚ tid t :: (tid <$> delete n (pool s))) as ->.
  { by rewrite Hperm at 1. }
  done.
Qed.

Lemma continue_spawned (s : Sys) i : spawned (continue i s) = spawned s.
Proof.
  unfold continue.
  destruct (list_find _ (pool s)) as [[n t]|]; [|done].
  destruct (ready (world s) t) as [o|]; [|done].
  by rewrite advance_spawned.
Qed.

Lemma turns_numbers l : ∀ s : Sys,
  numbers (steps (turns l) s) ≡ₚ numbers s ∧
  spawned (steps (turns l) s) = spawned s.
Proof.
  induction l as [|[p o|i] l IH]; intros s; [done| |].
  - destruct (IH (on_world (settle p o) s)) as [H1 H2]. by split.
  - destruct (IH (continue i s)) as [H1 H2].
    split; [by rewrite <- (continue_numbers s i)|by rewrite <- (continue_spawned s i)].
Qed.

(** ** The first update *)

Lemma sys_ok_idle St G Q (w : World) : sys_ok St G Q (idle w).
Proof.
  repeat split; simpl; try done.
  - constructor.
  - intros i Hi. by apply elem_of_nil in Hi.
  - intros t Ht. by apply elem_of_nil in Ht.
  - intros i r Hi. by apply elem_of_nil in Hi.
Qed.

Lemma update_sys_ok message room (w : World) l :
  sys_ok rely guar (update_post message room w)
         (steps (turns l) (invoke (call_update message room) (idle w))).
Proof.
  set (Q := update_post message room w).
  assert (∀ s, sys_ok rely guar Q s →
               sys_ok rely guar Q (steps (turns l) s)) as Hsteps.
  { induction l as [|[p o|i] l IH]; intros s Hs; [done| |]; apply IH.
    - apply (settle_sys_ok rely guar Q rely_trans
               (update_post_stable message room w) rely_store_outcome); done.
    - apply (continue_sys_ok rely guar Q rely_refl rely_trans guar_refl
               guar_trans guar_rely (update_post_stable message room w)); done. }
  apply Hsteps. unfold invoke. cbn [programs update foldl].
  destruct (spawn_sys_ok rely guar Q rely_trans guar_refl guar_trans
              guar_rely (update_post_stable message room w)
              (idle w) (sync_name message room) (sys_ok_idle _ _ _ w)
              (wp_updateDisplayname message room w)) as (H1 & Hsp & HG).
  set (s1 := spawn (sync_name message room) (idle w)) in *.
  apply (spawn_sys_ok rely guar Q rely_trans guar_refl guar_trans
           guar_rely (update_post_stable message room w)); [done|].
  rewrite Hsp. cbn [idle spawned].
  eapply wp_mono; [|apply wp_updateAvatar].
  intros r w0' w' [HG' [Hlog Hset]]. split; [done|]. split; [|done].
  destruct HG as (_ & _ & Ha). specialize (Ha ltac:(done)).
  unfold avatar_log in *. cbn [idle world] in Ha. rewrite <- Ha.
  destruct Hlog as [Hv|(uri & Hf)]; [by left|right].
  exists uri. rewrite Hf. unfold avatar_view in Ha. by injection Ha as _ ->.
Qed.

(** ** The second update *)

Lemma still_refl (w : World) : still w w.
Proof. split; [apply persist_refl|done]. Qed.

Lemma still_trans (w1 w2 w3 : World) : still w1 w2 → still w2 w3 → still w1 w3.
Proof.
  intros (Hp1 & Hr1 & Hg1) (Hp2 & Hr2 & Hg2).
  split; [by eapply persist_trans|]. split; congruence.
Qed.

Lemma still_store_outcome p o (w : World) :
  p < length (promises w) → outcome_of w p = None →
  still w (store_outcome p o w).
Proof.
  intros Hlt Hnone. split; [|split; [apply requests_store_outcome|done]].
  intros q o' Hq. destruct (decide (q = p)) as [->|Hqp]; [congruence|].
  unfold outcome_of, store_outcome in *; simpl.
  by rewrite list_lookup_alter_ne.
Qed.

Lemma still_settle p o (w : World) : still w (settle p o w).
Proof.
  unfold settle.
  destruct (promises w !! p) as [[r [o'|]]|] eqn:Hp; try apply still_refl.
  apply still_store_outcome.
  - apply lookup_lt_is_Some. by eexists.
  - unfold outcome_of. by rewrite Hp.
Qed.

Lemma known_profile_still (w w' : World) x :
  still w w' → known_profile w = Some x → known_profile w' = Some x.
Proof.
  intros (Hp & _ & Hg). unfold known_profile, answer. rewrite Hg.
  destruct (userInfoCache (ghost w)); [done|].
  destruct (userInfoLoading (ghost w)) as [p|]; [|done].
  destruct (outcome_of w p) as [o|] eqn:Ho; [|done].
  by rewrite (Hp p o Ho).
Qed.

Lemma name_settled_still message room (w w' : World) :
  still w w' → name_settled message room w → name_settled message room w'.
Proof.
  intros Hst [Ht|(n & Hres & Hn)]; [by left|right].
  exists n. destruct Hst as (Hp & Hr & Hg) eqn:E. rewrite Hg. split; [|done].
  destruct (JS.truthy (user_name message)); [done|].
  destruct Hres as (pr & Hpr & ->). exists pr. split; [|done].
  by eapply known_profile_still.
Qed.

Lemma avatar_settled_still room (w w' : World) :
  still w w' → avatar_settled room w → avatar_settled room w'.
Proof.
  intros Hst [Ht|(pr & Hpr & Ha)]; [by left|right].
  exists pr. split; [by eapply known_profile_still|].
  destruct Hst as (_ & _ & Hg). by rewrite Hg.
Qed.

(** The rule of a lookup whose answer is known: it changes nothing. *)
Lemma wp_lookupUserInfo_known (id tok : string) Φ (w0 w : World) pr :
  known_profile w = Some (inr pr) →
  still w0 w →
  (∀ w0' w' u, still w0' w' → still w w' → u ≫= profile = pr →
               Φ (inr u) w0' w') →
  wp still still (lookupUserInfo id tok) Φ w0 w.
Proof.
  intros Hk HG Hok. unfold known_profile, answer in Hk.
  destruct (userInfoCache (ghost w)) as [u|] eqn:Hc.
  { unfold lookupUserInfo; simpl. rewrite Hc; simpl.
    apply Hok; [done|apply still_refl|]. simpl in Hk. by injection Hk. }
  destruct (userInfoLoading (ghost w)) as [p|] eqn:Hl; [|done].
  destruct (outcome_of w p) as [o|] eqn:Ho; [|done]. simpl in Hk.
  unfold lookupUserInfo; simpl. rewrite Hc; simpl. rewrite Hl; simpl.
  split; [done|]. intros w' o' Hst Ho'.
  assert (o' = o) as ->.
  { destruct Hst as [Hp _]. apply Hp in Ho. congruence. }
  destruct o as [[[[u|]]| | | | | |]|e]; simpl in *; try done;
    (apply Hok; [apply still_refl|done|by injection Hk]).
Qed.

Lemma wp_sync_name_settled i message room (w : World) :
  name_settled message room w →
  wp still still (sync_name message room)
     (post (fun _ => still) ended_well i) w w.
Proof.
  intros Hs. unfold sync_name. apply wp_catch, wp_bind. unfold updateDisplayname.
  destruct (JS.truthy (AccessToken room)) eqn:Ht; cbn [negb].
  2:{ simpl. split; [apply still_refl|done]. }
  destruct Hs as [?|(n & Hres & Hst)]; [congruence|].
  apply wp_bind.
  match goal with |- wp _ _ _ ?Φ _ _ => set (Φ1 := Φ) end.
  assert (∀ w', still w w' → Φ1 (inr n) w' w') as Hrest.
  { intros w' (_ & _ & Hg). subst Φ1. cbv beta iota. apply wp_this.
    rewrite Hg.
    assert (negb (JS.truthy n) || JS.eq (displayName (ghost w)) n = true) as ->.
    { destruct Hst as [->|Heq]; [done|]. unfold JS.eq.
      rewrite bool_decide_eq_true_2 by done. by rewrite orb_true_r. }
    simpl. split; [apply still_refl|done]. }
  destruct (JS.truthy (user_name message)) eqn:Hinline; cbn [negb].
  { subst n. simpl. apply Hrest, still_refl. }
  destruct Hres as (pr & Hpr & ->).
  apply wp_await_call. unfold getDisplayname.
  apply wp_bind, wp_await_call, (wp_lookupUserInfo_known _ _ _ _ _ pr);
    [done|apply still_refl|].
  intros w0' w' u HG Hw Hu. split; [done|]. intros w'' Hw'.
  assert (wp still still (Ret (name_of_profile pr))
             (fun r w0' w' => still w0' w' ∧
                              ∀ w'', still w' w'' → Φ1 r w'' w'') w'' w'') as H.
  { simpl. split; [apply still_refl|]. intros w3 Hw3.
    apply Hrest. eapply still_trans; [exact Hw|].
    eapply still_trans; [exact Hw'|exact Hw3]. }
  subst pr. by destruct u as [[[p|]]|].
Qed.

Lemma wp_sync_avatar_settled i message room (w : World) :
  avatar_settled room w →
  wp still still (sync_avatar message room)
     (post (fun _ => still) ended_well i) w w.
Proof.
  intros Hs. unfold sync_avatar. apply wp_catch, wp_bind. unfold updateAvatar.
  destruct (JS.truthy (AccessToken room)) eqn:Ht; cbn [negb].
  2:{ simpl. split; [apply still_refl|done]. }
  destruct Hs as [?|(pr & Hpr & Hst)]; [congruence|].
  apply wp_bind.
  match goal with |- wp _ _ _ ?Φ _ _ => set (Φ1 := Φ) end.
  assert (∀ w', still w w' → Φ1 (inr (avatar_of_profile pr)) w' w') as Hrest.
  { intros w' (_ & _ & Hg). subst Φ1. cbv beta iota. apply wp_this.
    rewrite Hg.
    destruct Hst as [Hf|[Heq|Hno]].
    - rewrite Hf. simpl. split; [apply still_refl|done].
    - unfold JS.eq. rewrite bool_decide_eq_true_2 by done.
      rewrite orb_true_r. simpl. split; [apply still_refl|done].
    - destruct (negb _ || _); [simpl; split; [apply still_refl|done]|].
      rewrite Hno. simpl. split; [apply still_refl|done]. }
  apply wp_await_call. unfold lookupAvatarUrl.
  apply wp_bind, wp_await_call, (wp_lookupUserInfo_known _ _ _ _ _ pr);
    [done|apply still_refl|].
  intros w0' w' u HG Hw Hu. split; [done|]. intros w'' Hw'.
  assert (wp still still (Ret (avatar_of_profile pr))
             (fun r w0' w' => still w0' w' ∧
                              ∀ w'', still w' w'' → Φ1 r w'' w'') w'' w'') as H.
  { simpl. split; [apply still_refl|]. intros w3 Hw3.
    apply Hrest. eapply still_trans; [exact Hw|].
    eapply still_trans; [exact Hw'|exact Hw3]. }
  subst pr. by destruct u as [[[p|]]|].
Qed.

(** A second update, started where the stored name and avatar are the
    ones it resolves, changes neither the ghost nor the requests, however
    its two calls and the settlements are scheduled. *)
Lemma second_update_still message room (s1 : Sys) l :
  sys_ok (fun _ => still) (fun _ => still) ended_well s1 →
  name_settled message room (world s1) →
  avatar_settled room (world s1) →
  still (world s1) (world (steps (turns l) (invoke (call_update message room) s1))).
Proof.
  intros H1 Hname Havatar.
  set (St := fun _ : nat => still).
  assert (∀ i j w w', i ≠ j → St i w w' → St j w w') as HGSt by done.
  assert (∀ i r w w', ended_well i r w → St i w w' → ended_well i r w')
    as HQ by done.
  assert (∀ i p o w, p < length (promises w) → outcome_of w p = None →
                     St i w (store_outcome p o w)) as Henv.
  { intros i p o w. apply still_store_outcome. }
  assert (∀ s : Sys, sys_ok St St ended_well s → still (world s1) (world s) →
                     still (world s1) (world (steps (turns l) s))) as Hsteps.
  { induction l as [|[p o|i] l IH]; intros s Hs Hw; [done| |]; apply IH.
    - apply (settle_sys_ok St St ended_well (fun _ => still_trans) HQ Henv); done.
    - eapply still_trans; [done|]. apply still_settle.
    - apply (continue_sys_ok St St ended_well (fun _ => still_refl)
               (fun _ => still_trans) (fun _ => still_refl)
               (fun _ => still_trans) HGSt HQ); done.
    - eapply still_trans; [done|].
      apply (continue_sys_ok St St ended_well (fun _ => still_refl)
               (fun _ => still_trans) (fun _ => still_refl)
               (fun _ => still_trans) HGSt HQ s i Hs). }
  unfold invoke. cbn [programs update foldl].
  destruct (spawn_sys_ok St St ended_well
              (fun _ => still_trans) (fun _ => still_refl)
              (fun _ => still_trans) HGSt HQ
              s1 (sync_name message room) H1
              (wp_sync_name_settled _ message room (world s1) Hname))
    as (H2 & Hsp & HG).
  set (sA := spawn (sync_name message room) s1) in *.
  destruct (spawn_sys_ok St St ended_well
              (fun _ => still_trans) (fun _ => still_refl)
              (fun _ => still_trans) HGSt HQ
              sA (sync_avatar message room) H2
              (wp_sync_avatar_settled _ message room (world sA)
                 (avatar_settled_still room _ _ HG Havatar)))
    as (H3 & _ & HG').
  apply Hsteps; [done|]. by eapply still_trans.
Qed.

(** ** A call that needs nothing more ends when it is continued *)

Lemma finish_bind {A B : Type} (m : Prog A) (f : A -> Prog B) (w : World) :
  finish (m ≫= f) w =
  match finish m w with
  | Some (w', inr a) => finish (f a) w'
  | Some (w', inl e) => Some (w', inl e)
  | None => None
  end.
Proof.
  revert w. induction m as [a|e|X op k IH|p k IH|k IH]; intros w; simpl; try done.
  - destruct (op w) as [w' x]. apply IH.
  - destruct (outcome_of w p) as [o|]; [apply IH|done].
Qed.

Lemma finish_catch {A : Type} (m : Prog A) (h : Err -> Prog A) (w : World) :
  finish (catch m h) w =
  match finish m w with
  | Some (w', inr a) => Some (w', inr a)
  | Some (w', inl e) => finish (h e) w'
  | None => None
  end.
Proof.
  revert w. induction m as [a|e|X op k IH|p k IH|k IH]; intros w; simpl; try done.
  - destruct (op w) as [w' x]. apply IH.
  - destruct (outcome_of w p) as [o|]; [apply IH|done].
Qed.

Lemma finish_await_call {A : Type} (m : Prog A) (w : World) :
  finish (await_call m) w = finish m w.
Proof.
  unfold await_call. rewrite finish_catch.
  change (finish (m ≫= (fun x => Pause (Ret x))) w)
    with (finish (m ≫= (fun x => Pause (Ret x))) w).
  rewrite finish_bind. by destruct (finish m w) as [[w' [e|a]]|].
Qed.

Lemma finish_run {A : Type} (m : Prog A) (w : World) :
  finish m w =
  match run m w with
  | (w', Finished r) => Some (w', r)
  | (w', Parked p k) =>
    o ← ready w' (mkTask 0 p (fun _ => Ret RVoid)); finish (k o) w'
  end.
Proof.
  revert w. induction m as [a|e|X op k IH|p k IH|k IH]; intros w; simpl; try done.
  destruct (op w) as [w' x]. apply IH.
Qed.

Lemma finish_lookupUserInfo (w : World) pr (i t : string) :
  known_profile w = Some (inr pr) →
  ∃ u, finish (lookupUserInfo i t) w = Some (w, inr u) ∧ u ≫= profile = pr.
Proof.
  unfold known_profile, answer. intros Hk.
  destruct (userInfoCache (ghost w)) as [u|] eqn:Hc.
  { exists (Some u). unfold lookupUserInfo; simpl. rewrite Hc; simpl.
    split; [done|]. simpl in Hk. by injection Hk. }
  destruct (userInfoLoading (ghost w)) as [p|] eqn:Hl; [|done].
  destruct (outcome_of w p) as [o|] eqn:Ho; [|done]. simpl in Hk.
  unfold lookupUserInfo; simpl. rewrite Hc; simpl. rewrite Hl; simpl.
  rewrite Ho; simpl.
  destruct o as [[[[u|]]| | | | | |]|e]; simpl in *; try done;
    eexists; (split; [done|by injection Hk]).
Qed.

(** Where the stored name is the resolved one, [updateDisplayname] gets
    to its end with what is settled, and leaves the world as it is. *)
Lemma finish_sync_name message room (w : World) :
  name_settled message room w →
  finish (sync_name message room) w = Some (w, inr (RValue VUndefined)).
Proof.
  intros Hs. unfold sync_name. rewrite finish_catch, finish_bind.
  unfold updateDisplayname.
  destruct (JS.truthy (AccessToken room)) eqn:Ht; cbn [negb]; [|done].
  destruct Hs as [?|(n & Hres & Hst)]; [congruence|].
  assert (∀ n, JS.truthy n = false ∨ displayName (ghost w) = n →
          negb (JS.truthy n) || JS.eq (displayName (ghost w)) n = true) as Hcond.
  { intros n' [->|Heq]; [done|]. unfold JS.eq.
    rewrite bool_decide_eq_true_2 by done. by rewrite orb_true_r. }
  rewrite finish_bind.
  destruct (JS.truthy (user_name message)) eqn:Hinline; cbn [negb].
  - subst n. simpl. by rewrite Hcond.
  - destruct Hres as (pr & Hpr & ->).
    rewrite finish_await_call. unfold getDisplayname.
    rewrite finish_bind, finish_await_call.
    destruct (finish_lookupUserInfo w pr (user_id message)
                (default "" (AccessToken room)) Hpr) as (u & -> & Hu).
    assert (name_of_profile pr = name_of u) as Hname.
    { subst pr. by destruct u as [[[p|]]|]. }
    specialize (Hcond (name_of u)).
    rewrite Hname in Hst. specialize (Hcond Hst).
    destruct u as [[[p|]]|]; unfold name_of in Hcond; simpl in *;
      first [done|by rewrite Hcond].
Qed.

(** Where the stored avatar is the resolved one, [updateAvatar] gets to
    its end with what is settled, and leaves the world as it is. *)
Lemma finish_sync_avatar message room (w : World) :
  avatar_settled room w →
  finish (sync_avatar message room) w = Some (w, inr RVoid).
Proof.
  intros Hs. unfold sync_avatar. rewrite finish_catch, finish_bind.
  unfold updateAvatar.
  destruct (JS.truthy (AccessToken room)) eqn:Ht; cbn [negb]; [|done].
  destruct Hs as [?|(pr & Hpr & Hst)]; [congruence|].
  rewrite finish_bind, finish_await_call. unfold lookupAvatarUrl.
  rewrite finish_bind, finish_await_call.
  destruct (finish_lookupUserInfo w pr (user_id message)
              (default "" (AccessToken room)) Hpr) as (u & -> & Hu).
  assert (finish match u with
                 | Some u0 =>
                   match profile u0 with
                   | Some profile =>
                     Ret (image_original profile ||| image_1024 profile |||
                          image_512 profile ||| image_192 profile |||
                          image_72 profile ||| image_48 profile)
                   | None => Ret None
                   end
                 | None => Ret None
                 end w = Some (w, inr (avatar_of_profile pr))) as ->.
  { subst pr. by destruct u as [[[p|]]|]. }
  simpl.
  destruct Hst as [Hf|[Heq|Hno]].
  - by rewrite Hf.
  - unfold JS.eq. rewrite bool_decide_eq_true_2 by done.
    by rewrite orb_true_r.
  - destruct (negb _ || _); [done|]. by rewrite Hno.
Qed.

(** The call parked last goes on. *)
Lemma continue_last (w : World) ts sp fin (t : Task) o :
  tid t ∉ tid <$> ts →
  ready w t = Some o →
  continue (tid t) (mkSys w (ts ++ [t]) sp fin)
  = advance (tid t) (cont t o) (mkSys w ts sp fin).
Proof.
  intros Hnew Hready. unfold continue. cbn [pool world spawned finished].
  rewrite list_find_app_r.
  2:{ apply list_find_None, Forall_forall. intros t' Ht' E.
      apply Hnew. rewrite <- E. by apply list_elem_of_fmap_2. }
  simpl. rewrite decide_True by done. simpl. rewrite Hready.
  replace (delete (length ts) (ts ++ [t])) with ts; [done|].
  by rewrite delete_middle, app_nil_r.
Qed.

(** A call that gets to its end with what is settled does so in the
    system, by being continued often enough. *)
Lemma advance_finish (m : Prog Result) : ∀ (w : World) ts sp fin i w' r,
  finish m w = Some (w', r) → i ∉ tid <$> ts →
  ∃ n, steps (replicate n (Continue i)) (advance i m (mkSys w ts sp fin))
       = mkSys w' ts sp (fin ++ [(i, r)]).
Proof.
  induction m as [a|e|X op k IH|p k IH|k IH]; intros w ts sp fin i w' r Hf Hi;
    simpl in Hf.
  - injection Hf as <- <-. by exists 0.
  - injection Hf as <- <-. by exists 0.
  - destruct (op w) as [w1 x] eqn:Hop.
    destruct (IH x w1 ts sp fin i w' r Hf Hi) as [n Hn]. exists n.
    rewrite <- Hn. unfold advance. simpl. by rewrite Hop.
  - destruct (outcome_of w p) as [o|] eqn:Ho; [|done]. simpl in Hf.
    destruct (IH o w ts sp fin i w' r Hf Hi) as [n Hn]. exists (S n).
    rewrite <- Hn.
    change (replicate (S n) (Continue i))
      with (Continue i :: replicate n (Continue i)).
    unfold steps. cbn [foldl]. f_equal.
    by apply (continue_last w ts sp fin (mkTask i (Some p) k) o).
  - destruct (IH w ts sp fin i w' r Hf Hi) as [n Hn]. exists (S n).
    rewrite <- Hn.
    change (replicate (S n) (Continue i))
      with (Continue i :: replicate n (Continue i)).
    unfold steps. cbn [foldl]. f_equal.
    by apply (continue_last w ts sp fin (mkTask i None (fun _ => k))
                (Resolved VUndefined)).
Qed.

Lemma spawn_finish (m : Prog Result) (s : Sys) w' r :
  finish m (world s) = Some (w', r) →
  (∀ j, j ∈ tid <$> pool s → j < spawned s) →
  ∃ n, steps (replicate n (Continue (spawned s))) (spawn m s)
       = mkSys w' (pool s) (S (spawned s)) (finished s ++ [(spawned s, r)]).
Proof.
  intros Hf Hlt. unfold spawn. apply advance_finish; [done|].
  intros Hin. apply Hlt in Hin. lia.
Qed.

Lemma steps_app (es1 es2 : list Event) (s : Sys) :
  steps (es1 ++ es2) s = steps es2 (steps es1 s).
Proof. apply foldl_app. Qed.

(** The second update gets to its end: continued often enough, its two
    calls end, neither with a failure. *)
Lemma second_update_ends message room (s1 : Sys) :
  sys_ok (fun _ => still) (fun _ => still) ended_well s1 →
  pool s1 = [] →
  name_settled message room (world s1) →
  avatar_settled room (world s1) →
  ∃ l r2 r3,
    let s2 := steps (Continue <$> l) (invoke (call_update message room) s1) in
    pool s2 = [] ∧
    finished s2 ≡ₚ (spawned s1, r2) :: (S (spawned s1), r3) :: finished s1 ∧
    succeeded r2 = true ∧ succeeded r3 = true.
Proof.
  intros H1 Hpool Hname Havatar.
  set (St := fun _ : nat => still).
  assert (∀ i j w w', i ≠ j → St i w w' → St j w w') as HGSt by done.
  assert (∀ i r w w', ended_well i r w → St i w w' → ended_well i r w')
    as HQ by done.
  unfold invoke. cbn [programs update foldl].
  destruct (spawn_sys_ok St St ended_well
              (fun _ => still_trans) (fun _ => still_refl)
              (fun _ => still_trans) HGSt HQ
              s1 (sync_name message room) H1
              (wp_sync_name_settled _ message room (world s1) Hname))
    as (H2 & Hsp & HG).
  set (sA := spawn (sync_name message room) s1) in *.
  pose proof (finish_sync_name message room (world s1) Hname) as Hf2.
  pose proof (finish_sync_avatar message room (world sA)
                (avatar_settled_still room _ _ HG Havatar)) as Hf3.
  destruct (spawn_finish _ sA _ _ Hf3) as [n3 Hn3].
  { intros j Hj. destruct H2 as (_ & Hlt & _). apply Hlt, elem_of_app. by left. }
  rewrite Hsp in Hn3.
  rewrite finish_run in Hf2.
  assert (sA = advance (spawned s1) (sync_name message room)
                 (mkSys (world s1) [] (S (spawned s1)) (finished s1))) as HsA.
  { subst sA. unfold spawn. by rewrite Hpool. }
  unfold advance in HsA. cbn [world pool spawned finished] in HsA.
  destruct (run (sync_name message room) (world s1)) as [wA [r|p k]].
  - (* the first call ended at once *)
    injection Hf2 as -> ->.
    exists (replicate n3 (S (spawned s1))), (inr (RValue VUndefined)), (inr RVoid).
    cbv zeta. rewrite fmap_replicate, Hn3, HsA. cbn [pool finished].
    split; [done|]. split; [|done].
    rewrite <- app_assoc. simpl. apply (Permutation_app_comm _ [_; _]).
  - (* the first call is parked: it goes on after the second *)
    destruct (ready wA (mkTask 0 p (fun _ => Ret RVoid))) as [o|] eqn:Ho;
      [|done].
    simpl in Hf2.
    set (t := mkTask (spawned s1) p k).
    set (fin := finished s1 ++ [(S (spawned s1), inr RVoid)]).
    destruct (advance_finish (k o) wA [] (S (S (spawned s1))) fin
                (spawned s1) (world s1) (inr (RValue VUndefined)) Hf2)
      as [n2 Hn2].
    { intros Hin. by apply elem_of_nil in Hin. }
    exists (replicate n3 (S (spawned s1)) ++ spawned s1 :: replicate n2 (spawned s1)),
      (inr (RValue VUndefined)), (inr RVoid).
    cbv zeta. rewrite fmap_app, fmap_cons, !fmap_replicate, steps_app, Hn3, HsA.
    cbn [pool finished world spawned].
    change (steps (Continue (spawned s1) :: ?l) ?s)
      with (steps l (continue (spawned s1) s)).
    rewrite (continue_last wA [] _ _ t o); [| |exact Ho].
    2:{ intros Hin. by apply elem_of_nil in Hin. }
    cbn [tid cont t]. fold fin. rewrite Hn2. cbn [pool finished].
    split; [done|]. split; [|done].
    subst fin. rewrite <- app_assoc. simpl.
    rewrite (Permutation_app_comm _ [_; _]). simpl. apply Permutation_swap.
Qed.

(** C4: [update] is called on a ghost with no call under way; its
    promises are settled, and its two calls go on, in any order and with
    any outcomes, until both synchronisations have ended, neither with a
    failure caught.  Then each attribute has had at most one puppet write
    (none, and the stored value is as it was; or exactly one), and
    exactly one where a change was due: the resolved name is not empty
    and differs from the stored one; the resolved avatar is not empty,
    has a file name and differs from the stored one.  A second [update]
    with the same event, however it is scheduled, issues no request at
    all (no puppet call, no store write, no lookup) and leaves the ghost
    as it is, because the stored name and avatar are the ones it
    resolves; and it gets to its end, without a failure, once its calls
    are continued. *)
Theorem update_twice_one_write (w : World) (message : Message)
        (room : BridgedRoom) (l1 : list Turn) :
  let s1 := steps (turns l1) (invoke (call_update message room) (idle w)) in
  pool s1 = [] →
  forallb (fun x => succeeded (snd x)) (finished s1) = true →
  name_log w (world s1) ∧ avatar_log w (world s1) ∧
  (JS.truthy (AccessToken room) = true →
   (∀ n, resolved_name message (world s1) n →
         JS.truthy n = true → displayName (ghost w) ≠ n →
         filter name_write (requests (world s1))
         = filter name_write (requests w) ++ [SetDisplayName n]) ∧
   (∀ pr, known_profile (world s1) = Some (inr pr) →
          JS.truthy (avatar_of_profile pr) = true →
          avatar_of_profile pr ≫= match_last_segment ≠ None →
          avatarUrl (ghost w) ≠ avatar_of_profile pr →
          ∃ uri, filter avatar_write (requests (world s1))
                 = filter avatar_write (requests w) ++ [SetAvatarUrl uri])) ∧
  (∀ l2 : list Turn,
      let s2 := steps (turns l2) (invoke (call_update message room) s1) in
      requests (world s2) = requests (world s1) ∧
      ghost (world s2) = ghost (world s1)) ∧
  (∃ l : list nat,
      let s2 := steps (Continue <$> l) (invoke (call_update message room) s1) in
      pool s2 = [] ∧
      forallb (fun x => succeeded (snd x)) (finished s2) = true).
Proof.
  intros s1 Hpool Hok.
  pose proof (update_sys_ok message room w l1) as (Hnd & Hlt & _ & Hfin).
  fold s1 in Hnd, Hlt, Hfin.
  assert (numbers s1 ≡ₚ [1; 0]) as Hnum.
  { subst s1. rewrite (proj1 (turns_numbers _ _)). unfold invoke.
    cbn [programs update foldl]. rewrite spawn_numbers.
    assert (spawned (spawn (sync_name message room) (idle w)) = 1) as ->.
    { unfold spawn. by rewrite advance_spawned. }
    by rewrite spawn_numbers. }
  unfold numbers in Hnum. rewrite Hpool in Hnum. simpl in Hnum.
  assert (∀ i r, (i, r) ∈ finished s1 → succeeded r = true) as Hgood.
  { intros i r Hin. rewrite forallb_forall in Hok. apply (Hok (i, r)).
    by apply list_elem_of_In. }
  assert (∀ i, i ∈ [1; 0] → ∃ r, (i, r) ∈ finished s1 ∧ succeeded r = true)
    as Hended.
  { intros i Hi. rewrite <- Hnum in Hi.
    apply list_elem_of_fmap in Hi as ([j r] & -> & Hin). exists r.
    split; [done|]. by eapply Hgood. }
  destruct (Hended 0) as (r0 & Hin0 & Hs0); [set_solver|].
  destruct (Hended 1) as (r1 & Hin1 & Hs1); [set_solver|].
  destruct (Hfin 0 r0 Hin0) as [Hlog0 Hset0].
  destruct (Hfin 1 r1 Hin1) as [Hlog1 Hset1].
  specialize (Hset0 Hs0). specialize (Hset1 Hs1).
  split; [done|]. split; [done|].
  assert (sys_ok (fun _ => still) (fun _ => still) ended_well s1) as Hsys.
  { split; [done|]. split; [done|]. split.
    - intros t Ht. rewrite Hpool in Ht. by apply elem_of_nil in Ht.
    - intros i r Hin. by eapply Hgood. }
  split.
  { intros Ht. split.
    - intros n Hres Hn Hne.
      destruct Hset0 as [?|(n' & Hres' & Hst)]; [congruence|].
      assert (n' = n) as ->.
      { unfold resolved_name in Hres.
        destruct (JS.truthy (user_name message)); [congruence|].
        destruct Hres as (pr & Hpr & ->), Hres' as (pr' & Hpr' & ->).
        congruence. }
      destruct Hst as [?|Heq]; [congruence|].
      destruct Hlog0 as [Hv|(m & Hf & Hd)].
      + unfold name_view in Hv. injection Hv as Hd _. congruence.
      + destruct Hd as [Hd|Hd]; [congruence|]. rewrite Hf. congruence.
    - intros pr Hpr Htr Hseg Hne.
      destruct Hset1 as [?|(pr' & Hpr' & Hst)]; [congruence|].
      assert (pr' = pr) as -> by congruence.
      destruct Hst as [?|[Heq|?]]; [congruence| |congruence].
      destruct Hlog1 as [Hv|H]; [|done].
      unfold avatar_view in Hv. injection Hv as Hd _. congruence. }
  split.
  - intros l2 s2.
    destruct (second_update_still message room s1 l2 Hsys Hset0 Hset1)
      as (_ & Hr & Hg).
    by split.
  - destruct (second_update_ends message room s1 Hsys Hpool Hset0 Hset1)
      as (l & r2 & r3 & Hp & Hf & Hr2 & Hr3).
    exists l. split; [exact Hp|].
    apply forallb_forall. intros [i r] Hin. simpl.
    apply list_elem_of_In in Hin. rewrite Hf in Hin.
    apply elem_of_cons in Hin as [[= -> ->]|Hin]; [done|].
    apply elem_of_cons in Hin as [[= -> ->]|Hin]; [done|].
    by eapply Hgood.
Qed.

Lemma update_twice_one_write_witness :
  let w := new_world (fromEntry (Entry.mk (Some "U1") (Some "Bob") None)) 0 in
  let message := mkMessage "U1" (Some "Alice") in
  let room := mkRoom (Some "xoxb") in
  let profile := mkProfile None (Some "Alice A.") None None
                           (Some "https://avatars.example/U1/512.png")
                           None None None in
  let l1 := [Settles 0 (Resolved VUndefined); Continues 0;
             Settles 1 (Resolved (VUserInfo (mkUserInfo (Some (mkUser (Some profile))))));
             Continues 1; Continues 1; Continues 1;
             Settles 2 (Resolved VUndefined); Continues 0;
             Settles 3 (Resolved (VFull "PNG" (Some "image/png"))); Continues 1;
             Settles 4 (Resolved (VUploaded (Some "mxc://example.org/abc")));
             Continues 1; Continues 1;
             Settles 5 (Resolved VUndefined); Continues 1] in
  let s1 := steps (turns l1) (invoke (call_update message room) (idle w)) in
  let s2 := steps (turns [Continues 3; Continues 2; Continues 3; Continues 3])
                  (invoke (call_update message room) s1) in
  filter puppet_write (requests (world s1))
  = [SetDisplayName (Some "Alice");
     SetAvatarUrl (Some "mxc://example.org/abc")] ∧
  requests (world s2) = requests (world s1).
Proof.
  intros w message room profile l1 s1 s2.
  pose proof (update_twice_one_write w message room l1 eq_refl eq_refl)
    as (_ & _ & _ & H & _).
  split; [vm_compute; reflexivity|].
  apply (H [Continues 3; Continues 2; Continues 3; Continues 3]).
Defined.

(** ** The file name of an avatar

    The match of [updateAvatar], [/\/([^\/]+)$/], as a statement about
    the URL. *)
Lemma no_slash_app (a b : string) :
  no_slash (a ++ b)%string = no_slash a && no_slash b.
Proof.
  induction a as [|c a IH]; simpl; [done|].
  rewrite IH. by destruct (Ascii.eqb c "/").
Qed.

Lemma match_last_segment_sound (url seg : string) :
  match_last_segment url = Some seg →
  seg ≠ "" ∧ no_slash seg = true ∧ ∃ pre, url = (pre ++ "/" ++ seg)%string.
Proof.
  induction url as [|c s IH]; simpl; [done|].
  destruct (Ascii.eqb_spec c "/") as [->|Hc]; simpl.
  - destruct (String.eqb_spec s "") as [->|Hs]; simpl.
    + done.
    + destruct (no_slash s) eqn:Hn.
      * intros [= <-]. split; [done|]. split; [done|]. by exists "".
      * intros H. destruct (IH H) as (H1 & H2 & pre & ->).
        split; [done|]. split; [done|]. by exists (String "/" pre).
  - intros H. destruct (IH H) as (H1 & H2 & pre & ->).
    split; [done|]. split; [done|]. by exists (String c pre).
Qed.

Lemma match_last_segment_complete (pre seg : string) :
  seg ≠ "" → no_slash seg = true →
  match_last_segment (pre ++ "/" ++ seg)%string = Some seg.
Proof.
  intros Hne Hn. induction pre as [|c pre IH]; simpl.
  - destruct seg as [|c seg]; [done|]. simpl in *. by rewrite Hn.
  - rewrite !no_slash_app. simpl. rewrite !andb_false_r. exact IH.
Qed.

(** The match succeeds with the group [seg] exactly when [seg] is not
    empty, has no slash, and the URL ends with a slash followed by
    [seg]. *)
Lemma match_last_segment_spec (url seg : string) :
  match_last_segment url = Some seg ↔
  seg ≠ "" ∧ no_slash seg = true ∧ ∃ pre, url = (pre ++ "/" ++ seg)%string.
Proof.
  split; [apply match_last_segment_sound|].
  intros (Hne & Hn & pre & ->). by apply match_last_segment_complete.
Qed.

(** ** Strings and the mention pattern *)

Lemma sapp_cons x (a b : string) : (String x a ++ b = String x (a ++ b))%string.
Proof. done. Qed.

Lemma sapp_nil_l (b : string) : ("" ++ b = b)%string.
Proof. done. Qed.

Ltac ssimpl := rewrite ?sapp_cons, ?sapp_nil_l; simpl.
Ltac ssimpl_in H := rewrite ?sapp_cons, ?sapp_nil_l in H; simpl in H.

Lemma sapp_assoc (a b c : string) : ((a ++ b) ++ c = a ++ (b ++ c))%string.
Proof. induction a as [|x a IH]; ssimpl; [done|]. by rewrite IH. Qed.

Lemma sapp_nil_r (a : string) : (a ++ "" = a)%string.
Proof. induction a as [|x a IH]; ssimpl; [done|]. by rewrite IH. Qed.

Lemma slength_app (a b : string) :
  String.length (a ++ b)%string = String.length a + String.length b.
Proof. induction a as [|x a IH]; ssimpl; [done|]. by rewrite IH. Qed.

Lemma has_char_app c (a b : string) :
  has_char c (a ++ b)%string = has_char c a || has_char c b.
Proof.
  induction a as [|x a IH]; ssimpl; [done|]. rewrite IH. by rewrite orb_assoc.
Qed.

Lemma one_line_app (a b : string) :
  one_line (a ++ b)%string = one_line a && one_line b.
Proof.
  induction a as [|x a IH]; ssimpl; [done|]. rewrite IH. by rewrite andb_assoc.
Qed.

(** Where a character occurs once, the string splits at it in one way. *)
Lemma split_unique c (x' y' : string) : ∀ x y : string,
  has_char c x' = false → has_char c y' = false →
  (x ++ String c y = x' ++ String c y')%string → x = x' ∧ y = y'.
Proof.
  induction x' as [|d x' IH]; intros x y Hx Hy E; ssimpl_in E; simpl in Hx.
  - destruct x as [|e x]; ssimpl_in E.
    + by injection E.
    + injection E as -> <-. rewrite has_char_app in Hy. simpl in Hy.
      rewrite Ascii.eqb_refl in Hy. simpl in Hy. by rewrite orb_true_r in Hy.
  - apply orb_false_elim in Hx as [Hd Hx].
    destruct x as [|e x]; ssimpl_in E.
    + injection E as -> _. by rewrite Ascii.eqb_refl in Hd.
    + injection E as -> E. destruct (IH x y Hx Hy E) as [-> ->]. done.
Qed.

Lemma strip_prefix_Some (l s rest : string) :
  strip_prefix l s = Some rest ↔ s = (l ++ rest)%string.
Proof.
  revert s. induction l as [|a l IH]; intros s; ssimpl.
  - split; [by intros [= ->]|by intros ->].
  - destruct s as [|b s]; [done|].
    destruct (Ascii.eqb_spec a b) as [->|Hab].
    + rewrite IH. split; [by intros ->|by intros [= ->]].
    + split; [done|]. intros [= -> _]. done.
Qed.

Lemma strip_prefix_app (l rest : string) :
  strip_prefix l (l ++ rest)%string = Some rest.
Proof. by apply strip_prefix_Some. Qed.

Lemma take_string_app (a b : string) :
  take_string (String.length (a ++ b)%string - String.length b) (a ++ b)%string = a.
Proof.
  rewrite slength_app. replace (_ + _ - _) with (String.length a) by lia.
  induction a as [|x a IH]; ssimpl; [by destruct b|]. by rewrite IH.
Qed.

(** [.+] takes one character or more of the line: every success of
    [any_plus] is a success of what follows, after such a run. *)
Lemma any_plus_sound {R : Type} (s : string) (k : string → option R) r :
  any_plus s k = Some r →
  ∃ a b, s = (a ++ b)%string ∧ a ≠ "" ∧ one_line a = true ∧ k b = Some r.
Proof.
  induction s as [|c s IH]; simpl; [done|].
  destruct (line_terminator c) eqn:Hc; [done|].
  destruct (any_plus s k) as [r'|] eqn:Hs.
  - intros [= ->]. destruct (IH eq_refl) as (a & b & -> & Ha & Hl & Hk).
    exists (String c a), b. ssimpl. by rewrite Hc.
  - intros Hk. exists (String c ""), s. ssimpl. by rewrite Hc.
Qed.

(** And where what follows succeeds after some such run, [any_plus]
    succeeds. *)
Lemma any_plus_complete {R : Type} (a b : string) (k : string → option R) :
  a ≠ "" → one_line a = true → is_Some (k b) →
  is_Some (any_plus (a ++ b)%string k).
Proof.
  intros Ha Hl Hk. induction a as [|c a IH]; [done|]. ssimpl. simpl in Hl.
  apply andb_true_iff in Hl as [Hc Hl]. apply negb_true_iff in Hc. rewrite Hc.
  destruct a as [|c' a].
  - ssimpl. by destruct (any_plus b k).
  - destruct IH as [r Hr]; [done|done|]. by rewrite Hr.
Qed.

Local Abbreviation link_prefix := "<https://matrix.to/#/@".

(** Every match of the pattern at the start of a text is a mention link
    at its start: the group is the display text. *)
Lemma match_at_mention_sound (s : string) n g :
  match_at mention s = Some (n, g) →
  ∃ a b c rest,
    s = (link_prefix ++ a ++ ":" ++ b ++ "|" ++ c ++ ">" ++ rest)%string ∧
    g = c ∧ n = String.length s - String.length rest.
Proof.
  unfold match_at, mention. cbn [rmatch].
  destruct (strip_prefix link_prefix s) as [s1|] eqn:H1; [|done].
  apply strip_prefix_Some in H1.
  intros H. apply any_plus_sound in H as (a & s2 & -> & _ & _ & H).
  destruct (strip_prefix ":" s2) as [s3|] eqn:H2; [|done].
  apply strip_prefix_Some in H2. subst s2.
  apply any_plus_sound in H as (b & s4 & -> & _ & _ & H).
  destruct (strip_prefix "|" s4) as [s5|] eqn:H4; [|done].
  apply strip_prefix_Some in H4. subst s4.
  apply any_plus_sound in H as (c & s6 & -> & _ & _ & H).
  destruct (strip_prefix ">" s6) as [rest|] eqn:H6; [|done].
  apply strip_prefix_Some in H6. subst s6.
  injection H as <- <-.
  exists a, b, c, rest. rewrite take_string_app.
  split; [|done]. by rewrite H1.
Qed.

Lemma match_at_mention_complete (a b c rest : string) :
  a ≠ "" → b ≠ "" → c ≠ "" →
  one_line a = true → one_line b = true → one_line c = true →
  is_Some (match_at mention
             (link_prefix ++ a ++ ":" ++ b ++ "|" ++ c ++ ">" ++ rest)%string).
Proof.
  intros Ha Hb Hc La Lb Lc. unfold match_at, mention. cbn [rmatch].
  rewrite strip_prefix_app.
  apply any_plus_complete; [done|done|].
  rewrite (strip_prefix_app ":").
  apply any_plus_complete; [done|done|].
  rewrite (strip_prefix_app "|").
  apply any_plus_complete; [done|done|].
  rewrite (strip_prefix_app ">"). by eexists.
Qed.

Lemma match_at_mention_head c (s : string) :
  Ascii.eqb c "<" = false → match_at mention (String c s) = None.
Proof.
  intros Hc. unfold match_at, mention. cbn [rmatch strip_prefix].
  rewrite Ascii.eqb_sym in Hc. by rewrite Hc.
Qed.

Lemma replace_from_plain (s : string) :
  has_char "<" s = false → replace_from mention 0 s = s.
Proof.
  induction s as [|c s IH]; simpl; [done|].
  intros H. apply orb_false_elim in H as [Hc Hs].
  rewrite (match_at_mention_head c s Hc). by rewrite IH.
Qed.

Lemma replace_from_skip (r : Re) (a b : string) :
  replace_from r (String.length a) (a ++ b)%string = replace_from r 0 b.
Proof. induction a as [|x a IH]; ssimpl; [by destruct b|done]. Qed.

Lemma match_at_mention_link (user host display post : string) :
  user ≠ "" → host ≠ "" → display ≠ "" →
  one_line user = true → one_line host = true → one_line display = true →
  has_char "|" (user ++ host ++ display ++ post)%string = false →
  has_char ">" (display ++ post)%string = false →
  match_at mention (mention_link user host display ++ post)%string
  = Some (String.length (mention_link user host display), display).
Proof.
  intros Hu Hh Hd Lu Lh Ld Hbar Hgt.
  rewrite has_char_app in Hbar. apply orb_false_elim in Hbar as [Bu Hbar].
  rewrite has_char_app in Hbar. apply orb_false_elim in Hbar as [Bh Hbar].
  rewrite has_char_app in Hbar. apply orb_false_elim in Hbar as [Bd Bp].
  rewrite has_char_app in Hgt. apply orb_false_elim in Hgt as [Gd Gp].
  assert (mention_link user host display ++ post
          = link_prefix ++ user ++ ":" ++ host ++ "|" ++ display ++ ">" ++ post)%string
    as Hshape.
  { unfold mention_link. by rewrite !sapp_assoc. }
  pose proof (match_at_mention_complete user host display post
                Hu Hh Hd Lu Lh Ld) as [[n g] Hm].
  rewrite <- Hshape in Hm. rewrite Hm.
  apply match_at_mention_sound in Hm as (a & b & c & rest & E & -> & ->).
  rewrite Hshape in E. apply (inj (String.app _)) in E.
  assert ((user ++ ":" ++ host) ++ String "|" (display ++ ">" ++ post)
          = (a ++ ":" ++ b) ++ String "|" (c ++ ">" ++ rest))%string as E'.
  { by rewrite !sapp_assoc. }
  symmetry in E'. apply split_unique in E' as [_ E'].
  2:{ rewrite !has_char_app. simpl. by rewrite Bu, Bh. }
  2:{ rewrite !has_char_app. simpl. by rewrite Bd, Bp. }
  change (c ++ String ">" rest = display ++ String ">" post)%string in E'.
  apply split_unique in E' as [-> ->]; [|done|done].
  f_equal. f_equal. rewrite slength_app. lia.
Qed.

Lemma replace_from_match (r : Re) (s post : string) g :
  s ≠ "" →
  match_at r (s ++ post)%string = Some (String.length s, g) →
  replace_from r 0 (s ++ post)%string = (g ++ replace_from r 0 post)%string.
Proof.
  intros Hs Hm. destruct s as [|c l]; [done|].
  rewrite sapp_cons in *. cbn [replace_from]. rewrite Hm.
  cbn [String.length Nat.pred]. by rewrite replace_from_skip.
Qed.

Lemma replace_all_mention_in_context (pre user host display post : string) :
  user ≠ "" → host ≠ "" → display ≠ "" →
  one_line user = true → one_line host = true → one_line display = true →
  has_char "|" (user ++ host ++ display ++ post)%string = false →
  has_char ">" (display ++ post)%string = false →
  has_char "<" (pre ++ post)%string = false →
  replace_all mention (pre ++ mention_link user host display ++ post)%string
  = (pre ++ display ++ post)%string.
Proof.
  intros Hu Hh Hd Lu Lh Ld Hbar Hgt Hlt.
  rewrite has_char_app in Hlt. apply orb_false_elim in Hlt as [Lpre Lpost].
  unfold replace_all.
  induction pre as [|c pre IH].
  - rewrite !sapp_nil_l.
    rewrite (replace_from_match mention (mention_link user host display) post
               display).
    + by rewrite replace_from_plain.
    + done.
    + by apply match_at_mention_link.
  - simpl in Lpre. apply orb_false_elim in Lpre as [Hc Lpre].
    rewrite !sapp_cons. cbn [replace_from].
    rewrite (match_at_mention_head c _ Hc). by rewrite IH.
Qed.

(** ** The relays to Matrix *)

Lemma sent_messages_answered r o (w : World) :
  sent_messages (answered r o w) = sent_messages w.
Proof. done. Qed.

(** X2: [sendMessage], run on its own.  When the send through the intent
    is rejected, the call is rejected with the same error, nothing but the
    send was requested and the counter of sent messages is as it was.
    When the send gives the event [i], the counter is one more, the event
    [(roomId, i, slackRoomID, slackEventTS)] is upserted into the event
    store after the send, and the call returns the sent event, or is
    rejected with the error of the upsert. *)
Theorem sendMessage_outcomes env (roomId : string) (msg : Content)
        (slackRoomID : string) (slackEventTS : Z) (w : World) :
  let p := length (promises w) in
  let w' := fst (exec env (sendMessage roomId msg slackRoomID slackEventTS) w) in
  let r := snd (exec env (sendMessage roomId msg slackRoomID slackEventTS) w) in
  (∀ e, env p = Rejected e →
        r = inl e ∧
        requests w' = requests w ++ [SendMessage roomId msg] ∧
        sent_messages w' = sent_messages w) ∧
  (∀ i, env p = Resolved (VEvent i) →
        requests w' = requests w ++
          [SendMessage roomId msg;
           UpsertEvent (mkStoreEvent roomId (Some i) slackRoomID slackEventTS)] ∧
        sent_messages w' = S (sent_messages w) ∧
        r = match env (S p) with
            | Resolved _ => inr (VEvent i)
            | Rejected e => inl e
            end).
Proof.
  intros p w' r. subst w' r. unfold sendMessage.
  rewrite exec_call_await. fold p. cbv zeta. split.
  - intros e ->. cbn [fst snd]. by rewrite requests_answered.
  - intros i ->. cbn [exec incCounter mbind Prog_bind bind event_id_of].
    match goal with |- context [exec env _ ?w0] => set (w1 := w0) end.
    pose proof (exec_call_await env
      (UpsertEvent (mkStoreEvent roomId (Some i) slackRoomID slackEventTS))
      (fun _ => Ret (VEvent i)) w1) as E.
    cbn [mbind Prog_bind] in E. rewrite E. clear E. cbv zeta.
    assert (length (promises w1) = S p) as -> .
    { subst w1 p. unfold answered. cbn. rewrite length_alter, length_app. simpl. lia. }
    assert (sent_messages w1 = S (sent_messages w)) as Hs.
    { subst w1. unfold sent_messages at 1. cbn [main with_main counters].
      by rewrite lookup_insert_eq. }
    assert (requests w1 = requests w ++ [SendMessage roomId msg]) as Hr.
    { subst w1. unfold requests at 1. cbn [promises with_main].
      apply requests_answered. }
    destruct (env (S p)) as [v|e]; cbn [exec fst snd];
      rewrite requests_answered, Hr, <- app_assoc; done.
Qed.

Lemma exec_uploadContent env (f : File) (w : World) :
  exec env (uploadContent f) w =
  let o := env (length (promises w)) in
  (answered (UploadContent f) o w,
   match o with
   | Resolved (VUploaded content_uri) => inr content_uri
   | Resolved _ => inl "SyntaxError"
   | Rejected e => inl e
   end).
Proof.
  unfold uploadContent. rewrite exec_call_await. cbv zeta.
  by destruct (env (length (promises w))) as [[]|].
Qed.

(** X3: [uploadContentFromURI], run on its own.  The download carries the
    bearer token.  When it is rejected the call
    is rejected with the same error and nothing is uploaded; when it gives
    a buffer, that buffer is uploaded under the title and the MIME type of
    the file, and the call returns the [content_uri] of the parsed
    response, is rejected with a syntax error where the response does not
    parse, or with the error of the upload. *)
Theorem uploadContentFromURI_outcomes env (file : File)
        (uri slackAccessToken : string) (w : World) :
  let p := length (promises w) in
  let download := HttpGet uri (Some slackAccessToken) false in
  let run := exec env (uploadContentFromURI file uri slackAccessToken) w in
  (∀ e, env p = Rejected e →
        snd run = inl e ∧ requests (fst run) = requests w ++ [download]) ∧
  (∀ buffer, env p = Resolved (VBuffer buffer) →
        let upload := UploadContent (mkFile buffer (title file) (mimetype file)) in
        requests (fst run) = requests w ++ [download; upload] ∧
        snd run = match env (S p) with
                  | Resolved (VUploaded content_uri) => inr content_uri
                  | Resolved _ => inl "SyntaxError"
                  | Rejected e => inl e
                  end).
Proof.
  intros p download run. subst run. unfold uploadContentFromURI.
  rewrite exec_catch, exec_call_await. fold p download. cbv zeta. split.
  - intros e ->. cbn [exec fst snd]. by rewrite requests_answered.
  - intros buffer ->. cbn [buffer_of mbind Prog_bind bind].
    rewrite exec_await_call, exec_uploadContent. cbv zeta.
    set (w1 := answered download (Resolved (VBuffer buffer)) w).
    assert (length (promises w1) = S p) as ->.
    { subst w1 p. unfold answered. cbn. rewrite length_alter, length_app. simpl. lia. }
    cbn [fst snd].
    assert (∀ (wx : World) (x : Err + option string),
              (let (w', s) := (wx, x) in
               match s with
               | inl e => exec env (Throw e) w'
               | inr a => (w', inr a)
               end) = (wx, x)) as Hid.
    { intros wx [e|a]; done. }
    rewrite Hid. cbn [fst snd].
    split; [|done]. rewrite requests_answered. subst w1.
    by rewrite requests_answered, <- app_assoc.
Qed.

(** ** Invariants under all calls and events *)

Lemma steady_stays {A : Type} (I : World → Prop) (m : Prog A) :
  steady I m → stays I m.
Proof.
  induction m as [a|e|X op k IH|p k IH|k IH]; intros Hm w0 w H0 Hw; simpl in *.
  - done.
  - done.
  - destruct Hm as [Hop Hk]. apply IH; auto.
  - split; [by intros _|]. intros w' o Hst _. apply IH; auto.
  - split; [by intros _|]. intros w' Hst. apply IH; auto.
Qed.

Lemma stays_bind {A B : Type} (I : World → Prop) (m : Prog A) (f : A → Prog B) :
  stays I m → (∀ a, stays I (f a)) → stays I (m ≫= f).
Proof.
  intros Hm Hf w0 w H0 Hw. apply wp_bind.
  eapply wp_mono; [|by apply Hm].
  intros [e|a] w0' w' [H0' Hw']; [done|]. by apply Hf.
Qed.

Lemma stays_catch {A : Type} (I : World → Prop) (m : Prog A) (h : Err → Prog A) :
  stays I m → (∀ e, stays I (h e)) → stays I (catch m h).
Proof.
  intros Hm Hh w0 w H0 Hw. apply wp_catch.
  eapply wp_mono; [|by apply Hm].
  intros [e|a] w0' w' [H0' Hw']; [|done]. by apply Hh.
Qed.

Lemma stays_await_call {A : Type} (I : World → Prop) (m : Prog A) :
  stays I m → stays I (await_call m).
Proof.
  intros Hm w0 w H0 Hw. apply wp_await_call.
  eapply wp_mono; [|by apply Hm].
  intros r w0' w' [H0' Hw']. split; [by intros _|]. intros w'' Hst. auto.
Qed.

(** What a family of contracts and a state invariant [J] need for every
    system reached by allowed calls to keep them. *)
Section loop.

Variables St G : nat → World → World → Prop.
Variable Q : nat → Err + Result → World → Prop.
Variable J : World → Prop.
Variable allowed : Call → Prop.
Variable n0 : nat.

Hypothesis St_refl : ∀ i w, St i w w.
Hypothesis St_trans : ∀ i w1 w2 w3, St i w1 w2 → St i w2 w3 → St i w1 w3.
Hypothesis G_refl : ∀ i w, G i w w.
Hypothesis G_trans : ∀ i w1 w2 w3, G i w1 w2 → G i w2 w3 → G i w1 w3.
Hypothesis G_St : ∀ i j w w', i ≠ j → G i w w' → St j w w'.
Hypothesis Q_stable : ∀ i r w w', Q i r w → St i w w' → Q i r w'.
Hypothesis J_G : ∀ i w w', G i w w' → J w → J w'.
Hypothesis env_settle : ∀ i p o w, St i w (store_outcome p o w).
Hypothesis env_tick : ∀ i dt w, St i w (tick dt w).
Hypothesis env_fire : ∀ i w, St i w (fire w).
Hypothesis J_settle : ∀ p o w, J w → J (store_outcome p o w).
Hypothesis J_tick : ∀ dt w, J w → J (tick dt w).
Hypothesis J_fire : ∀ w, J w → J (fire w).
Hypothesis prog_ok :
  ∀ c m i w, allowed c → m ∈ programs c → (n0 ≤ i)%nat → J w →
             wp (St i) (G i) m (post G Q i) w w.

Lemma on_world_sys_ok (f : World → World) (s : Sys) :
  (∀ i w, St i w (f w)) → sys_ok St G Q s → sys_ok St G Q (on_world f s).
Proof.
  intros Hf (Hnd & Hlt & Hpool & Hfin).
  split; [done|]. split; [done|]. split.
  - intros t Ht w' o Hst Hr. apply (Hpool t Ht); [|done].
    eapply St_trans; [apply Hf|done].
  - intros i r Hin. eapply Q_stable; [by apply Hfin|apply Hf].
Qed.

Lemma spawn_all_sys_ok ms : ∀ s : Sys,
  (∀ m i w, m ∈ ms → (n0 ≤ i)%nat → J w → wp (St i) (G i) m (post G Q i) w w) →
  (n0 ≤ spawned s)%nat → J (world s) → sys_ok St G Q s →
  let s' := foldl (fun s m => spawn m s) s ms in
  sys_ok St G Q s' ∧ J (world s') ∧ (spawned s ≤ spawned s')%nat.
Proof.
  induction ms as [|m ms IH]; intros s Hms Hn HJ Hs; simpl; [done|].
  destruct (spawn_sys_ok St G Q St_trans G_refl G_trans G_St Q_stable s m Hs)
    as (H1 & Hsp & HG).
  { apply Hms; [apply list_elem_of_here|done|done]. }
  destruct (IH (spawn m s)) as (H2 & HJ2 & Hsp2).
  - intros m' i w Hin. apply Hms. by apply list_elem_of_further.
  - lia.
  - by eapply J_G.
  - done.
  - split; [done|]. split; [done|]. lia.
Qed.

Lemma step_sys_ok (s : Sys) (e : Event) :
  event_ok allowed e → (n0 ≤ spawned s)%nat → J (world s) → sys_ok St G Q s →
  sys_ok St G Q (step s e) ∧ J (world (step s e)) ∧
  (spawned s ≤ spawned (step s e))%nat.
Proof.
  intros He Hn HJ Hs. destruct e as [c|p o|i|dt|]; simpl.
  - apply spawn_all_sys_ok; try done.
    intros m i w Hin. by apply (prog_ok c).
  - split; [|split; [|done]].
    + apply on_world_sys_ok; [|done]. intros i w. unfold settle.
      destruct (promises w !! p) as [[r [o'|]]|]; auto.
    + simpl. unfold settle.
      destruct (promises (world s) !! p) as [[r [o'|]]|]; auto.
  - destruct (continue_sys_ok St G Q St_refl St_trans G_refl G_trans G_St
                Q_stable s i Hs) as (H1 & Hsp & HG).
    split; [done|]. split; [by eapply J_G|lia].
  - split; [|split; [by apply J_tick|done]].
    apply on_world_sys_ok; [|done]. intros i w. apply env_tick.
  - split; [|split; [by apply J_fire|done]].
    apply on_world_sys_ok; [|done]. intros i w. apply env_fire.
Qed.

Lemma steps_sys_ok (es : list Event) : ∀ s : Sys,
  Forall (event_ok allowed) es → (n0 ≤ spawned s)%nat → J (world s) → sys_ok St G Q s →
  sys_ok St G Q (steps es s) ∧ J (world (steps es s)).
Proof.
  induction es as [|e es IH]; intros s Hes Hn HJ Hs; [done|].
  apply Forall_cons in Hes as [He Hes].
  destruct (step_sys_ok s e He Hn HJ Hs) as (H1 & HJ1 & Hsp).
  apply IH; [done|lia|done|done].
Qed.

End loop.

(** An invariant that every allowed call keeps in each of its stretches,
    and that settlements, the clock and the timers keep, holds after
    every sequence of events, from a system where no call is parked. *)
Lemma invariant_steps_from (I : World → Prop) (allowed : Call → Prop) :
  (∀ c, allowed c → Forall (stays I) (programs c)) →
  (∀ p o w, I w → I (store_outcome p o w)) →
  (∀ dt w, I w → I (tick dt w)) →
  (∀ w, I w → I (fire w)) →
  ∀ es s, pool s = [] → NoDup (numbers s) →
          (∀ i, i ∈ numbers s → i < spawned s) →
          Forall (event_ok allowed) es → I (world s) →
          I (world (steps es s)).
Proof.
  intros Hprog Hsettle Htick Hfire es s Hpool Hnd Hlt Hes Hw.
  eapply proj2,
    (steps_sys_ok (fun _ => since I) (fun _ => since I)
       (fun _ _ _ => True) I allowed 0); unfold since.
  - by intros i w1.
  - intros i w1 w2 w3 H1 H2 H. by apply H2, H1.
  - by intros i w1.
  - intros i w1 w2 w3 H1 H2 H. by apply H2, H1.
  - by intros i j w1 w2.
  - done.
  - intros i w1 w2 HG H. by apply HG.
  - intros i p o w1. by apply Hsettle.
  - intros i dt w1. by apply Htick.
  - intros i w1. by apply Hfire.
  - done.
  - done.
  - done.
  - intros c m i w1 Hc Hm _ Hw1.
    specialize (Hprog c Hc). rewrite Forall_forall in Hprog.
    eapply wp_mono; [|by apply (Hprog m Hm)].
    intros r w0' w' [H0 H']. split; [by intros _|done].
  - done.
  - lia.
  - done.
  - split; [done|]. split; [done|]. split; [|done].
    intros t Ht. rewrite Hpool in Ht. by apply elem_of_nil in Ht.
Qed.

Lemma invariant_steps (I : World → Prop) (allowed : Call → Prop) :
  (∀ c, allowed c → Forall (stays I) (programs c)) →
  (∀ p o w, I w → I (store_outcome p o w)) →
  (∀ dt w, I w → I (tick dt w)) →
  (∀ w, I w → I (fire w)) →
  ∀ es w, Forall (event_ok allowed) es → I w → I (world (steps es (idle w))).
Proof.
  intros Hprog Hsettle Htick Hfire es w Hes Hw.
  apply (invariant_steps_from I allowed); try done.
  - constructor.
  - intros i Hi. by apply elem_of_nil in Hi.
Qed.

(** *** Programs whose every step keeps an invariant *)

Lemma steady_bind {A B : Type} (I : World → Prop) (m : Prog A) (f : A → Prog B) :
  steady I m → (∀ a, steady I (f a)) → steady I (m ≫= f).
Proof.
  intros Hm Hf. induction m as [a|e|X op k IH|p k IH|k IH]; simpl in *.
  - apply Hf.
  - done.
  - destruct Hm as [Hop Hk]. split; [done|]. intros x. by apply IH.
  - intros o. by apply IH.
  - by apply IH.
Qed.

Lemma steady_catch {A : Type} (I : World → Prop) (m : Prog A) (h : Err → Prog A) :
  steady I m → (∀ e, steady I (h e)) → steady I (catch m h).
Proof.
  intros Hm Hh. induction m as [a|e|X op k IH|p k IH|k IH]; simpl in *.
  - done.
  - apply Hh.
  - destruct Hm as [Hop Hk]. split; [done|]. intros x. by apply IH.
  - intros o. by apply IH.
  - by apply IH.
Qed.

Lemma steady_await_call {A : Type} (I : World → Prop) (m : Prog A) :
  steady I m → steady I (await_call m).
Proof.
  intros Hm. apply steady_catch; [|done]. by apply (steady_bind I m).
Qed.

Ltac steady_tac :=
  repeat first
    [ done
    | apply steady_bind
    | apply steady_catch
    | apply steady_await_call
    | progress (simpl; intros)
    | progress unfold parse_content_uri, full_response, buffer_of,
        event_id_of, response_user, lookupUserInfo, getDisplayname,
        updateDisplayname, lookupAvatarUrl, updateAvatar, uploadContent,
        sendMessage, sendText, uploadContentFromURI, putUserToStore
    | split
    | match goal with
      | |- context [match ?x with _ => _ end] => destruct x
      | |- context [if ?x then _ else _] => destruct x
      end ].

Lemma Forall_stays (I : World → Prop) (ms : list (Prog Result)) :
  Forall (steady I) ms → Forall (stays I) ms.
Proof.
  intros H. eapply Forall_impl; [exact H|]. intros m. apply steady_stays.
Qed.

(** ** The activity time *)

Lemma steady_keeps {X A : Type} (view : World → X) (m : Prog A)
      (Φ : Err + A → World → World → Prop) :
  (∀ c, steady (fun w => view w = c) m) →
  (∀ r w0 w, view w = view w0 → Φ r w0 w) →
  ∀ w0 w, view w = view w0 →
          wp (any_change 0) (keeps view 0) m Φ w0 w.
Proof.
  intros Hm HΦ.
  induction m as [a|e|Y op k IH|p k IH|k IH]; intros w0 w Hw; simpl in *.
  - by apply HΦ.
  - by apply HΦ.
  - apply IH.
    + intros c. apply (Hm c).
    + destruct (Hm (view w0)) as [Hop _]. by apply Hop.
  - split; [done|]. intros w' o _ _. apply IH; [|done]. intros c. apply (Hm c).
  - split; [done|]. intros w' _. apply IH; [|done]. intros c. apply (Hm c).
Qed.

Lemma steady_programs_atime x (c : Call) :
  other_than_bumpATime c →
  Forall (steady (fun w => atime_of w = x)) (programs c).
Proof.
  unfold atime_of.
  destruct c; intros Hc; try done;
    unfold programs, update, sync_name, sync_avatar;
    repeat apply Forall_cons_2; try apply Forall_nil_2.
  all: steady_tac.
Qed.

(** A call of [bumpATime] ends at once. *)
Lemma invoke_bumpATime (s : Sys) :
  invoke call_bumpATime s
  = mkSys (with_ghost
             (set_atime (Some (number_div (Date_now (world s)) (number_of_Z 1000))))
             (world s))
          (pool s) (S (spawned s)) (finished s ++ [(spawned s, inr RVoid)]).
Proof. done. Qed.

(** And so does a call of [aTime], with the activity time. *)
Lemma invoke_aTime (s : Sys) :
  invoke call_aTime s
  = mkSys (world s) (pool s) (S (spawned s))
          (finished s ++ [(spawned s, inr (RTime (atime_of (world s))))]).
Proof. done. Qed.

Lemma result_of_last (s : Sys) (r : Err + Result) :
  (∀ i, i ∈ numbers s → i < spawned s) →
  result_of (spawned s)
            (mkSys (world s) (pool s) (S (spawned s))
                   (finished s ++ [(spawned s, r)])) = Some r.
Proof.
  intros Hlt. unfold result_of. cbn [finished].
  assert (list_find (fun x : nat * (Err + Result) => x.1 = spawned s) (finished s)
          = None) as Hnone.
  { apply list_find_None, Forall_forall. intros [j r'] Hin. simpl. intros ->.
    assert (spawned s < spawned s); [|lia].
    apply Hlt. unfold numbers. apply elem_of_app. right.
    apply list_elem_of_fmap. by exists (spawned s, r'). }
  rewrite list_find_app_r by done. simpl.
  by rewrite decide_True.
Qed.

(** The parked calls of every system leave the activity time alone, in
    each of their stretches to come. *)
Lemma bumpATime_sys_ok (s : Sys) :
  sys_ok any_change (keeps atime_of) any_result s →
  sys_ok any_change (keeps atime_of) any_result (invoke call_bumpATime s).
Proof.
  intros (Hnd & Hlt & Hpool & Hfin). rewrite invoke_bumpATime.
  split; [|split; [|split]]; cbn [world pool spawned finished].
  - rewrite fmap_app, app_assoc. apply NoDup_app. split; [done|]. split.
    + intros i Hi. simpl. intros Hin. apply list_elem_of_singleton in Hin as ->.
      specialize (Hlt _ Hi). lia.
    + simpl. apply NoDup_singleton.
  - intros i. rewrite fmap_app, app_assoc. intros Hi.
    apply elem_of_app in Hi as [Hi|Hi].
    + specialize (Hlt _ Hi). lia.
    + simpl in Hi. apply list_elem_of_singleton in Hi as ->. lia.
  - intros t Ht w' o _ Hr. by apply (Hpool t Ht).
  - done.
Qed.

Lemma step_atime_sys_ok (J : World → Prop) (s : Sys) (e : Event) :
  (∀ w w', atime_of w' = atime_of w → J w → J w') →
  event_ok other_than_bumpATime e →
  J (world s) →
  sys_ok any_change (keeps atime_of) any_result s →
  sys_ok any_change (keeps atime_of) any_result (step s e) ∧ J (world (step s e)).
Proof.
  intros HJ He Hw Hs.
  destruct (step_sys_ok any_change (keeps atime_of) any_result J
              other_than_bumpATime 0) with (s := s) (e := e)
    as (H1 & H2 & _); try done; unfold keeps.
  - intros i w1 w2 w3 H12 H23. by rewrite H23.
  - intros p o w. by apply HJ.
  - intros dt w. by apply HJ.
  - intros w. apply HJ. unfold atime_of, fire.
    destruct (timers w) as [|d l]; [done|]. by destruct (d <=? now w)%Z.
  - intros c m i w Hc Hm _ _.
    pose proof (steady_programs_atime) as Hst.
    apply (steady_keeps atime_of m).
    + intros x. specialize (Hst x c Hc). rewrite Forall_forall in Hst.
      by apply Hst.
    + intros r w0 w1 Hv. by split.
    + done.
  - lia.
Qed.

Lemma steps_atime_sys_ok (es : list Event) : ∀ s : Sys,
  sys_ok any_change (keeps atime_of) any_result s →
  sys_ok any_change (keeps atime_of) any_result (steps es s).
Proof.
  induction es as [|e es IH]; intros s Hs; [done|].
  change (steps (e :: es) s) with (steps es (step s e)). apply IH.
  destruct e as [c|p o|i|dt|];
    try (by apply (step_atime_sys_ok (fun _ => True))).
  destruct c; try (by apply (step_atime_sys_ok (fun _ => True))).
  by apply bumpATime_sys_ok.
Qed.

Lemma steps_keep_atime (es : list Event) : ∀ s : Sys,
  Forall (event_ok other_than_bumpATime) es →
  sys_ok any_change (keeps atime_of) any_result s →
  atime_of (world (steps es s)) = atime_of (world s).
Proof.
  induction es as [|e es IH]; intros s Hes Hs; [done|].
  apply Forall_cons in Hes as [He Hes].
  change (steps (e :: es) s) with (steps es (step s e)).
  destruct (step_atime_sys_ok (fun w => atime_of w = atime_of (world s)) s e)
    as [H1 H2]; try done.
  { intros w w' Hv Hw. by rewrite Hv. }
  by rewrite IH.
Qed.

(** X4: [aTime] is the time of the last [bumpATime].  After any calls
    and events, a call of [bumpATime] stores [Date.now () / 1000], the
    double nearest to the clock in milliseconds over a thousand; and as
    long as [bumpATime] is not called again, whatever else is called,
    settled or continued, whatever the clock and the timers do, the
    activity time stays that number and a call of [aTime] returns it.  As
    long as [bumpATime] has not been called at all, the activity time is
    what the ghost was made with. *)
Theorem aTime_is_the_last_bump (w : World) (es1 es2 : list Event) :
  let s1 := steps es1 (idle w) in
  let t := number_div (Date_now (world s1)) (number_of_Z 1000) in
  let s2 := steps es2 (step s1 (Invoke call_bumpATime)) in
  (Forall (event_ok other_than_bumpATime) es1 →
   atime (ghost (world s1)) = atime (ghost w)) ∧
  (Forall (event_ok other_than_bumpATime) es2 →
   atime (ghost (world s2)) = Some t ∧
   result_of (spawned s2) (step s2 (Invoke call_aTime))
   = Some (inr (RTime (Some t)))).
Proof.
  intros s1 t s2.
  assert (sys_ok any_change (keeps atime_of) any_result s1) as Hs1.
  { apply steps_atime_sys_ok, sys_ok_idle. }
  split.
  - intros Hes. by apply (steps_keep_atime es1 (idle w)), sys_ok_idle.
  - intros Hes.
    assert (sys_ok any_change (keeps atime_of) any_result
                   (step s1 (Invoke call_bumpATime))) as Hb.
    { by apply bumpATime_sys_ok. }
    assert (atime_of (world s2) = Some t) as Ht.
    { unfold s2. by rewrite steps_keep_atime. }
    split; [exact Ht|].
    assert (sys_ok any_change (keeps atime_of) any_result s2) as (_ & Hlt & _).
    { by apply steps_atime_sys_ok. }
    cbn [step]. rewrite invoke_aTime, Ht. by apply result_of_last.
Qed.

Lemma aTime_is_the_last_bump_witness :
  let w := new_world (fromEntry (Entry.mk (Some "U1") (Some "Bob") None))
                     1730000000002 in
  let es1 := [Invoke (call_lookupUserInfo "U1" "xoxb"); Invoke call_bumpATime;
              Tick (-7)] in
  let es2 := [Tick 5000; Settle 0 (Rejected "ETIMEDOUT"); Continue 0;
              Invoke (call_sendText "!r:example.org" "hello" "C024BE91L" 1)] in
  let s2 := steps es2 (step (steps es1 (idle w)) (Invoke call_bumpATime)) in
  result_of (spawned s2) (step s2 (Invoke call_aTime))
  = Some (inr (RTime (Some (S754_finite false 7256145920008389 (-22))))).
Proof.
  intros w es1 es2 s2.
  destruct (aTime_is_the_last_bump w es1 es2) as [_ H].
  destruct H as [_ H].
  - repeat constructor.
  - exact H.
Defined.

(** ** The stored fields *)

Lemma steady_programs_userId x (c : Call) :
  Forall (steady (fun w => userId (ghost w) = x)) (programs c).
Proof.
  destruct c; unfold programs, update, sync_name, sync_avatar;
    repeat apply Forall_cons_2; try apply Forall_nil_2.
  all: steady_tac.
Qed.

Lemma steady_programs_entry x (c : Call) :
  leaves_entry c →
  Forall (steady (fun w => toEntry (ghost w) = x)) (programs c).
Proof.
  destruct c; intros Hc; try done;
    unfold programs, update, sync_name, sync_avatar;
    repeat apply Forall_cons_2; try apply Forall_nil_2.
  all: steady_tac.
Qed.

Lemma fire_ghost_fields (w : World) :
  atime (ghost (fire w)) = atime (ghost w) ∧
  userId (ghost (fire w)) = userId (ghost w) ∧
  toEntry (ghost (fire w)) = toEntry (ghost w).
Proof.
  unfold fire. destruct (timers w) as [|d l]; [done|].
  by destruct (d <=? now w)%Z.
Qed.

Lemma all_events_ok (es : list Event) : Forall (event_ok (fun _ => True)) es.
Proof. apply Forall_forall. intros ev _. by destruct ev. Qed.

(** X5: after any calls and events, the [userId] of the ghost is what it
    was; and when no [update], [updateDisplayname] or [updateAvatar] was
    called, so is the whole entry [toEntry] gives: lookups, relays,
    uploads, the activity time and the eviction of the cache leave the
    stored fields alone. *)
Theorem entry_changes_only_in_updates (w : World) (es : list Event) :
  let w' := world (steps es (idle w)) in
  userId (ghost w') = userId (ghost w) ∧
  (Forall (event_ok leaves_entry) es → toEntry (ghost w') = toEntry (ghost w)).
Proof.
  intros w'. split.
  - apply (invariant_steps (fun w1 => userId (ghost w1) = userId (ghost w))
             (fun _ => True)); try done.
    + intros c _. apply Forall_stays, steady_programs_userId.
    + intros w1 <-. apply fire_ghost_fields.
    + apply all_events_ok.
  - intros Hes.
    apply (invariant_steps (fun w1 => toEntry (ghost w1) = toEntry (ghost w))
             leaves_entry); try done.
    + intros c Hc. by apply Forall_stays, steady_programs_entry.
    + intros w1 <-. apply fire_ghost_fields.
Qed.

(** ** [update] does not reject *)

Lemma wp_any {A : Type} (m : Prog A) (Φ : Err + A → World → World → Prop) :
  (∀ r w0 w, Φ r w0 w) →
  ∀ w0 w, wp (any_change 0) (any_change 0) m Φ w0 w.
Proof.
  intros HΦ. induction m as [a|e|X op k IH|p k IH|k IH]; intros w0 w; simpl; auto.
  - split; [done|]. auto.
  - split; [done|]. auto.
Qed.

Lemma wp_caught {A : Type} (m : Prog A) (f : A → Result) (i : nat) (w0 w : World) :
  wp (any_change i) (any_change i)
     (catch (m ≫= fun v => Ret (f v)) (fun e => Ret (RFailed e)))
     (post any_change caught i) w0 w.
Proof.
  apply wp_catch, wp_bind. apply wp_any.
  intros [e|a] w1 w2; simpl; (split; [done|]); intros _; by eexists.
Qed.

Lemma update_never_rejects_sys (message : Message) (room : BridgedRoom)
      (w : World) (es : list Event) :
  sys_ok any_change any_change caught
         (steps es (invoke (call_update message room) (idle w))).
Proof.
  assert (sys_ok any_change any_change caught
                 (invoke (call_update message room) (idle w)) ∧
          spawned (invoke (call_update message room) (idle w)) = 2) as [H0 Hsp].
  { unfold invoke. cbn [programs update foldl].
    destruct (spawn_sys_ok any_change any_change caught) with
      (s := idle w) (m := sync_name message room) as (H1 & Hsp1 & _); try done.
    { apply sys_ok_idle. }
    { apply wp_caught. }
    destruct (spawn_sys_ok any_change any_change caught) with
      (s := spawn (sync_name message room) (idle w))
      (m := sync_avatar message room) as (H2 & Hsp2 & _); try done.
    { apply wp_caught. }
    split; [done|]. rewrite Hsp2, Hsp1. done. }
  eapply proj1, (steps_sys_ok any_change any_change caught
                   (fun _ => True) (fun _ => True) 2); try done.
  - intros c m i w1 _ _ Hi _. apply (wp_any m).
    intros r w2 w3. split; [done|]. intros Hlt. lia.
  - apply all_events_ok.
  - lia.
Qed.

(** X6: the two synchronisations that a call of [update] starts never end
    with a rejection, whatever the remote calls deliver, whatever else is
    called and in whatever order the calls are continued: an error of
    [updateDisplayname] or [updateAvatar] is caught (and logged), so the
    [Promise.all] of [update] cannot reject. *)
Theorem update_never_rejects (message : Message) (room : BridgedRoom)
        (w : World) (es : list Event) (i : nat) (r : Err + Result) :
  let s := steps es (invoke (call_update message room) (idle w)) in
  i < 2 → result_of i s = Some r → ∃ v, r = inr v.
Proof.
  intros s Hi Hr.
  pose proof (update_never_rejects_sys message room w es) as (_ & _ & _ & Hfin).
  fold s in Hfin. unfold result_of in Hr.
  destruct (list_find _ (finished s)) as [[n [j r']]|] eqn:Hfind; [|done].
  simpl in Hr. injection Hr as ->.
  apply list_find_Some in Hfind as (Hn & Hj & _). simpl in Hj. subst j.
  apply (Hfin i r); [|done]. by eapply list_elem_of_lookup_2.
Qed.

Lemma update_never_rejects_witness :
  let w := new_world (fromEntry (Entry.mk (Some "U1") (Some "Bob") None)) 0 in
  let es := [Settle 0 (Rejected "M_FORBIDDEN"); Continue 0] in
  let s := steps es (invoke (call_update (mkMessage "U1" (Some "Alice"))
                                         (mkRoom (Some "xoxb"))) (idle w)) in
  result_of 0 s = Some (inr (RFailed "M_FORBIDDEN")) ∧
  ∃ v, @inr Err Result (RFailed "M_FORBIDDEN") = inr v.
Proof.
  intros w es s. split; [reflexivity|].
  apply (update_never_rejects (mkMessage "U1" (Some "Alice")) (mkRoom (Some "xoxb"))
           w es 0 (inr (RFailed "M_FORBIDDEN"))); [lia|reflexivity].
Defined.

(** ** The lookups and their counter *)

Lemma fetch_view_same (w w' : World) :
  userInfoCache (ghost w') = userInfoCache (ghost w) →
  userInfoLoading (ghost w') = userInfoLoading (ghost w) →
  timers w' = timers w →
  remoteCalls (main w') !! "users.info" = remoteCalls (main w) !! "users.info" →
  filter is_users_info (requests w') = filter is_users_info (requests w) →
  fetch_view w' = fetch_view w.
Proof. unfold fetch_view. by intros -> -> -> -> ->. Qed.

Lemma users_info_issue r (w : World) :
  is_users_info r = false →
  filter is_users_info (requests (fst (issue r w)))
  = filter is_users_info (requests w).
Proof.
  intros Hr. rewrite requests_issue, filter_app.
  rewrite (filter_cons is_users_info), Hr. simpl.
  by rewrite filter_nil, app_nil_r.
Qed.

Ltac frames_op :=
  match goal with
  | H : fetch_view ?w = ?c |- fetch_view _ = ?c =>
    rewrite <- H; apply fetch_view_same;
    first [done | by apply users_info_issue | by apply lookup_insert_ne]
  end.

Ltac frames_tac :=
  repeat first
    [ done
    | apply steady_bind
    | apply steady_catch
    | apply steady_await_call
    | frames_op
    | progress intros
    | progress cbn [steady bind catch mbind Prog_bind mret Prog_ret call
                    this assign await setTimeout_evict incCounter fst snd]
    | progress unfold parse_content_uri, full_response, buffer_of,
        event_id_of, response_user, uploadContent,
        sendMessage, sendText, uploadContentFromURI, putUserToStore,
        bumpATime, aTime
    | split
    | match goal with
      | |- context [match ?x with _ => _ end] => destruct x
      | |- context [if ?x then _ else _] => destruct x
      end ].

Lemma frames_bind {A B : Type} (m : Prog A) (f : A → Prog B) :
  frames m → (∀ a, frames (f a)) → frames (m ≫= f).
Proof. intros Hm Hf c. apply steady_bind; [apply Hm|]. intros a. apply Hf. Qed.

Lemma frames_uploadContent f : frames (uploadContent f).
Proof. intros c. frames_tac. Qed.

Lemma frames_sendMessage r m s ts : frames (sendMessage r m s ts).
Proof. intros c. frames_tac. Qed.

Lemma frames_uploadContentFromURI f u t : frames (uploadContentFromURI f u t).
Proof. intros c. frames_tac. Qed.

Lemma steady_view {X A : Type} (view : World → X) (P : X → Prop) (m : Prog A) :
  (∀ c, steady (fun w => view w = c) m) → steady (fun w => P (view w)) m.
Proof.
  induction m as [a|e|Y op k IH|p k IH|k IH]; intros Hm; simpl in *; try done.
  - split.
    + intros w Hw. destruct (Hm (view w)) as [Hop _]. by rewrite (Hop w).
    + intros x. apply IH. intros c. apply (Hm c).
  - intros o. apply IH. intros c. apply (Hm c).
  - by apply IH.
Qed.

(** The calls keep an invariant of the state as soon as [lookupUserInfo]
    does and the invariant depends on the state of the lookups alone. *)
Section lookups.

Variable I : World → Prop.
Hypothesis I_lookup : ∀ i t, stays I (lookupUserInfo i t).
Hypothesis I_frames : ∀ (A : Type) (m : Prog A), frames m → stays I m.

Lemma stays_getDisplayname i t : stays I (getDisplayname i t).
Proof.
  apply stays_bind; [apply stays_await_call, I_lookup|].
  intros u. apply I_frames. intros c. frames_tac.
Qed.

Lemma stays_lookupAvatarUrl i t : stays I (lookupAvatarUrl i t).
Proof.
  apply stays_bind; [apply stays_await_call, I_lookup|].
  intros u. apply I_frames. intros c. frames_tac.
Qed.

Lemma stays_updateDisplayname m room : stays I (updateDisplayname m room).
Proof.
  unfold updateDisplayname.
  destruct (negb (JS.truthy (AccessToken room))); [by apply I_frames|].
  apply stays_bind.
  - destruct (negb (JS.truthy (user_name m)));
      [apply stays_await_call, stays_getDisplayname|by apply I_frames].
  - intros n. apply I_frames. intros c. frames_tac.
Qed.

Lemma stays_updateAvatar m room : stays I (updateAvatar m room).
Proof.
  unfold updateAvatar.
  destruct (negb (JS.truthy (AccessToken room))); [by apply I_frames|].
  apply stays_bind; [apply stays_await_call, stays_lookupAvatarUrl|].
  intros url. apply I_frames. intros c. frames_tac.
Qed.

Lemma stays_programs (c : Call) : Forall (stays I) (programs c).
Proof.
  destruct c; unfold programs, update, sync_name, sync_avatar;
    repeat apply Forall_cons_2; try apply Forall_nil_2;
    try (apply stays_catch; [|intros e; by apply I_frames]);
    (apply stays_bind; [|intros a; by apply I_frames]);
    first [ apply I_lookup
          | apply stays_getDisplayname
          | apply stays_lookupAvatarUrl
          | apply stays_updateDisplayname
          | apply stays_updateAvatar
          | apply I_frames; intros v; frames_tac ].
Qed.

End lookups.

Lemma counted_frames {A : Type} (m : Prog A) :
  frames m → stays users_info_counted m.
Proof.
  intros Hm. apply steady_stays.
  apply (steady_view fetch_view
           (fun v => default 0 (snd (fst v)) = length (snd v)) m Hm).
Qed.

Lemma counted_start_fetch (i t : string) (w : World) :
  users_info_counted w → users_info_counted (start_fetch i t w).
Proof.
  unfold users_info_counted. intros H.
  rewrite requests_start_fetch, filter_app, length_app.
  unfold remote_calls at 1. cbn [main start_fetch remoteCalls].
  rewrite lookup_insert_eq. simpl. rewrite H. lia.
Qed.

Lemma counted_lookupUserInfo (i t : string) :
  stays users_info_counted (lookupUserInfo i t).
Proof.
  intros w0 w H0 Hw. unfold lookupUserInfo. simpl.
  destruct (userInfoCache (ghost w)) as [u|] eqn:Hc; simpl; [done|].
  destruct (userInfoLoading (ghost w)) as [p|] eqn:Hl; simpl.
  - split; [by intros _|]. intros w' o Hst _. specialize (Hst Hw).
    by destruct o as [[[[u|]]| | | | | |]|e].
  - split; [intros _; by apply (counted_start_fetch i t w)|].
    intros w' o Hst _. specialize (Hst (counted_start_fetch i t w Hw)).
    destruct o as [[[[[[pr|]]|]]| | | | | |]|e]; simpl; done.
Qed.

Lemma fire_fetch_view (w : World) :
  remoteCalls (main (fire w)) = remoteCalls (main w) ∧
  requests (fire w) = requests w.
Proof.
  unfold fire. destruct (timers w) as [|d l]; [done|].
  by destruct (d <=? now w)%Z.
Qed.

(** X7: for a ghost made from a store entry, after any calls and events,
    the remote-call counter of [users.info] is the number of [users.info]
    requests issued: every fetch is counted once, as it is issued, and
    nothing else is. *)
Theorem users_info_calls_are_counted (e : Entry.t) (t0 : Z) (es : list Event) :
  let w := world (steps es (idle (new_world (fromEntry e) t0))) in
  remote_calls w = length (filter is_users_info (requests w)).
Proof.
  apply (invariant_steps users_info_counted (fun _ => True)); try done.
  - intros c _. apply stays_programs;
      [apply counted_lookupUserInfo|apply @counted_frames].
  - intros p o w. unfold users_info_counted.
    by rewrite requests_store_outcome.
  - intros w. unfold users_info_counted, remote_calls.
    destruct (fire_fetch_view w) as [-> ->]. done.
  - apply all_events_ok.
Qed.

(** The calls of a system that was idle once have numbers of their own,
    below the next number. *)
Lemma reachable_numbers (es : list Event) (w : World) :
  let s := steps es (idle w) in
  NoDup (numbers s) ∧ ∀ i, i ∈ numbers s → i < spawned s.
Proof.
  intros s.
  assert (sys_ok any_change any_change (fun _ _ _ => True) s) as (H1 & H2 & _).
  { eapply proj1, (steps_sys_ok any_change any_change (fun _ _ _ => True)
                      (fun _ => True) (fun _ => True) 0); try done.
    - intros c m i w1 _ _ _ _. by apply (wp_any m).
    - apply all_events_ok.
    - apply sys_ok_idle. }
  done.
Qed.

Lemma stuck_lookupUserInfo c0 (i t : string) :
  fst (fst (fst (fst c0))) = None →
  is_Some (snd (fst (fst (fst c0)))) →
  stays (fun w => fetch_view w = c0) (lookupUserInfo i t).
Proof.
  intros Hc [p Hl] w0 w H0 Hw.
  assert (userInfoCache (ghost w) = None) as Hcw by (by rewrite <- Hw in Hc).
  assert (userInfoLoading (ghost w) = Some p) as Hlw by (by rewrite <- Hw in Hl).
  unfold lookupUserInfo. simpl. rewrite Hcw. simpl. rewrite Hlw. simpl.
  split; [by intros _|]. intros w' o Hst _. specialize (Hst Hw).
  by destruct o as [[[[u|]]| | | | | |]|e].
Qed.

(** X8: a handle of a fetch that is left behind blocks the lookups for
    good.  From a state where no call is parked, the cache is empty and
    [userInfoLoading] is set, whatever is called and whatever happens
    later, the cache stays empty, the handle stays, and no [users.info]
    request is issued or counted. *)
Theorem stale_handle_blocks_fetches (e : Entry.t) (t0 : Z)
        (es1 es2 : list Event) (p : nat) :
  let s1 := steps es1 (idle (new_world (fromEntry e) t0)) in
  let s2 := steps es2 s1 in
  pool s1 = [] →
  userInfoCache (ghost (world s1)) = None →
  userInfoLoading (ghost (world s1)) = Some p →
  userInfoCache (ghost (world s2)) = None ∧
  userInfoLoading (ghost (world s2)) = Some p ∧
  remote_calls (world s2) = remote_calls (world s1) ∧
  filter is_users_info (requests (world s2))
  = filter is_users_info (requests (world s1)).
Proof.
  intros s1 s2 Hpool Hc Hl.
  destruct (reachable_numbers es1 (new_world (fromEntry e) t0)) as [Hnd Hlt].
  fold s1 in Hnd, Hlt.
  assert (timers (world s1) = []) as Ht.
  { destruct (steps_ok es1 (idle (new_world (fromEntry e) t0))) as [[He _] _].
    { by apply cache_inv_idle. }
    fold s1 in He. unfold entry_ok in He. by rewrite Hc in He. }
  assert (fetch_view (world s2) = fetch_view (world s1)) as Hv.
  { apply (invariant_steps_from (fun w => fetch_view w = fetch_view (world s1))
             (fun _ => True)); try done.
    - intros c _. apply stays_programs.
      + intros i t. apply stuck_lookupUserInfo; simpl; [done|by rewrite Hl].
      + intros A m Hm. apply steady_stays, Hm.
    - intros q o w <-. apply fetch_view_same; try done.
      by rewrite requests_store_outcome.
    - intros w Hw. rewrite <- Hw. unfold fire.
      assert (timers w = []) as ->; [|done].
      unfold fetch_view in Hw. rewrite Ht in Hw. by injection Hw.
    - apply all_events_ok. }
  unfold fetch_view in Hv. injection Hv as H1 H2 H3 H4 H5.
  repeat split; try congruence.
  unfold remote_calls. by rewrite H4.
Qed.

Lemma stale_handle_blocks_fetches_witness :
  let e := Entry.mk (Some "U1") (Some "Bob") None in
  let es1 := [Invoke (call_lookupUserInfo "U1" "xoxb");
              Settle 0 (Rejected "ETIMEDOUT"); Continue 0] in
  let es2 := [Tick 600000; Fire; Invoke (call_getDisplayname "U1" "xoxb");
              Continue 1; Continue 1] in
  let s2 := steps es2 (steps es1 (idle (new_world (fromEntry e) 0))) in
  remote_calls (world s2) = 1 ∧
  result_of 1 s2 = Some (inl "ETIMEDOUT").
Proof.
  intros e es1 es2 s2.
  pose proof (stale_handle_blocks_fetches e 0 es1 es2 0 eq_refl eq_refl eq_refl)
    as (_ & _ & H & _).
  split; [exact H|]. vm_compute. reflexivity.
Defined.

(** ** What the synchronisations store *)

Lemma exec_lookupAvatarUrl env (i t : string) (w : World) :
  exec env (lookupAvatarUrl i t) w =
  match lookup_alone env i t w with
  | (w', inr u) => (w', inr (avatar_of_profile (u ≫= profile)))
  | (w', inl e) => (w', inl e)
  end.
Proof.
  unfold lookupAvatarUrl. rewrite exec_bind, exec_await_call, exec_lookupUserInfo.
  by destruct (lookup_alone env i t w) as [w' [e|[[[p|]]|]]].
Qed.

Lemma exec_updateAvatar env (m : Message) (room : BridgedRoom) (w : World) :
  JS.truthy (AccessToken room) = true →
  exec env (updateAvatar m room) w =
  match exec env (lookupAvatarUrl (user_id m) (default "" (AccessToken room))) w with
  | (w1, inr url) => push_avatar env url w1
  | (w1, inl e) => (w1, inl e)
  end.
Proof.
  intros Ht. unfold updateAvatar. rewrite Ht. cbn [negb].
  rewrite exec_bind, exec_await_call.
  destruct (exec env (lookupAvatarUrl _ _) w) as [w1 [e|url]]; [done|].
  unfold push_avatar. cbn [exec this mbind Prog_bind bind].
  destruct (negb (JS.truthy url) || JS.eq (avatarUrl (ghost w1)) url); [done|].
  destruct (url ≫= match_last_segment) as [shortname|]; [|done].
  rewrite exec_call_await. cbv zeta.
  destruct (env (length (promises w1))) as [v1|e1]; [|done].
  set (w2 := answered _ _ w1).
  destruct v1 as [r|content content_type|b|c| |ev|]; try done.
  cbn [full_response mbind Prog_bind bind].
  change (exec env (bind (await_call ?m) ?f) w2) with (exec env (await_call m ≫= f) w2).
  rewrite exec_bind, exec_await_call, exec_uploadContent. cbv zeta.
  destruct (env (length (promises w2))) as [v2|e2]; [|done].
  set (w3 := answered _ _ w2).
  destruct v2 as [r|c0 ct0|b|contentUri| |ev|]; try done.
  cbn [parse_content_uri]. rewrite exec_call_await. cbv zeta.
  by destruct (env (length (promises w3))) as [v3|e3].
Qed.

(** X1: the file name of the avatar that [updateAvatar] uploads is what
    follows the last slash of the avatar URL.  Run on its own in a room
    with a token, with the lookup giving a URL that is not empty and not
    the stored one: when the URL ends with a slash followed by [seg],
    where [seg] is not empty and has no slash, the URL is downloaded (the
    full response is asked for) and, when the download delivers a full
    response, its body is uploaded next under the title [seg] with the
    content type of the response; when the download fails, nothing more
    is requested.  When the URL has no such end (no slash at all, or
    nothing after the last one), the call ends after the lookup and
    nothing is requested. *)
Theorem updateAvatar_uploads_last_segment
        env (m : Message) (room : BridgedRoom) (w w1 : World) (url : string) :
  JS.truthy (AccessToken room) = true →
  exec env (lookupAvatarUrl (user_id m) (default "" (AccessToken room))) w
  = (w1, inr (Some url)) →
  url ≠ "" → avatarUrl (ghost w1) ≠ Some url →
  let p := length (promises w1) in
  (∀ pre seg : string,
      url = (pre ++ "/" ++ seg)%string → seg ≠ "" → no_slash seg = true →
      ∃ rest,
        requests (fst (exec env (updateAvatar m room) w))
        = requests w1 ++ HttpGet url None true ::
          match env p with
          | Resolved (VFull content content_type) =>
            UploadContent (mkFile content (Some seg) content_type) :: rest
          | _ => []
          end) ∧
  ((∀ pre seg : string,
       url = (pre ++ "/" ++ seg)%string → seg ≠ "" → no_slash seg = true → False) →
   exec env (updateAvatar m room) w = (w1, inr tt)).
Proof.
  intros Ht Hlook Hne Hneq p.
  rewrite (exec_updateAvatar env m room w Ht), Hlook. unfold push_avatar.
  assert (JS.truthy (Some url) = true) as -> by (by destruct url).
  assert (JS.eq (avatarUrl (ghost w1)) (Some url) = false) as ->.
  { unfold JS.eq. by apply bool_decide_eq_false. }
  cbn [negb orb mbind option_bind default].
  split.
  - intros pre seg Hurl Hseg Hns.
    assert (match_last_segment url = Some seg) as ->.
    { apply match_last_segment_spec. split; [done|]. split; [done|]. by exists pre. }
    cbv zeta. fold p.
    destruct (env p) as [v1|e1]; [|exists []; cbn [fst]; apply requests_answered].
    destruct v1 as [r|content content_type|b|c| |ev|];
      try (exists []; cbn [fst]; apply requests_answered).
    set (w2 := answered _ _ w1).
    assert (requests w2 = requests w1 ++ [HttpGet url None true]) as H2
        by apply requests_answered.
    set (f := mkFile content (Some seg) content_type).
    destruct (env (length (promises w2))) as [v2|e2].
    2:{ exists []. cbn [fst]. rewrite requests_answered, H2, <- app_assoc. done. }
    set (w3 := answered _ _ w2).
    assert (requests w3 = requests w1 ++ [HttpGet url None true; UploadContent f]) as H3.
    { subst w3. rewrite requests_answered, H2, <- app_assoc. done. }
    destruct v2 as [r|c0 ct0|b|contentUri| |ev|];
      try (exists []; cbn [fst]; exact H3).
    destruct (env (length (promises w3))) as [v3|e3].
    + eexists. cbn [fst]. rewrite requests_issue.
      unfold requests at 1. cbn [promises with_ghost].
      fold (requests (answered (SetAvatarUrl contentUri) (Resolved v3) w3)).
      rewrite requests_answered, H3, <- !app_assoc. simpl. reflexivity.
    + eexists. cbn [fst]. rewrite requests_answered, H3, <- !app_assoc.
      simpl. reflexivity.
  - intros Hno. destruct (match_last_segment url) as [seg|] eqn:Hm; [|done].
    apply match_last_segment_spec in Hm as (Hseg & Hns & pre & Hurl).
    destruct (Hno pre seg Hurl Hseg Hns).
Qed.

Lemma updateAvatar_uploads_last_segment_witness :
  let url := "https://avatars.slack-edge.com/2019-01-01/abc_original.png" in
  let u := mkUser (Some (mkProfile None None (Some url) None None None None None)) in
  let w := new_world (mkGhost None (Some u) None (Some "U1") (Some "Bob") None) 0 in
  let env := fun p : nat => match p with
                            | 0 => Resolved (VFull "PNG" (Some "image/png"))
                            | _ => Rejected "M_TOO_LARGE"
                            end in
  let m := mkMessage "U1" None in
  let room := mkRoom (Some "xoxb") in
  take 2 (requests (fst (exec env (updateAvatar m room) w)))
  = [HttpGet url None true;
     UploadContent (mkFile "PNG" (Some "abc_original.png") (Some "image/png"))].
Proof.
  intros url u w env m room.
  destruct (updateAvatar_uploads_last_segment env m room w w url)
    as [H _]; [reflexivity|reflexivity|discriminate|discriminate|].
  destruct (H "https://avatars.slack-edge.com/2019-01-01" "abc_original.png")
    as [rest Hrest]; [reflexivity|discriminate|reflexivity|].
  rewrite Hrest. reflexivity.
Defined.

Lemma lookup_answered_new r o (w : World) :
  promises (answered r o w) !! length (promises w) = Some (mkPromise r (Some o)).
Proof.
  unfold answered, store_outcome. simpl.
  rewrite list_lookup_alter_eq, lookup_app_r, Nat.sub_diag by lia. done.
Qed.

Lemma lookup_answered_old r o (w : World) p x :
  promises w !! p = Some x → promises (answered r o w) !! p = Some x.
Proof.
  intros Hp. pose proof (lookup_lt_Some _ _ _ Hp) as Hlt.
  unfold answered, store_outcome. simpl.
  rewrite list_lookup_alter_ne by lia. by rewrite lookup_app_l.
Qed.

Lemma fulfilled_answered r' o (w : World) r :
  fulfilled w r → fulfilled (answered r' o w) r.
Proof. intros (p & v & Hp). exists p, v. by apply lookup_answered_old. Qed.

Lemma fulfilled_new r v (w : World) : fulfilled (answered r (Resolved v) w) r.
Proof. exists (length (promises w)), v. apply lookup_answered_new. Qed.

Lemma fulfilled_issue r' (w : World) r :
  fulfilled w r → fulfilled (fst (issue r' w)) r.
Proof.
  intros (p & v & Hp). exists p, v. simpl. rewrite lookup_app_l; [done|].
  by eapply lookup_lt_Some.
Qed.

Lemma store_write_answered r o (w : World) :
  store_write r = false →
  filter store_write (requests (answered r o w)) = filter store_write (requests w).
Proof.
  intros Hr. rewrite requests_answered, filter_app.
  rewrite (filter_cons store_write), Hr. simpl. by rewrite filter_nil, app_nil_r.
Qed.

Lemma push_name_applied env n (w : World) :
  let w' := fst (push_name env n w) in
  userId (ghost w') = userId (ghost w) ∧
  avatarUrl (ghost w') = avatarUrl (ghost w) ∧
  ((displayName (ghost w') = displayName (ghost w) ∧
    filter store_write (requests w') = filter store_write (requests w)) ∨
   (fulfilled w' (SetDisplayName n) ∧
    displayName (ghost w') = n ∧ JS.truthy n = true ∧
    filter store_write (requests w')
    = filter store_write (requests w) ++ [PutUserToStore (toEntry (ghost w'))])).
Proof.
  unfold push_name.
  destruct (negb (JS.truthy n) || JS.eq (displayName (ghost w)) n) eqn:Hcond.
  { simpl. auto. }
  apply orb_false_elim in Hcond as [Hn _]. apply negb_false_iff in Hn.
  cbv zeta. destruct (env (length (promises w))) as [v|e].
  - cbn [fst]. split; [done|]. split; [done|]. right.
    split; [|split; [done|split; [done|]]].
    + apply fulfilled_answered. unfold fulfilled. cbn [promises with_ghost].
      apply fulfilled_new.
    + rewrite requests_answered, filter_app.
      rewrite (filter_cons store_write). simpl. rewrite filter_nil.
      f_equal. unfold requests at 1. cbn [promises with_ghost].
      by apply store_write_answered.
  - cbn [fst]. split; [done|]. split; [done|]. left.
    split; [done|]. by apply store_write_answered.
Qed.

(** X9: [updateDisplayname], run on its own, never changes [userId] or
    [avatarUrl], and either leaves [displayName] and the user store as
    they were, or: the puppet accepted the new name, the new name is not
    empty, and the one write to the user store that was added is the entry
    of the ghost with the new name. *)
Theorem updateDisplayname_stores_what_was_pushed
        env (m : Message) (room : BridgedRoom) (w : World) :
  let w' := fst (exec env (updateDisplayname m room) w) in
  userId (ghost w') = userId (ghost w) ∧
  avatarUrl (ghost w') = avatarUrl (ghost w) ∧
  ((displayName (ghost w') = displayName (ghost w) ∧
    filter store_write (requests w') = filter store_write (requests w)) ∨
   (fulfilled w' (SetDisplayName (displayName (ghost w'))) ∧
    JS.truthy (displayName (ghost w')) = true ∧
    filter store_write (requests w')
    = filter store_write (requests w) ++ [PutUserToStore (toEntry (ghost w'))])).
Proof.
  intros w'. subst w'.
  destruct (JS.truthy (AccessToken room)) eqn:Ht.
  2:{ unfold updateDisplayname. rewrite Ht. simpl. auto. }
  rewrite exec_updateDisplayname by done.
  assert (∀ n w1,
    toEntry (ghost w1) = toEntry (ghost w) →
    filter store_write (requests w1) = filter store_write (requests w) →
    let w' := fst (push_name env n w1) in
    userId (ghost w') = userId (ghost w) ∧
    avatarUrl (ghost w') = avatarUrl (ghost w) ∧
    ((displayName (ghost w') = displayName (ghost w) ∧
      filter store_write (requests w') = filter store_write (requests w)) ∨
     (fulfilled w' (SetDisplayName (displayName (ghost w'))) ∧
      JS.truthy (displayName (ghost w')) = true ∧
      filter store_write (requests w')
      = filter store_write (requests w) ++ [PutUserToStore (toEntry (ghost w'))])))
    as Hpush.
  { intros n w1 He Hf w'. injection He as Hu Hd Ha.
    destruct (push_name_applied env n w1) as (H1 & H2 & H3). fold w' in H1, H2, H3.
    split; [congruence|]. split; [congruence|].
    destruct H3 as [[H3 H4]|(H3 & H4 & H5 & H6)].
    - left. split; congruence.
    - right. rewrite H4. split; [done|]. split; [done|]. by rewrite H6, Hf. }
  destruct (JS.truthy (user_name m)); [by apply Hpush|].
  rewrite exec_getDisplayname.
  pose proof (lookup_alone_frame env (user_id m)
                (default "" (AccessToken room)) w) as (He & _ & Hf).
  destruct (lookup_alone _ _ _ w) as [w1 [e|u]]; cbn [fst] in *.
  - injection He as Hu Hd Ha. split; [done|]. split; [done|]. by left.
  - by apply Hpush.
Qed.

Lemma push_avatar_applied env url (w : World) :
  let w' := fst (push_avatar env url w) in
  userId (ghost w') = userId (ghost w) ∧
  displayName (ghost w') = displayName (ghost w) ∧
  ((avatarUrl (ghost w') = avatarUrl (ghost w) ∧
    filter store_write (requests w') = filter store_write (requests w)) ∨
   (snd (push_avatar env url w) = inr tt ∧
    (∃ uri, fulfilled w' (SetAvatarUrl uri)) ∧
    avatarUrl (ghost w') = url ∧ JS.truthy url = true ∧
    is_Some (url ≫= match_last_segment) ∧
    filter store_write (requests w')
    = filter store_write (requests w) ++ [PutUserToStore (toEntry (ghost w'))])).
Proof.
  unfold push_avatar.
  destruct (negb (JS.truthy url) || JS.eq (avatarUrl (ghost w)) url) eqn:Hcond.
  { simpl. auto. }
  apply orb_false_elim in Hcond as [Hn _]. apply negb_false_iff in Hn.
  destruct (url ≫= match_last_segment) as [shortname|] eqn:Hseg; [|simpl; auto].
  cbv zeta.
  destruct (env (length (promises w))) as [v1|e1].
  2:{ cbn [fst]. split; [done|]. split; [done|]. left. split; [done|].
      by apply store_write_answered. }
  set (w1 := answered _ _ w).
  assert (filter store_write (requests w1) = filter store_write (requests w))
    as Hf1 by (by apply store_write_answered).
  destruct v1 as [r|content content_type|b|c| |ev|];
    try (cbn [fst]; split; [done|]; split; [done|]; left; by split).
  destruct (env (length (promises w1))) as [v2|e2].
  2:{ cbn [fst]. split; [done|]. split; [done|]. left. split; [done|].
      etrans; [by apply store_write_answered|done]. }
  set (w2 := answered _ _ w1).
  assert (filter store_write (requests w2) = filter store_write (requests w))
    as Hf2 by (etrans; [by apply store_write_answered|done]).
  destruct v2 as [r|c0 ct0|b|contentUri| |ev|];
    try (cbn [fst]; split; [done|]; split; [done|]; left; by split).
  destruct (env (length (promises w2))) as [v3|e3].
  2:{ cbn [fst]. split; [done|]. split; [done|]. left. split; [done|].
      etrans; [by apply store_write_answered|done]. }
  cbn [fst snd]. split; [done|]. split; [done|]. right.
  split; [done|]. split; [|split; [done|split; [done|split; [by eexists|]]]].
  - exists contentUri. apply fulfilled_issue. unfold fulfilled.
    cbn [promises with_ghost]. apply fulfilled_new.
  - rewrite requests_issue, filter_app.
    rewrite (filter_cons store_write). simpl. rewrite filter_nil.
    f_equal. unfold requests at 1. cbn [promises with_ghost].
    etrans; [by apply store_write_answered|done].
Qed.

(** X10: [updateAvatar], run on its own, never changes [userId] or
    [displayName], and either leaves [avatarUrl] and the user store as
    they were, or: the call ended well, the puppet accepted an avatar,
    the new [avatarUrl] is not empty and has a file name after its last
    slash, and the one write to the user store that was added is the entry
    of the ghost with the new URL. *)
Theorem updateAvatar_stores_what_was_pushed
        env (m : Message) (room : BridgedRoom) (w : World) :
  let w' := fst (exec env (updateAvatar m room) w) in
  userId (ghost w') = userId (ghost w) ∧
  displayName (ghost w') = displayName (ghost w) ∧
  ((avatarUrl (ghost w') = avatarUrl (ghost w) ∧
    filter store_write (requests w') = filter store_write (requests w)) ∨
   (snd (exec env (updateAvatar m room) w) = inr tt ∧
    (∃ uri, fulfilled w' (SetAvatarUrl uri)) ∧
    JS.truthy (avatarUrl (ghost w')) = true ∧
    is_Some (avatarUrl (ghost w') ≫= match_last_segment) ∧
    filter store_write (requests w')
    = filter store_write (requests w) ++ [PutUserToStore (toEntry (ghost w'))])).
Proof.
  intros w'. subst w'.
  destruct (JS.truthy (AccessToken room)) eqn:Ht.
  2:{ unfold updateAvatar. rewrite Ht. simpl. auto. }
  rewrite exec_updateAvatar by done. rewrite exec_lookupAvatarUrl.
  pose proof (lookup_alone_frame env (user_id m)
                (default "" (AccessToken room)) w) as (He & _ & Hf).
  destruct (lookup_alone _ _ _ w) as [w1 [e|u]]; cbn [fst] in *;
    injection He as Hu Hd Ha.
  - split; [done|]. split; [done|]. by left.
  - destruct (push_avatar_applied env (avatar_of_profile (u ≫= profile)) w1)
      as (H1 & H2 & H3).
    split; [congruence|]. split; [congruence|].
    destruct H3 as [[H3 H4]|(H3 & H4 & H5 & H6 & H7 & H8)].
    + left. split; congruence.
    + right. rewrite H5. split; [done|]. split; [done|]. split; [done|].
      split; [done|]. by rewrite H8, Hf.
Qed.

(** ** The texts of [sendText] *)

Lemma run_sendText_requests (roomId text slackRoomID : string) (ts : Z) (w : World) :
  requests (fst (run (sendText roomId text slackRoomID ts) w))
  = requests w ++
    [SendMessage roomId
       (mkContent (replace_all mention text) "m.text" (Slackdown_parse text)
                  "org.matrix.custom.html")].
Proof. unfold sendText, sendMessage. simpl. apply requests_issue. Qed.

(** X11: a text without [<] is relayed as it is: the body [sendText]
    sends is the text, the formatted body is its Slackdown rendering. *)
Theorem sendText_plain_text (roomId text slackRoomID : string) (ts : Z) (w : World) :
  has_char "<" text = false →
  requests (fst (run (sendText roomId text slackRoomID ts) w))
  = requests w ++
    [SendMessage roomId
       (mkContent text "m.text" (Slackdown_parse text) "org.matrix.custom.html")].
Proof.
  intros H. rewrite run_sendText_requests.
  unfold replace_all. by rewrite replace_from_plain.
Qed.

Lemma sendText_plain_text_witness :
  let w := new_world (fromEntry (Entry.mk (Some "U1") (Some "Carol") None)) 0 in
  requests (fst (run (sendText "!r:example.org" "see you at 5 > 4" "C024BE91L" 1) w))
  = [SendMessage "!r:example.org"
       (mkContent "see you at 5 > 4" "m.text" (Slackdown_parse "see you at 5 > 4")
                  "org.matrix.custom.html")].
Proof.
  intros w.
  apply (sendText_plain_text "!r:example.org" "see you at 5 > 4" "C024BE91L" 1 w).
  reflexivity.
Defined.

(** X12: a text with one mention link, around which there is no [<] and
    after which there is no [>] and no [|], is relayed with the link
    replaced by its display text and all the rest as it was, whatever the
    user, the host and the display text are (not empty, on one line,
    without [|], the display text without [>]). *)
Theorem sendText_one_mention (roomId slackRoomID : string) (ts : Z) (w : World)
        (pre user host display post : string) :
  user ≠ "" → host ≠ "" → display ≠ "" →
  one_line user = true → one_line host = true → one_line display = true →
  has_char "|" (user ++ host ++ display ++ post)%string = false →
  has_char ">" (display ++ post)%string = false →
  has_char "<" (pre ++ post)%string = false →
  let text := (pre ++ mention_link user host display ++ post)%string in
  requests (fst (run (sendText roomId text slackRoomID ts) w))
  = requests w ++
    [SendMessage roomId
       (mkContent (pre ++ display ++ post)%string "m.text" (Slackdown_parse text)
                  "org.matrix.custom.html")].
Proof.
  intros Hu Hh Hd Lu Lh Ld Hbar Hgt Hlt text. subst text.
  rewrite run_sendText_requests.
  by rewrite replace_all_mention_in_context.
Qed.

Lemma sendText_one_mention_witness :
  let w := new_world (fromEntry (Entry.mk (Some "U1") (Some "Carol") None)) 0 in
  let text := "ping <https://matrix.to/#/@alice:example.org|Alice>, are you there?" in
  requests (fst (run (sendText "!r:example.org" text "C024BE91L" 1) w))
  = [SendMessage "!r:example.org"
       (mkContent "ping Alice, are you there?" "m.text" (Slackdown_parse text)
                  "org.matrix.custom.html")].
Proof.
  intros w text.
  apply (sendText_one_mention "!r:example.org" "C024BE91L" 1 w
           "ping " "alice" "example.org" "Alice" ", are you there?");
    first [discriminate|reflexivity].
Defined.

(** X13: in a room without an access token (absent or empty), a call of
    [update] ends at once, in both of its synchronisations: no request, no
    change of the state, nothing left to continue, and the two results are
    values, not rejections. *)
Theorem update_without_token (message : Message) (room : BridgedRoom) (s : Sys) :
  JS.truthy (AccessToken room) = false →
  invoke (call_update message room) s
  = mkSys (world s) (pool s) (S (S (spawned s)))
          (finished s ++ [(spawned s, inr (RValue VUndefined));
                          (S (spawned s), inr RVoid)]).
Proof.
  intros Ht. unfold invoke. cbn [programs update foldl].
  unfold spawn, advance, sync_name, sync_avatar, updateDisplayname, updateAvatar.
  rewrite Ht. simpl. by rewrite <- app_assoc.
Qed.

Lemma update_without_token_witness :
  let w := new_world (fromEntry (Entry.mk (Some "U1") (Some "Bob") None)) 0 in
  let s := invoke (call_update (mkMessage "U1" (Some "Alice")) (mkRoom (Some "")))
                  (idle w) in
  world s = w ∧ pool s = [].
Proof.
  intros w s. subst s.
  rewrite (update_without_token (mkMessage "U1" (Some "Alice")) (mkRoom (Some ""))
             (idle w) eq_refl).
  done.
Defined.

(** ** The cache and its timer *)

(** X14: for a ghost made from a store entry, after any calls and events:
    while the cache holds a user there is no handle of a fetch and exactly
    one eviction timer is pending; while the cache is empty no timer is
    pending.  Timers do not pile up and none outlives its entry. *)
Theorem cache_entry_invariant (e : Entry.t) (t0 : Z) (es : list Event) :
  let w := world (steps es (idle (new_world (fromEntry e) t0))) in
  match userInfoCache (ghost w) with
  | None => timers w = []
  | Some _ => userInfoLoading (ghost w) = None ∧ ∃ due, timers w = [due]
  end.
Proof.
  intros w.
  destruct (steps_ok es (idle (new_world (fromEntry e) t0))) as [[He _] _];
    [by apply cache_inv_idle|].
  exact He.
Qed.

(** ** Two lookups, one fetch *)

(** X15: two lookups started one after the other on a fresh ghost, for
    whatever users and tokens, share one fetch: one [users.info] request,
    that of the first, counted once.  Unless the fetch
    delivers a user without a profile, both lookups end, with the same
    result, in whichever order they are continued. *)
Theorem joined_lookup_agrees_with_profile (e : Entry.t) (t0 : Z)
        (i t i' t' : string) (o : Outcome) (order : list nat) :
  let s := steps ([Invoke (call_lookupUserInfo i t);
                   Invoke (call_lookupUserInfo i' t');
                   Settle 0 o] ++ (Continue <$> order))
                 (idle (new_world (fromEntry e) t0)) in
  (∀ u, o = Resolved (VUserInfo (mkUserInfo (Some u))) → is_Some (profile u)) →
  order = [0; 1] ∨ order = [1; 0] →
  pool s = [] ∧ remote_calls (world s) = 1 ∧
  requests (world s) = [UsersInfo t i] ∧
  is_Some (result_of 0 s) ∧ result_of 0 s = result_of 1 s.
Proof.
  intros s Ho Horder. subst s.
  destruct o as [[[[[[pr|]]|]]| | | | | |]|err];
    try (destruct Horder as [-> | ->]; repeat split; try done; by eexists).
  destruct (Ho _ eq_refl) as [? [=]].
Qed.

Lemma joined_lookup_agrees_with_profile_witness :
  let e := Entry.mk (Some "U1") (Some "Bob") None in
  let s := steps [Invoke (call_lookupUserInfo "U1" "xoxb");
                  Invoke (call_lookupUserInfo "U1" "xoxb");
                  Settle 0 (Rejected "ETIMEDOUT"); Continue 1; Continue 0]
                 (idle (new_world (fromEntry e) 0)) in
  result_of 0 s = result_of 1 s.
Proof.
  intros e s.
  apply (joined_lookup_agrees_with_profile e 0 "U1" "xoxb" "U1" "xoxb"
           (Rejected "ETIMEDOUT") [1; 0]).
  - intros u [=].
  - by right.
Defined.
